(** * markdown-ognile: formatting engine, multi-range orchestrator,
      selection overlap, table parser and table widget grid

    A shallow embedding of the TypeScript sources of the live-preview
    editor, and the properties of its specification proved (or refuted)
    over that embedding.

    Conventions.
    - A JavaScript string is a sequence of UTF-16 code units: [str] is a
      list of code units, a code unit is an [N].
    - Offsets are JavaScript numbers holding integers: [Z].
    - Arrays are lists; an array updated by index uses stdpp's list insert.
    - A JavaScript function that can throw returns an [option]; the ones
      that cannot are total functions. *)

From Stdlib Require Import ZArith Lia Bool Ascii String.
From stdpp Require Import base list sorting.

Local Open Scope Z_scope.

(* ===================================================================== *)
(** * Part I: the embedding *)
(* ===================================================================== *)

(** ** JavaScript strings *)

Definition char := N.
Abbreviation str := (list char).

Definition ch (a : ascii) : char := N_of_ascii a.
Definition lit (s : string) : str := ch <$> list_ascii_of_string s.

Definition len (s : str) : Z := Z.of_nat (length s).

(** The index arithmetic of [String.prototype.slice]: a negative index
    counts from the end, everything is clamped to [0, length]. *)
Definition relIndex (l i : Z) : Z :=
  if i <? 0 then Z.max (l + i) 0 else Z.min i l.

(** [s.slice(start, stop)] *)
Definition slice (s : str) (start stop : Z) : str :=
  let a := relIndex (len s) start in
  let b := relIndex (len s) stop in
  take (Z.to_nat (b - a)) (drop (Z.to_nat a) s).

(** [s.slice(start)] *)
Definition sliceFrom (s : str) (start : Z) : str := slice s start (len s).

(** [s[i]]: [None] is [undefined]. *)
Definition charAt (s : str) (i : Z) : option char :=
  if i <? 0 then None else s !! Z.to_nat i.

(** [s.startsWith(p)] and [s.endsWith(p)] *)
Definition startsWith (s p : str) : bool :=
  bool_decide (take (length p) s = p).

Definition endsWith (s p : str) : bool :=
  (length p <=? length s)%nat && bool_decide (drop (length s - length p) s = p).

(** [s.indexOf(p, pos)]: the first index at or after [pos] (clamped) where
    [p] occurs, [-1] when there is none. *)
Fixpoint indexOfAux (p s : str) (i : Z) {struct s} : Z :=
  if startsWith s p then i
  else match s with
       | [] => -1
       | _ :: s' => indexOfAux p s' (i + 1)
       end.

Definition indexOf (s p : str) (pos : Z) : Z :=
  let k := Z.min (Z.max pos 0) (len s) in
  indexOfAux p (drop (Z.to_nat k) s) k.

Definition streq (a b : str) : bool := bool_decide (a = b).

(** ** The text formatting engine *)

Inductive FormatCommand := bold | italic | strikethrough | link.

Inductive EmptySelectionBehavior := word | markers.
Inductive ItalicDelimiter := underscore | asterisk.

Record FormattingPreferences := mkPrefs {
  emptySelectionBehavior : EmptySelectionBehavior;
  italicDelimiter : ItalicDelimiter
}.

Record FormattingOptions := mkOptions {
  linkUrl : option str;
  linkText : option str
}.

Definition noOptions : FormattingOptions :=
  {| linkUrl := None; linkText := None |}.

Record TextSelection := mkSel { from : Z; to : Z }.

Record Change := mkChange { cfrom : Z; cto : Z; insert : str }.

Record TextFormatResult := mkResult {
  text : str;
  selection : TextSelection;
  changed : bool;
  change : option Change
}.

(** [WORD_CHAR = /[A-Za-z0-9_]/] on one code unit. *)
Definition between (lo hi c : N) : bool := ((lo <=? c) && (c <=? hi))%N.

Definition WORD_CHAR (c : char) : bool :=
  between 65 90 c || between 97 122 c || between 48 57 c || (c =? 95)%N.

Definition isWordChar (c : option char) : bool :=
  match c with
  | Some c => WORD_CHAR c
  | None => false
  end.

Definition clamp (value min max : Z) : Z := Z.max min (Z.min max value).

Definition normalizeSelection (sel : TextSelection) (maxLength : Z)
  : TextSelection :=
  let f := clamp (from sel) 0 maxLength in
  let t := clamp (to sel) 0 maxLength in
  if f <=? t then {| from := f; to := t |} else {| from := t; to := f |}.

Definition replaceRange (text : str) (from to : Z) (replacement : str) : str :=
  slice text 0 from ++ replacement ++ sliceFrom text to.

(** The two [while] loops of [expandSelectionToWord], each with the number
    of iterations it can make at most as fuel. *)
Fixpoint scanLeft (text : str) (fuel : nat) (from : Z) : Z :=
  match fuel with
  | O => from
  | S k =>
      if (from >? 0) && isWordChar (charAt text (from - 1))
      then scanLeft text k (from - 1)
      else from
  end.

Fixpoint scanRight (text : str) (fuel : nat) (to : Z) : Z :=
  match fuel with
  | O => to
  | S k =>
      if (to <? len text) && isWordChar (charAt text to)
      then scanRight text k (to + 1)
      else to
  end.

(** The pivot chosen by [expandSelectionToWord]: the position itself when a
    word character stands there, else the one before it. *)
Definition wordPivot (text : str) (pos : Z) : option Z :=
  let pivot := clamp pos 0 (len text) in
  if (pivot <? len text) && isWordChar (charAt text pivot) then Some pivot
  else if (pivot >? 0) && isWordChar (charAt text (pivot - 1))
       then Some (pivot - 1)
       else None.

Definition expandSelectionToWord (text : str) (pos : Z)
  : option TextSelection :=
  if len text =? 0 then None
  else match wordPivot text pos with
       | None => None
       | Some pivot =>
           Some {| from := scanLeft text (Z.to_nat pivot) pivot;
                   to := scanRight text (Z.to_nat (len text - (pivot + 1)))
                                   (pivot + 1) |}
       end.

Definition isEmptySel (s : TextSelection) : bool := from s =? to s.

Definition resolveTargetSelection (text : str) (sel : TextSelection)
    (preferences : FormattingPreferences) : TextSelection :=
  let normalized := normalizeSelection sel (len text) in
  if negb (isEmptySel normalized) then normalized
  else match emptySelectionBehavior preferences with
       | word => default normalized (expandSelectionToWord text (from normalized))
       | markers => normalized
       end.

Definition isWrappedSelection (selected marker : str) : bool :=
  if len selected <? len marker * 2 then false
  else if negb (startsWith selected marker) || negb (endsWith selected marker)
  then false
  else if (len marker =? 1)
          && (startsWith selected (marker ++ marker)
              || endsWith selected (marker ++ marker))
  then false
  else true.

(** [c === marker] for a character [c] that may be [undefined]. *)
Definition charIs (c : option char) (marker : str) : bool :=
  match c with
  | Some c => streq [c] marker
  | None => false
  end.

Definition hasSurroundingMarkers (text : str) (from to : Z) (marker : str)
  : bool :=
  if (from <? len marker) || (to + len marker >? len text) then false
  else
    let before := slice text (from - len marker) from in
    let after := slice text to (to + len marker) in
    if negb (streq before marker) || negb (streq after marker) then false
    else if (len marker =? 1)
            && (charIs (charAt text (from - len marker - 1)) marker
                || charIs (charAt text (to + len marker)) marker)
    then false
    else true.

Definition formatMarker (text : str) (sel : TextSelection) (marker : str)
    (preferences : FormattingPreferences) : TextFormatResult :=
  let target := resolveTargetSelection text sel preferences in
  let selected := slice text (from target) (to target) in
  if from target =? to target then
    let insertion := marker ++ marker in
    let updated := replaceRange text (from target) (to target) insertion in
    let caret := from target + len marker in
    {| text := updated;
       selection := {| from := caret; to := caret |};
       changed := negb (streq updated text);
       change := Some {| cfrom := from target; cto := to target;
                         insert := insertion |} |}
  else if isWrappedSelection selected marker then
    let inner := slice selected (len marker) (len selected - len marker) in
    let updated := replaceRange text (from target) (to target) inner in
    {| text := updated;
       selection := {| from := from target; to := from target + len inner |};
       changed := negb (streq updated text);
       change := Some {| cfrom := from target; cto := to target;
                         insert := inner |} |}
  else if hasSurroundingMarkers text (from target) (to target) marker then
    let start := from target - len marker in
    let stop := to target + len marker in
    let updated := replaceRange text start stop selected in
    {| text := updated;
       selection := {| from := start; to := start + len selected |};
       changed := negb (streq updated text);
       change := Some {| cfrom := start; cto := stop; insert := selected |} |}
  else
    let wrapped := marker ++ selected ++ marker in
    let updated := replaceRange text (from target) (to target) wrapped in
    {| text := updated;
       selection := {| from := from target + len marker;
                       to := to target + len marker |};
       changed := negb (streq updated text);
       change := Some {| cfrom := from target; cto := to target;
                         insert := wrapped |} |}.

(** The code units the link syntax and the table syntax are made of. *)
Definition LBRACKET : char := 91%N.   (* [ *)
Definition RBRACKET : char := 93%N.   (* ] *)
Definition LPAREN : char := 40%N.     (* ( *)
Definition RPAREN : char := 41%N.     (* ) *)
Definition NEWLINE : char := 10%N.
Definition PIPE : char := 124%N.      (* | *)
Definition COLON : char := 58%N.      (* : *)
Definition DASH : char := 45%N.       (* - *)

(** The longest prefix of [s] whose code units all satisfy [p]: what a
    greedy character class followed by [+] consumes. *)
Fixpoint spanWhile (p : char -> bool) (s : str) : str :=
  match s with
  | [] => []
  | c :: s' => if p c then c :: spanWhile p s' else []
  end.

(** [selectionText.match(/^\[([^\]]+)\]\(([^\n)]+)\)$/)], returning group 1.
    Both classes exclude the character that must follow them, so the greedy
    match is the only one: the label runs to the first "]" and the url to
    the first ")" or newline, which has to be a ")" ending the string. *)
Definition tryUnwrapFullLink (selectionText : str) : option str :=
  match selectionText with
  | c :: rest =>
      if (c =? LBRACKET)%N then
        let label := spanWhile (fun c => negb (c =? RBRACKET)%N) rest in
        match drop (length label) rest with
        | rb :: lp :: rest2 =>
            if (rb =? RBRACKET)%N && (lp =? LPAREN)%N
               && negb (length label =? 0)%nat then
              let url :=
                spanWhile (fun c => negb (c =? NEWLINE)%N && negb (c =? RPAREN)%N)
                          rest2 in
              match drop (length url) rest2 with
              | [rp] =>
                  if (rp =? RPAREN)%N && negb (length url =? 0)%nat
                  then Some label else None
              | _ => None
              end
            else None
        | _ => None
        end
      else None
  | [] => None
  end.

Definition tryUnwrapLinkAroundSelection (text : str) (sel : TextSelection)
  : option TextFormatResult :=
  if (from sel =? 0) || negb (charIs (charAt text (from sel - 1)) [LBRACKET])
  then None
  else
    let labelEnd := indexOf text [RBRACKET; LPAREN] (to sel) in
    if negb (labelEnd =? to sel) then None
    else
      let urlEnd := indexOf text [RPAREN] (labelEnd + 2) in
      if urlEnd =? -1 then None
      else
        let label := slice text (from sel) (to sel) in
        let updated := replaceRange text (from sel - 1) (urlEnd + 1) label in
        Some {| text := updated;
                selection := {| from := from sel - 1;
                                to := from sel - 1 + len label |};
                changed := negb (streq updated text);
                change := Some {| cfrom := from sel - 1; cto := urlEnd + 1;
                                  insert := label |} |}.

(** The template literal [`[${label}](${url})`]. *)
Definition linkMarkdown (label url : str) : str :=
  [LBRACKET] ++ label ++ [RBRACKET; LPAREN] ++ url ++ [RPAREN].

Definition formatLink (text : str) (sel : TextSelection)
    (preferences : FormattingPreferences) (options : FormattingOptions)
  : TextFormatResult :=
  let target := resolveTargetSelection text sel preferences in
  let selected := slice text (from target) (to target) in
  match tryUnwrapFullLink selected with
  | Some fullyWrapped =>
      let updated := replaceRange text (from target) (to target) fullyWrapped in
      {| text := updated;
         selection := {| from := from target;
                         to := from target + len fullyWrapped |};
         changed := negb (streq updated text);
         change := Some {| cfrom := from target; cto := to target;
                           insert := fullyWrapped |} |}
  | None =>
      match tryUnwrapLinkAroundSelection text target with
      | Some surrounding => surrounding
      | None =>
          let url := default (lit "https://") (linkUrl options) in
          if from target =? to target then
            let label := default (lit "link text") (linkText options) in
            let markdown := linkMarkdown label url in
            let updated := replaceRange text (from target) (to target) markdown in
            {| text := updated;
               selection := {| from := from target + 1;
                               to := from target + 1 + len label |};
               changed := negb (streq updated text);
               change := Some {| cfrom := from target; cto := to target;
                                 insert := markdown |} |}
          else
            let markdown := linkMarkdown selected url in
            let updated := replaceRange text (from target) (to target) markdown in
            {| text := updated;
               selection := {| from := from target + 1;
                               to := from target + 1 + len selected |};
               changed := negb (streq updated text);
               change := Some {| cfrom := from target; cto := to target;
                                 insert := markdown |} |}
      end
  end.

(** The marker a command toggles; [link] has none. *)
Definition markerOf (command : FormatCommand)
    (preferences : FormattingPreferences) : option str :=
  match command with
  | bold => Some (lit "**")
  | italic =>
      Some (match italicDelimiter preferences with
            | underscore => lit "_"
            | asterisk => lit "*"
            end)
  | strikethrough => Some (lit "~~")
  | link => None
  end.

Definition applyCommandToText (text : str) (sel : TextSelection)
    (command : FormatCommand) (preferences : FormattingPreferences)
    (options : FormattingOptions) : TextFormatResult :=
  match command with
  | bold => formatMarker text sel (lit "**") preferences
  | italic =>
      let italicMarker :=
        match italicDelimiter preferences with
        | underscore => lit "_"
        | asterisk => lit "*"
        end in
      formatMarker text sel italicMarker preferences
  | strikethrough => formatMarker text sel (lit "~~") preferences
  | link => formatLink text sel preferences options
  end.

(** ** The multi-range formatting orchestrator *)

Definition MAX_SAFE_INTEGER : Z := 9007199254740991.

(** [Array.prototype.sort] with a comparator: a stable sort, here by
    insertion.  [cmp a b <= 0] keeps [a] before [b]. *)
Fixpoint insertSorted {A} (cmp : A -> A -> Z) (x : A) (l : list A) : list A :=
  match l with
  | [] => [x]
  | y :: l' => if cmp x y <=? 0 then x :: y :: l' else y :: insertSorted cmp x l'
  end.

Definition sortBy {A} (cmp : A -> A -> Z) (l : list A) : list A :=
  foldr (insertSorted cmp) [] l.

(** An element of [order]: a range together with its index in [ranges]. *)
Record OrderEntry := mkEntry { efrom : Z; eto : Z; index : nat }.

(** The comparator of [order]: descending [from], then descending [to]. *)
Definition compareOrder (a b : OrderEntry) : Z :=
  if negb (efrom a =? efrom b) then efrom b - efrom a else eto b - eto a.

(** The comparator of the final sort: [a.from - b.from || a.to - b.to]. *)
Definition compareChange (a b : Change) : Z :=
  if negb (cfrom a - cfrom b =? 0) then cfrom a - cfrom b else cto a - cto b.

(** What the function reads of the editor view. *)
Record EditorState := mkState {
  doc : str;
  selectionRanges : list TextSelection;
  mainIndex : nat
}.

(** The variables of the [for] loop. *)
Record LoopState := mkLoop {
  nextText : str;
  ranges : list TextSelection;
  processedIndices : list nat;
  changes : list Change;
  hasDocumentChange : bool;
  overlapGuard : Z
}.

(** How [applyFormattingToEditor] ends: it returns [false] without a
    dispatch, or the final [ChangeSet.of] rejects a descriptor that does not
    fit the document and throws, or one transaction is dispatched. *)
Inductive Outcome :=
| NoChange
| RangeError
| Dispatched (changeSet : list Change) (nextSelection : list TextSelection)
             (main : nat).

(** The check [ChangeSet.of(changes, length)] makes on every descriptor. *)
Definition validChange (length : Z) (c : Change) : bool :=
  negb ((cfrom c >? cto c) || (cfrom c <? 0) || (cto c >? length)).

Section Orchestrator.

(** [ChangeSet.of([change], length).mapPos(pos, assoc)] belongs to the
    editor library; the orchestrator is modelled over any such map. *)
Variable mapPos : Change -> Z -> Z -> Z -> Z.

Variable command : FormatCommand.
Variable preferences : FormattingPreferences.
Variable options : FormattingOptions.

(** The inner loop over [processedIndices]. *)
Definition remapProcessed (c : Change) (length : Z)
    (rs : list TextSelection) (processed : list nat) : list TextSelection :=
  fold_left
    (fun rs processedIndex =>
       match rs !! processedIndex with
       | Some p =>
           <[processedIndex :=
               {| from := mapPos c length (from p) (-1);
                  to := mapPos c length (to p) 1 |}]> rs
       | None => rs
       end)
    processed rs.

(** One iteration of the loop over [order]. *)
Definition loopStep (st : LoopState) (entry : OrderEntry) : LoopState :=
  match ranges st !! index entry with
  | None => st (* indices are those of [ranges] itself *)
  | Some current =>
      if to current >? overlapGuard st then st
      else
        let beforeText := nextText st in
        let result :=
          applyCommandToText beforeText current command preferences options in
        let ranges1 := <[index entry := selection result]> (ranges st) in
        let guard :=
          Z.min (overlapGuard st)
                (match change result with
                 | Some c => cfrom c
                 | None => from current
                 end) in
        match changed result, change result with
        | true, Some c =>
            {| nextText := text result;
               ranges := remapProcessed c (len beforeText) ranges1
                                        (processedIndices st);
               processedIndices := processedIndices st ++ [index entry];
               changes := changes st ++ [c];
               hasDocumentChange := true;
               overlapGuard := guard |}
        | _, _ =>
            {| nextText := text result;
               ranges := ranges1;
               processedIndices := processedIndices st ++ [index entry];
               changes := changes st;
               hasDocumentChange := hasDocumentChange st;
               overlapGuard := guard |}
        end
  end.

Definition initialLoop (view : EditorState) : LoopState :=
  {| nextText := doc view;
     ranges := selectionRanges view;
     processedIndices := [];
     changes := [];
     hasDocumentChange := false;
     overlapGuard := MAX_SAFE_INTEGER |}.

Definition orderOf (view : EditorState) : list OrderEntry :=
  sortBy compareOrder
         (imap (fun i r => {| efrom := from r; eto := to r; index := i |})
               (selectionRanges view)).

Definition runLoop (view : EditorState) : LoopState :=
  fold_left loopStep (orderOf view) (initialLoop view).

(** The descriptors handed to the final [ChangeSet.of]. *)
Definition sortedChanges (st : LoopState) : list Change :=
  sortBy compareChange (changes st).

Definition applyFormattingToEditor (view : EditorState) : Outcome :=
  let st := runLoop view in
  if negb (hasDocumentChange st) then NoChange
  else if forallb (validChange (len (doc view))) (sortedChanges st)
  then Dispatched (sortedChanges st) (ranges st) (mainIndex view)
  else RangeError.

End Orchestrator.

(** The position map of a change set made of one replacement, as the editor
    library computes it: positions before the replaced range stay, positions
    after it shift by the difference in length, positions inside go to the
    start or to the end of the inserted text according to [assoc]. *)
Definition mapPosSingle (c : Change) (length pos assoc : Z) : Z :=
  if pos <? cfrom c then pos
  else if (pos <? cto c) || ((pos =? cto c) && (assoc <? 0) && (cfrom c =? cto c))
  then if (pos =? cfrom c) || (assoc <? 0) then cfrom c
       else cfrom c + len (insert c)
  else cfrom c + len (insert c) + (pos - cto c).

(** ** The decoration builder: selection overlap *)

Fixpoint isRangeSelected (selectionRanges : list TextSelection)
    (nodeFrom nodeTo : Z) : bool :=
  match selectionRanges with
  | [] => false
  | range :: rest =>
      let cursorPos := from range in
      if (cursorPos >=? nodeFrom) && (cursorPos <=? nodeTo) then true
      else if negb (from range =? to range)
              && ((Z.min (from range) (to range) <? nodeTo)
                  && (Z.max (from range) (to range) >? nodeFrom))
      then true
      else isRangeSelected rest nodeFrom nodeTo
  end.

(** ** The table parser *)

(** White space and line terminators, as [String.prototype.trim] strips. *)
Definition isTrimmed (c : char) : bool :=
  (between 9 13 c || (c =? 32) || (c =? 160) || (c =? 5760)
   || between 8192 8202 c || (c =? 8232) || (c =? 8233) || (c =? 8239)
   || (c =? 8287) || (c =? 12288) || (c =? 65279))%N.

Fixpoint trimStart (s : str) : str :=
  match s with
  | [] => []
  | c :: s' => if isTrimmed c then trimStart s' else s
  end.

Definition trim (s : str) : str := rev (trimStart (rev (trimStart s))).

(** [s.split(sep)] for a separator of one code unit. *)
Fixpoint splitOn (sep : char) (s : str) : list str :=
  match s with
  | [] => [[]]
  | c :: s' =>
      if (c =? sep)%N then [] :: splitOn sep s'
      else match splitOn sep s' with
           | h :: t => (c :: h) :: t
           | [] => [[c]]
           end
  end.

(** [parts.join(sep)] *)
Fixpoint join (sep : str) (parts : list str) : str :=
  match parts with
  | [] => []
  | [p] => p
  | p :: rest => p ++ sep ++ join sep rest
  end.

Inductive Alignment := alignLeft | alignCenter | alignRight.

Record TableModel := mkTable {
  headers : list str;
  rows : list (list str);
  alignments : list Alignment
}.

Definition parseTableRow (line : str) : list str :=
  let trimmed := trim line in
  let trimmed := if startsWith trimmed [PIPE] then sliceFrom trimmed 1 else trimmed in
  let trimmed := if endsWith trimmed [PIPE] then slice trimmed 0 (-1) else trimmed in
  trim <$> splitOn PIPE trimmed.

(** [/^:?-+:?$/.test(cell)]: an optional colon, one or more dashes, an
    optional colon, and nothing else. *)
Definition alignCellOk (cell : str) : bool :=
  let afterColon :=
    match cell with
    | c :: rest => if (c =? COLON)%N then rest else cell
    | [] => cell
    end in
  let dashes := spanWhile (fun c => (c =? DASH)%N) afterColon in
  negb (length dashes =? 0)%nat
  && match drop (length dashes) afterColon with
     | [] => true
     | [c] => (c =? COLON)%N
     | _ => false
     end.

Definition alignmentOf (cell : str) : Alignment :=
  let c := trim cell in
  if startsWith c [COLON] && endsWith c [COLON] then alignCenter
  else if endsWith c [COLON] then alignRight
  else alignLeft.

Definition tableLines (text : str) : list str :=
  filter (fun l => 0 < len (trim l)) (splitOn NEWLINE text).

Definition parseTableText (text : str) : option TableModel :=
  match tableLines text with
  | line0 :: line1 :: rest =>
      let headers := parseTableRow line0 in
      if (length headers =? 0)%nat then None
      else
        let alignRow := parseTableRow line1 in
        if negb (forallb (fun cell => alignCellOk (trim cell)) alignRow) then None
        else Some {| headers := headers;
                     rows := parseTableRow <$> rest;
                     alignments := alignmentOf <$> alignRow |}
  | _ => None
  end.

(** ** The document interface the decoration builder reads

    The document is the editor library's text object.  Its lines are the
    pieces between line feeds; a position counts the line feed as one code
    unit; [lineAt] and [line] throw outside the document ([None]). *)

Record Line := mkLine { lfrom : Z; lto : Z; ltext : str; number : Z }.

(** The lines of a document with their offsets, the first one numbered [n]
    and starting at [start]. *)
Fixpoint linesFrom (ls : list str) (start n : Z) : list Line :=
  match ls with
  | [] => []
  | l :: rest =>
      {| lfrom := start; lto := start + len l; ltext := l; number := n |}
      :: linesFrom rest (start + len l + 1) (n + 1)
  end.

Definition docLines (d : str) : list Line := linesFrom (splitOn NEWLINE d) 0 1.

(** [doc.lines] *)
Definition lineCount (d : str) : Z := Z.of_nat (length (docLines d)).

(** [doc.lineAt(pos)] *)
Definition lineAt (d : str) (pos : Z) : option Line :=
  if (pos <? 0) || (pos >? len d) then None
  else find (fun l => pos <=? lto l) (docLines d).

(** [doc.line(n)] *)
Definition lineNo (d : str) (n : Z) : option Line :=
  if (n <? 1) || (n >? lineCount d) then None
  else docLines d !! Z.to_nat (n - 1).

(** [doc.sliceString(from, to)], which clips its bounds to the document. *)
Definition sliceString (d : str) (a b : Z) : str :=
  let a' := Z.max 0 (Z.min (len d) a) in
  let b' := Z.max a' (Z.min (len d) b) in
  slice d a' b'.

(** ** Frontmatter detection *)

Definition DASHES : str := lit "---".

(** The first line after the opening one whose trimmed text is "---": the
    search of the outer [for] loop of [detectFrontmatter]. *)
Definition closingLine (ls : list Line) : option Line :=
  find (fun l => streq (trim (ltext l)) DASHES) ls.

(** The inner loop: lines strictly between the two fences that are not
    blank and hold a colon. *)
Definition countProps (ls : list Line) (closing : Line) : Z :=
  Z.of_nat
    (length
       (filter (fun l => number l < number closing
                         /\ 0 < len (trim (ltext l))
                         /\ COLON ∈ trim (ltext l))
               ls)).

(** [detectFrontmatter(doc)] as the pair [(end, propCount)]. *)
Definition detectFrontmatter (d : str) : Z * Z :=
  if lineCount d <? 2 then (0, 0)
  else match docLines d with
       | firstLine :: others =>
           if negb (streq (trim (ltext firstLine)) DASHES) then (0, 0)
           else match closingLine others with
                | Some closing => (lto closing, countProps others closing)
                | None => (0, 0)
                end
       | [] => (0, 0)
       end.

(** ** The decoration builder: block end and the Table node *)

(** [blockEnd(doc, from, to)] *)
Definition blockEnd (d : str) (nodeFrom nodeTo : Z) : option Z :=
  let safeTo := Z.min nodeTo (len d) in
  if safeTo >? nodeFrom then
    match lineAt d safeTo with
    | None => None
    | Some line => if lfrom line =? safeTo then Some (safeTo - 1) else Some safeTo
    end
  else Some safeTo.

(** A table widget decoration: the model, and the range it replaces. *)
Record TableDecoration := mkTableDeco {
  widget : TableModel;
  docFrom : Z;
  docTo : Z
}.

(** What entering one Table node adds to [ranges]: the visit throws, or it
    pushes nothing, or it pushes one block widget. *)
Inductive Emitted :=
| Threw
| Nothing
| BlockWidget (deco : TableDecoration).

(** The [enter] callback of [buildDecorations] on a node named "Table",
    from the frontmatter gate to the [return false] of the Table case. *)
Definition enterTable (d : str) (sel : list TextSelection) (fmEnd : Z)
    (nodeFrom nodeTo : Z) : Emitted :=
  if (fmEnd >? 0) && (nodeTo <=? fmEnd) then Nothing
  else if negb (isRangeSelected sel nodeFrom nodeTo) then
    match blockEnd d nodeFrom nodeTo with
    | None => Threw
    | Some stop =>
        match lineAt d nodeFrom, lineAt d stop with
        | Some firstLine, Some lastLine =>
            let text := sliceString d (lfrom firstLine) (lto lastLine) in
            match parseTableText text with
            | Some parsed =>
                BlockWidget {| widget := parsed;
                               docFrom := lfrom firstLine;
                               docTo := lto lastLine |}
            | None => Nothing
            end
        | _, _ => Threw
        end
    end
  else Nothing.


(** ** The table widget editing bridge *)

Definition SPACE : char := 32%N.

(** The rendered grid: the text of the header cells of [thead tr] and of
    the cells of each [tbody tr]. *)
Record Grid := mkGrid {
  thead : list str;
  tbody : list (list str)
}.

(** The live state of one table widget: the rendered grid, the three
    [live*] arrays, the widget's write-back range and the editor buffer. *)
Record WidgetState := mkWidget {
  table : Grid;
  liveHeaders : list str;
  liveRows : list (list str);
  liveAligns : list Alignment;
  sourceFrom : Z;
  sourceTo : Z;
  buffer : str
}.

(** [row[i] || ''] *)
Definition cellOr (row : list str) (i : nat) : str := default [] (row !! i).

Definition pad (s : str) : str := [SPACE] ++ s ++ [SPACE].

Definition sepCell (a : Alignment) : str :=
  match a with
  | alignCenter => lit " :---: "
  | alignRight => lit " ---: "
  | alignLeft => lit " :--- "
  end.

(** The cells the loop [for (i = 0; i < headers.length; i++)] makes of a row. *)
Definition rowCells (headers : list str) (row : list str) : list str :=
  (fun i => pad (cellOr row i)) <$> seq 0 (length headers).

Definition reconstructMarkdown (headers : list str) (rows : list (list str))
    (alignments : list Alignment) : str :=
  let headerLine := [PIPE] ++ join [PIPE] (pad <$> headers) ++ [PIPE] in
  let sepLine := [PIPE] ++ join [PIPE] (sepCell <$> alignments) ++ [PIPE] in
  let rowLines :=
    (fun row => [PIPE] ++ join [PIPE] (rowCells headers row) ++ [PIPE]) <$> rows in
  join [NEWLINE] (headerLine :: sepLine :: rowLines).

(** [view.dispatch({changes: {from, to, insert}})] on the buffer: the
    change set is refused when the range does not fit the document. *)
Definition dispatchChange (buf : str) (c : Change) : option str :=
  if validChange (len buf) c
  then Some (replaceRange buf (cfrom c) (cto c) (insert c))
  else None.

Definition sync (w : WidgetState) : option WidgetState :=
  let newText := reconstructMarkdown (liveHeaders w) (liveRows w) (liveAligns w) in
  let currentText := sliceString (buffer w) (sourceFrom w) (sourceTo w) in
  if negb (streq newText currentText) then
    match dispatchChange (buffer w)
            {| cfrom := sourceFrom w; cto := sourceTo w; insert := newText |} with
    | Some buf =>
        Some {| table := table w;
                liveHeaders := liveHeaders w;
                liveRows := liveRows w;
                liveAligns := liveAligns w;
                sourceFrom := sourceFrom w;
                sourceTo := sourceFrom w + len newText;
                buffer := buf |}
    | None => None
    end
  else Some w.

Definition readDOM (w : WidgetState) : WidgetState :=
  {| table := table w;
     liveHeaders := thead (table w);
     liveRows := tbody (table w);
     liveAligns := liveAligns w;
     sourceFrom := sourceFrom w;
     sourceTo := sourceTo w;
     buffer := buffer w |}.

(** [array.splice(idx, 1)]: a negative index counts from the end, the
    start is clamped, and one element is removed when there is one. *)
Definition splice1 {A} (l : list A) (idx : Z) : list A :=
  let start := relIndex (Z.of_nat (length l)) idx in
  delete (Z.to_nat start) l.

(** [tbody.deleteRow(idx)] and [tr.deleteCell(idx)]: [-1] removes the
    last element, any other index outside the collection throws. *)
Definition domDelete {A} (l : list A) (idx : Z) : option (list A) :=
  if (idx <? -1) || (idx >=? Z.of_nat (length l)) then None
  else if idx =? -1 then Some (take (length l - 1) l)
  else Some (delete (Z.to_nat idx) l).

(** The cells [deleteCell] leaves in every body row; it throws as soon as
    one row throws. *)
Definition domDeleteColumn (body : list (list str)) (idx : Z)
  : option (list (list str)) :=
  mapM (fun tr => domDelete tr idx) body.

(** [addRowDOM(tbody, focusColIdx)] *)
Definition addRowDOM (w : WidgetState) : option WidgetState :=
  let tr := (fun _ => []) <$> seq 0 (length (liveHeaders w)) in
  sync {| table := {| thead := thead (table w);
                      tbody := tbody (table w) ++ [tr] |};
          liveHeaders := liveHeaders w;
          liveRows := liveRows w ++ [(fun _ => []) <$> liveHeaders w];
          liveAligns := liveAligns w;
          sourceFrom := sourceFrom w;
          sourceTo := sourceTo w;
          buffer := buffer w |}.

(** [addColumnDOM()] *)
Definition addColumnDOM (w : WidgetState) : option WidgetState :=
  let w := readDOM w in
  sync {| table := {| thead := thead (table w) ++ [[]];
                      tbody := (fun tr => tr ++ [[]]) <$> tbody (table w) |};
          liveHeaders := liveHeaders w ++ [[]];
          liveRows := (fun r => r ++ [[]]) <$> liveRows w;
          liveAligns := liveAligns w ++ [alignLeft];
          sourceFrom := sourceFrom w;
          sourceTo := sourceTo w;
          buffer := buffer w |}.

(** [deleteRowDOM(rowIdx)] *)
Definition deleteRowDOM (w : WidgetState) (rowIdx : Z) : option WidgetState :=
  let w := readDOM w in
  if (length (liveRows w) <=? 1)%nat then Some w
  else
    match domDelete (tbody (table w)) rowIdx with
    | None => None
    | Some body =>
        sync {| table := {| thead := thead (table w); tbody := body |};
                liveHeaders := liveHeaders w;
                liveRows := splice1 (liveRows w) rowIdx;
                liveAligns := liveAligns w;
                sourceFrom := sourceFrom w;
                sourceTo := sourceTo w;
                buffer := buffer w |}
    end.

(** [deleteColumnDOM(colIdx)] *)
Definition deleteColumnDOM (w : WidgetState) (colIdx : Z) : option WidgetState :=
  let w := readDOM w in
  if (length (liveHeaders w) <=? 2)%nat then Some w
  else
    match domDelete (thead (table w)) colIdx with
    | None => None
    | Some head =>
        match domDeleteColumn (tbody (table w)) colIdx with
        | None => None
        | Some body =>
            sync {| table := {| thead := head; tbody := body |};
                    liveHeaders := splice1 (liveHeaders w) colIdx;
                    liveRows := (fun r => splice1 r colIdx) <$> liveRows w;
                    liveAligns := splice1 (liveAligns w) colIdx;
                    sourceFrom := sourceFrom w;
                    sourceTo := sourceTo w;
                    buffer := buffer w |}
        end
    end.

(** The grid operations of the widget. *)
Inductive GridOp :=
| AddRow
| AddColumn
| DeleteRow (rowIdx : Z)
| DeleteColumn (colIdx : Z).

Definition runOp (op : GridOp) (w : WidgetState) : option WidgetState :=
  match op with
  | AddRow => addRowDOM (readDOM w)
  | AddColumn => addColumnDOM w
  | DeleteRow rowIdx => deleteRowDOM w rowIdx
  | DeleteColumn colIdx => deleteColumnDOM w colIdx
  end.

(** The grid the widget first renders from a table model ([toDOM]): the
    trimmed headers, and for each row one cell per header. *)
Definition renderGrid (m : TableModel) : Grid :=
  {| thead := trim <$> headers m;
     tbody := (fun row => (fun i => trim (cellOr row i))
                            <$> seq 0 (length (headers m)))
              <$> rows m |}.

(** ** Predicates the properties are stated with *)

(** A word character stands at offset [i] of [text]. *)
Definition wordAt (text : str) (i : Z) : Prop :=
  isWordChar (charAt text i) = true.

(** [[f, t)] is a maximal run of word characters of [text]: not empty,
    inside the text, word characters throughout, and no word character
    right before or right after it (the text ends count as such). *)
Definition maximalWordRun (text : str) (f t : Z) : Prop :=
  0 <= f /\ f < t /\ t <= len text
  /\ (forall i, f <= i < t -> wordAt text i)
  /\ ~ wordAt text (f - 1)
  /\ ~ wordAt text t.

(** A selection that lies in a text of length [n]. *)
Definition selIn (n : Z) (s : TextSelection) : Prop :=
  0 <= from s /\ from s <= to s /\ to s <= n.

(** A result of the formatting engine on [old] is well formed: it carries
    an edit descriptor that lies in the old text and produces the new text
    from it, the flag says whether the text differs, and the resulting
    selection lies in the new text. *)
Definition wellFormedResult (old : str) (r : TextFormatResult) : Prop :=
  (exists c, change r = Some c
             /\ 0 <= cfrom c /\ cfrom c <= cto c /\ cto c <= len old
             /\ text r = replaceRange old (cfrom c) (cto c) (insert c))
  /\ changed r = negb (streq (text r) old)
  /\ selIn (len (text r)) (selection r).

(** The overlap test as the code computes it for one selection range. *)
Definition overlapsNode (nodeFrom nodeTo : Z) (r : TextSelection) : Prop :=
  (nodeFrom <= from r /\ from r <= nodeTo)
  \/ (from r <> to r
      /\ Z.min (from r) (to r) < nodeTo
      /\ Z.max (from r) (to r) > nodeFrom).

(** The overlap test as the specification words it: a caret inside the
    closed interval, or a non-empty range meeting the half-open one. *)
Definition specOverlapsNode (nodeFrom nodeTo : Z) (r : TextSelection) : Prop :=
  (from r = to r /\ nodeFrom <= from r /\ from r <= nodeTo)
  \/ (from r <> to r
      /\ Z.min (from r) (to r) < nodeTo
      /\ Z.max (from r) (to r) > nodeFrom).

(** Sorted descriptors do not overlap: each one ends where the next one
    starts, or before. *)
Fixpoint nonOverlapping (cs : list Change) : bool :=
  match cs with
  | a :: (b :: _) as rest => (cto a <=? cfrom b) && nonOverlapping rest
  | _ => true
  end.

(** The least start offset of the edits committed so far. *)
Definition leastStart (cs : list Change) : Z :=
  fold_left (fun g c => Z.min g (cfrom c)) cs MAX_SAFE_INTEGER.



(** The minimum shape of the grid: one data row, two columns. *)
Definition minShape (w : WidgetState) : Prop :=
  (1 <= length (tbody (table w)))%nat /\ (2 <= length (thead (table w)))%nat.

(** The marker toggle wraps the selection [[f, t)] of [text]: the selected
    text is not wrapped by the marker and the marker does not surround it. *)
Definition wrapsFirst (text : str) (f t : Z) (marker : str) : Prop :=
  isWrappedSelection (slice text f t) marker = false
  /\ hasSurroundingMarkers text f t marker = false.

(** The code unit before [f] and the one at [t] are not the marker. *)
Definition markerFreeNeighbours (text : str) (f t : Z) (marker : str) : Prop :=
  charIs (charAt text (f - 1)) marker = false
  /\ charIs (charAt text t) marker = false.

(** The command applied to a text and a selection, and then once more to
    the text and the selection this gives. *)
Definition applyTwice (original : str) (sel : TextSelection)
    (command : FormatCommand) (preferences : FormattingPreferences)
    (options : FormattingOptions) : TextFormatResult :=
  let first := applyCommandToText original sel command preferences options in
  applyCommandToText (text first) (selection first) command preferences options.

(** The second toggle undoes the first one: either the first one wraps and,
    for a marker of one code unit, no marker stands right outside the
    selection; or the first one unwraps, leaves a non-empty selection, and
    the second one wraps that selection. *)
Definition restoredBySecondToggle (original : str) (sel : TextSelection)
    (marker : str) (preferences : FormattingPreferences) : Prop :=
  let n := normalizeSelection sel (len original) in
  let first := formatMarker original sel marker preferences in
  (wrapsFirst original (from n) (to n) marker
   /\ (len marker = 1 -> markerFreeNeighbours original (from n) (to n) marker))
  \/ (~ wrapsFirst original (from n) (to n) marker
      /\ from (selection first) < to (selection first)
      /\ wrapsFirst (text first) (from (selection first)) (to (selection first))
                    marker).

(** What every iteration keeps: the guard is the least start offset of
    the edits committed so far, and a range that was not processed is the
    one the selection set gave. *)
Definition loopInvariant (view : EditorState) (st : LoopState) : Prop :=
  overlapGuard st = leastStart (changes st)
  /\ forall i, i ∉ processedIndices st ->
               ranges st !! i = selectionRanges view !! i.



(** One edit descriptor applied to a text. *)
Definition applyChange (t : str) (c : Change) : str :=
  replaceRange t (cfrom c) (cto c) (insert c).

(** The document a combined mutation produces from descriptors that are
    sorted and do not overlap: every descriptor names a range of the
    document before the mutation; the text between two descriptors is kept.
    [pos] is the offset up to which the document has been consumed. *)
Fixpoint applyChangeSet (d : str) (pos : Z) (cs : list Change) : str :=
  match cs with
  | [] => sliceFrom d pos
  | c :: rest => slice d pos (cfrom c) ++ insert c ++ applyChangeSet d (cto c) rest
  end.

(** The order of [order]: a later entry starts at a smaller offset, or at
    the same offset and ends at or before. *)
Definition processedBefore (a b : OrderEntry) : Prop :=
  efrom b < efrom a \/ (efrom b = efrom a /\ eto b <= eto a).

(** An edit lies to the left of an edit committed before it: it ends at or
    before the start of the earlier one and starts strictly before it. *)
Definition leftOfEarlier (earlier later : Change) : Prop :=
  cto later <= cfrom earlier /\ cfrom later < cfrom earlier.

(** The ranges of a view are offsets of its document. *)
Definition rangesInDoc (view : EditorState) : Prop :=
  Forall (selIn (len (doc view))) (selectionRanges view)
  /\ len (doc view) <= MAX_SAFE_INTEGER.

(** The facts every iteration keeps. *)
Definition loopFacts (view : EditorState) (st : LoopState) : Prop :=
  length (ranges st) = length (selectionRanges view)
  /\ nextText st = fold_left applyChange (changes st) (doc view)
  /\ Forall (fun c => 0 <= cfrom c /\ cfrom c <= cto c) (changes st)
  /\ (hasDocumentChange st = true <-> changes st <> [])
  /\ match changes st with
     | first :: _ => cto first <= len (doc view)
     | [] => nextText st = doc view
     end.

(** The starts of the committed edits never increase. *)
Definition startsDescend (cs : list Change) : Prop :=
  StronglySorted (fun earlier later => cfrom later <= cfrom earlier) cs.

(** Sorted descriptors, each ending at or before the next one starts. *)
Definition separated (cs : list Change) : Prop :=
  StronglySorted (fun a b => cto a <= cfrom b) cs.

(** A cell that can stand in a table line: it holds no pipe and no line
    feed. *)
Definition cleanCell (cell : str) : Prop := (PIPE ∉ cell) /\ (NEWLINE ∉ cell).

(** The live arrays mirror the rendered grid. *)
Definition mirrored (w : WidgetState) : Prop :=
  liveHeaders w = thead (table w) /\ liveRows w = tbody (table w).

(** Every body row of a grid has as many cells as there are header cells. *)
Definition rectangular (g : Grid) : Prop :=
  Forall (fun tr => length tr = length (thead g)) (tbody g).

(** ** The decoration builder: the lines of a block *)

(** How a loop of the source ends in the model: the model ran out of fuel,
    the source threw, or the loop completed with a value. *)
Inductive Run (A : Type) :=
| OutOfFuel
| Thrown
| Done (a : A).
Arguments OutOfFuel {A}.
Arguments Thrown {A}.
Arguments Done {A} a.

(** The [while] loop of [forEachBlockLine]: the lines handed to the
    callback, in order. *)
Fixpoint blockLinesLoop (d : str) (fuel : nat) (pos stop : Z) : Run (list Line) :=
  match fuel with
  | O => OutOfFuel
  | S fuel' =>
      if pos <=? stop then
        match lineAt d pos with
        | None => Thrown
        | Some line =>
            if (lto line >=? stop) || (number line >=? lineCount d)
            then Done [line]
            else match blockLinesLoop d fuel' (lto line + 1) stop with
                 | Done visited => Done (line :: visited)
                 | other => other
                 end
        end
      else Done []
  end.

(** [forEachBlockLine(doc, from, to, callback)], as the list of lines the
    callback is called on. *)
Definition forEachBlockLine (d : str) (nodeFrom nodeTo : Z) : Run (list Line) :=
  match blockEnd d nodeFrom nodeTo with
  | None => Thrown
  | Some stop => blockLinesLoop d (S (length (docLines d))) nodeFrom stop
  end.

(** The number of code units that the pieces [ls] take in a document, each
    with the line feed that follows it. *)
Definition span (ls : list str) : Z := foldr (fun t acc => len t + 1 + acc) 0 ls.

(** The pieces [ls] written out, each with the line feed that follows it. *)
Definition flat (ls : list str) : str := concat ((fun t => t ++ [NEWLINE]) <$> ls).

(** The line made of the piece [t] that comes after the pieces [before]. *)
Definition lineAfter (before : list str) (t : str) : Line :=
  {| lfrom := span before;
     lto := span before + len t;
     ltext := t;
     number := 1 + Z.of_nat (length before) |}.

(** ** The decoration builder: what entering a node pushes *)

Definition BACKTICK : char := 96%N.   (* ` *)
Definition TILDE : char := 126%N.     (* ~ *)
Definition HASH : char := 35%N.       (* # *)
Definition QUOTE_MARK : char := 62%N. (* > *)
Definition BANG : char := 33%N.       (* ! *)
Definition LOWER_X : char := 120%N.   (* x *)

(** The mark decorations [strongMark], [emMark], [strikeMark], [codeMark]
    and the line decorations [blockquoteLine], [codeBlockLine],
    [headingLineDecos] and the class "cm-frontmatter-line". *)
Inductive MarkClass := strongMark | emMark | strikeMark | codeMark.

Inductive LineClass :=
| blockquoteLine | codeBlockLine | headingLine (level : Z) | frontmatterLine.

(** One entry of [ranges]: a decoration with the range it is given. *)
Inductive Deco :=
| hiddenReplace (a b : Z)
| markRange (cls : MarkClass) (a b : Z)
| linkMark (url : str) (a b : Z)
| wikiMark (target : str) (a b : Z)
| lineRange (cls : LineClass) (a : Z)
| checkboxWidget (isChecked : bool) (pos : Z) (a b : Z)
| hrWidget (a b : Z)
| imageWidget (src alt : str) (a b : Z)
| codeBlockWidget (code language : str) (a b : Z)
| frontmatterWidget (propertyCount : Z) (a b : Z)
| tableWidget (deco : TableDecoration).

(** What one call of [enter] leaves: the ranges it pushed, in order, and
    whether the iteration descends into the node's children ([false] is the
    source's [return false]). *)
Record Entered := mkEntered { pushed : list Deco; descend : bool }.

Definition skipNode : Entered := {| pushed := []; descend := false |}.

Definition TRIPLE : str := [42%N; 42%N; 42%N].   (* "***" *)

Definition enterStrongEmphasis (d : str) (sel : list TextSelection)
    (nodeFrom nodeTo : Z) : Entered :=
  let selected := isRangeSelected sel nodeFrom nodeTo in
  let text := sliceString d nodeFrom (Z.min (nodeFrom + 4) nodeTo) in
  let markerLen := if startsWith text TRIPLE then 3 else 2 in
  let cFrom := nodeFrom + markerLen in
  let cTo := nodeTo - markerLen in
  if cFrom >=? cTo then skipNode
  else {| pushed :=
            [markRange strongMark cFrom cTo]
            ++ (if markerLen =? 3 then [markRange emMark cFrom cTo] else [])
            ++ (if negb selected
                then [hiddenReplace nodeFrom cFrom; hiddenReplace cTo nodeTo]
                else []);
          descend := negb (markerLen =? 3) |}.

Definition enterEmphasis (d : str) (sel : list TextSelection)
    (nodeFrom nodeTo : Z) : Entered :=
  let selected := isRangeSelected sel nodeFrom nodeTo in
  let text := sliceString d nodeFrom (Z.min (nodeFrom + 4) nodeTo) in
  let isTriple := startsWith text TRIPLE in
  let markerLen := if isTriple then 3 else 1 in
  let cFrom := nodeFrom + markerLen in
  let cTo := nodeTo - markerLen in
  if cFrom >=? cTo then skipNode
  else {| pushed :=
            [markRange emMark cFrom cTo]
            ++ (if isTriple then [markRange strongMark cFrom cTo] else [])
            ++ (if negb selected
                then [hiddenReplace nodeFrom cFrom; hiddenReplace cTo nodeTo]
                else []);
          descend := negb isTriple |}.

Definition enterStrikethrough (sel : list TextSelection)
    (nodeFrom nodeTo : Z) : Entered :=
  let selected := isRangeSelected sel nodeFrom nodeTo in
  let cFrom := nodeFrom + 2 in
  let cTo := nodeTo - 2 in
  if cFrom >=? cTo then skipNode
  else {| pushed :=
            [markRange strikeMark cFrom cTo]
            ++ (if negb selected
                then [hiddenReplace nodeFrom cFrom; hiddenReplace cTo nodeTo]
                else []);
          descend := false |}.

Definition isBacktick (c : char) : bool := (c =? BACKTICK)%N.

(** [text.match(/^`+/)?.[0].length || 1]: the length of the run of
    backticks the text starts with, 1 when there is none. *)
Definition openLen (text : str) : Z :=
  let run := len (spanWhile isBacktick text) in
  if run =? 0 then 1 else run.

(** [text.match(/`+$/)?.[0].length || 1]: the first match of the pattern
    starts where the run of backticks that ends the text starts. *)
Definition closeLen (text : str) : Z :=
  let run := len (spanWhile isBacktick (rev text)) in
  if run =? 0 then 1 else run.

Definition enterInlineCode (d : str) (sel : list TextSelection)
    (nodeFrom nodeTo : Z) : Entered :=
  let selected := isRangeSelected sel nodeFrom nodeTo in
  let text := sliceString d nodeFrom nodeTo in
  let cFrom := nodeFrom + openLen text in
  let cTo := nodeTo - closeLen text in
  if cFrom >=? cTo then skipNode
  else {| pushed :=
            [markRange codeMark cFrom cTo]
            ++ (if negb selected
                then [hiddenReplace nodeFrom cFrom; hiddenReplace cTo nodeTo]
                else []);
          descend := false |}.

Definition enterLink (d : str) (sel : list TextSelection)
    (nodeFrom nodeTo : Z) : Entered :=
  let selected := isRangeSelected sel nodeFrom nodeTo in
  let text := sliceString d nodeFrom nodeTo in
  let bracketClose := indexOf text [RBRACKET; LPAREN] 0 in
  if bracketClose >? 0 then
    let url := slice text (bracketClose + 2) (-1) in
    {| pushed :=
         [linkMark url (nodeFrom + 1) (nodeFrom + bracketClose)]
         ++ (if negb selected
             then [hiddenReplace nodeFrom (nodeFrom + 1);
                   hiddenReplace (nodeFrom + bracketClose) nodeTo]
             else []);
       descend := true |}
  else {| pushed := []; descend := true |}.

Definition enterTaskMarker (d : str) (sel : list TextSelection)
    (nodeFrom nodeTo : Z) : Entered :=
  let selected := isRangeSelected sel nodeFrom nodeTo in
  if negb selected then
    let text := sliceString d nodeFrom nodeTo in
    let isChecked := bool_decide (LOWER_X ∈ text) in
    {| pushed := [checkboxWidget isChecked nodeFrom nodeFrom nodeTo];
       descend := false |}
  else skipNode.

Definition enterEscape (sel : list TextSelection) (nodeFrom nodeTo : Z) : Entered :=
  if negb (isRangeSelected sel nodeFrom nodeTo)
  then {| pushed := [hiddenReplace nodeFrom (nodeFrom + 1)]; descend := false |}
  else skipNode.

(** [lineText.match(/^(#{1,6})\s/)], as the length of the match: one to six
    hashes and the white space character after them. A run of seven or more
    hashes has no match, since what follows six of them is a hash. *)
Definition hashMatch (lineText : str) : option Z :=
  let hashes := spanWhile (fun c => (c =? HASH)%N) lineText in
  if (1 <=? len hashes) && (len hashes <=? 6) then
    match drop (length hashes) lineText with
    | c :: _ => if isTrimmed c then Some (len hashes + 1) else None
    | [] => None
    end
  else None.

(** The heading case, for the node name whose entry of [headingLineDecos]
    has the class of [level]. *)
Definition enterHeading (level : Z) (d : str) (sel : list TextSelection)
    (nodeFrom nodeTo : Z) : Run Entered :=
  match lineAt d nodeFrom with
  | None => Thrown
  | Some line =>
      Done {| pushed :=
                [lineRange (headingLine level) (lfrom line)]
                ++ (if negb (isRangeSelected sel nodeFrom nodeTo) then
                      match hashMatch (ltext line) with
                      | Some matched =>
                          [hiddenReplace (lfrom line) (lfrom line + matched)]
                      | None => []
                      end
                    else []);
              descend := true |}
  end.

Definition enterHorizontalRule (d : str) (sel : list TextSelection)
    (nodeFrom nodeTo : Z) : Run Entered :=
  if negb (isRangeSelected sel nodeFrom nodeTo) then
    match lineAt d nodeFrom with
    | None => Thrown
    | Some line =>
        Done {| pushed := [hrWidget (lfrom line) (lto line)]; descend := false |}
    end
  else Done skipNode.

(** The match of the Image case, as the pair of its groups (alt, src): an
    exclamation mark, in brackets any run without a closing bracket, in
    parentheses a run of at least one character without a closing
    parenthesis, and the end of the text. Each class excludes the character
    that has to follow it, so the greedy match is the only one. *)
Definition imageMatch (text : str) : option (str * str) :=
  match text with
  | bang :: lb :: rest =>
      if (bang =? BANG)%N && (lb =? LBRACKET)%N then
        let alt := spanWhile (fun c => negb (c =? RBRACKET)%N) rest in
        match drop (length alt) rest with
        | rb :: lp :: rest2 =>
            if (rb =? RBRACKET)%N && (lp =? LPAREN)%N then
              let src := spanWhile (fun c => negb (c =? RPAREN)%N) rest2 in
              match drop (length src) rest2 with
              | [rp] =>
                  if (rp =? RPAREN)%N && negb (length src =? 0)%nat
                  then Some (alt, src) else None
              | _ => None
              end
            else None
        | _ => None
        end
      else None
  | _ => None
  end.

Definition enterImage (d : str) (sel : list TextSelection)
    (nodeFrom nodeTo : Z) : Run Entered :=
  if negb (isRangeSelected sel nodeFrom nodeTo) then
    match imageMatch (sliceString d nodeFrom nodeTo) with
    | Some (alt, src) =>
        match lineAt d nodeFrom with
        | None => Thrown
        | Some line =>
            if (lfrom line =? nodeFrom)
               || streq (trim (sliceString d (lfrom line) nodeFrom)) []
            then Done {| pushed := [imageWidget src alt (lfrom line) (lto line)];
                         descend := false |}
            else Done skipNode
        end
    | None => Done skipNode
    end
  else Done skipNode.

(** [lastLine.text.match(/^[`~]{3,}\s*$/)]: three or more fence
    characters, then only white space. *)
Definition closesFence (lineText : str) : bool :=
  let fence := spanWhile (fun c => (c =? BACKTICK)%N || (c =? TILDE)%N) lineText in
  (3 <=? len fence) && forallb isTrimmed (drop (length fence) lineText).

(** [firstLine.text.match(/^`{3,}(\S+)?/)?.[1] || ''] *)
Definition fenceLanguage (lineText : str) : str :=
  let ticks := spanWhile isBacktick lineText in
  if 3 <=? len ticks
  then spanWhile (fun c => negb (isTrimmed c)) (drop (length ticks) lineText)
  else [].

Definition enterFencedCode (d : str) (sel : list TextSelection)
    (nodeFrom nodeTo : Z) : Run Entered :=
  if negb (isRangeSelected sel nodeFrom nodeTo) then
    match blockEnd d nodeFrom nodeTo with
    | None => Thrown
    | Some stop =>
        match lineAt d nodeFrom, lineAt d stop with
        | Some firstLine, Some lastLine =>
            if negb (closesFence (ltext lastLine)) then Done skipNode
            else
              let language := fenceLanguage (ltext firstLine) in
              let codeStart := lto firstLine + 1 in
              let codeEnd := if lfrom lastLine >? 0 then lfrom lastLine - 1
                             else lfrom lastLine in
              let code := if codeStart <=? codeEnd
                          then sliceString d codeStart codeEnd else [] in
              Done {| pushed := [codeBlockWidget code language
                                   (lfrom firstLine) (lto lastLine)];
                      descend := false |}
        | _, _ => Thrown
        end
    end
  else
    match forEachBlockLine d nodeFrom nodeTo with
    | Done visited =>
        Done {| pushed := (fun line => lineRange codeBlockLine (lfrom line))
                          <$> visited;
                descend := false |}
    | Thrown => Thrown
    | OutOfFuel => OutOfFuel
    end.

(** [line.text.match(/^>\s?/)], as the length of the match. *)
Definition quoteMatch (lineText : str) : option Z :=
  match lineText with
  | c :: rest =>
      if (c =? QUOTE_MARK)%N then
        match rest with
        | c2 :: _ => if isTrimmed c2 then Some 2 else Some 1
        | [] => Some 1
        end
      else None
  | [] => None
  end.

(** The callback of the Blockquote case on one line. *)
Definition quoteLine (selected : bool) (line : Line) : list Deco :=
  [lineRange blockquoteLine (lfrom line)]
  ++ (if negb selected then
        match quoteMatch (ltext line) with
        | Some matched => [hiddenReplace (lfrom line) (lfrom line + matched)]
        | None => []
        end
      else []).

Definition enterBlockquote (d : str) (sel : list TextSelection)
    (nodeFrom nodeTo : Z) : Run Entered :=
  let selected := isRangeSelected sel nodeFrom nodeTo in
  match forEachBlockLine d nodeFrom nodeTo with
  | Done visited =>
      Done {| pushed := concat (quoteLine selected <$> visited); descend := true |}
  | Thrown => Thrown
  | OutOfFuel => OutOfFuel
  end.

(** The node names that the [enter] callback tests, but for "ListMark",
    whose case reads the syntax tree around the node; [Unstyled] is a name
    that no test of the callback matches. *)
Inductive NodeName :=
| Table | Image | HorizontalRule | FencedCode
| ATXHeading1 | ATXHeading2 | ATXHeading3 | ATXHeading4 | ATXHeading5 | ATXHeading6
| StrongEmphasis | Emphasis | Strikethrough | InlineCode | Link
| TaskMarker | Escape | Blockquote | HTMLBlock | HTMLTag
| Unstyled.

(** [headingLineDecos[name]] *)
Definition headingLineDecos (name : NodeName) : option Z :=
  match name with
  | ATXHeading1 => Some 1
  | ATXHeading2 => Some 2
  | ATXHeading3 => Some 3
  | ATXHeading4 => Some 4
  | ATXHeading5 => Some 5
  | ATXHeading6 => Some 6
  | _ => None
  end.

(** The [enter] callback of [buildDecorations] on a node of one of these
    names, with [fmEnd] the end of the frontmatter found in the document. *)
Definition enter (fmEnd : Z) (name : NodeName) (d : str)
    (sel : list TextSelection) (nodeFrom nodeTo : Z) : Run Entered :=
  if (fmEnd >? 0) && (nodeTo <=? fmEnd) then Done skipNode
  else
    match name with
    | Table =>
        match enterTable d sel fmEnd nodeFrom nodeTo with
        | Threw => Thrown
        | Nothing => Done skipNode
        | BlockWidget deco =>
            Done {| pushed := [tableWidget deco]; descend := false |}
        end
    | Image => enterImage d sel nodeFrom nodeTo
    | HorizontalRule => enterHorizontalRule d sel nodeFrom nodeTo
    | FencedCode => enterFencedCode d sel nodeFrom nodeTo
    | StrongEmphasis => Done (enterStrongEmphasis d sel nodeFrom nodeTo)
    | Emphasis => Done (enterEmphasis d sel nodeFrom nodeTo)
    | Strikethrough => Done (enterStrikethrough sel nodeFrom nodeTo)
    | InlineCode => Done (enterInlineCode d sel nodeFrom nodeTo)
    | Link => Done (enterLink d sel nodeFrom nodeTo)
    | TaskMarker => Done (enterTaskMarker d sel nodeFrom nodeTo)
    | Escape => Done (enterEscape sel nodeFrom nodeTo)
    | Blockquote => enterBlockquote d sel nodeFrom nodeTo
    | HTMLBlock | HTMLTag => Done skipNode
    | Unstyled => Done {| pushed := []; descend := true |}
    | heading =>
        match headingLineDecos heading with
        | Some level => enterHeading level d sel nodeFrom nodeTo
        | None => Done {| pushed := []; descend := true |}
        end
    end.

(** A decoration that puts something else in the place of the source text:
    a hidden range or a widget. *)
Definition conceals (x : Deco) : bool :=
  match x with
  | markRange _ _ _ | linkMark _ _ _ | wikiMark _ _ _ | lineRange _ _ => false
  | _ => true
  end.

(** The range a decoration is given; a line decoration sits at a point. *)
Definition extent (x : Deco) : Z * Z :=
  match x with
  | hiddenReplace a b | markRange _ a b | linkMark _ a b | wikiMark _ a b
  | checkboxWidget _ _ a b | hrWidget a b | imageWidget _ _ a b
  | codeBlockWidget _ _ a b | frontmatterWidget _ a b => (a, b)
  | lineRange _ a => (a, a)
  | tableWidget deco => (docFrom deco, docTo deco)
  end.

(** The [for] loop of the frontmatter step: a line class for each of the
    lines [i], [i + 1], ... ([count] of them). *)
Fixpoint frontmatterLines (d : str) (count : nat) (i : Z) : Run (list Deco) :=
  match count with
  | O => Done []
  | S count' =>
      match lineNo d i with
      | None => Thrown
      | Some line =>
          match frontmatterLines d count' (i + 1) with
          | Done rest => Done (lineRange frontmatterLine (lfrom line) :: rest)
          | other => other
          end
      end
  end.

(** The frontmatter step of [buildDecorations]: what it pushes. *)
Definition frontmatterRanges (d : str) (sel : list TextSelection) : Run (list Deco) :=
  let fm := detectFrontmatter d in
  if fst fm >? 0 then
    match lineNo d 1 with
    | None => Thrown
    | Some line1 =>
        let fmFrom := lfrom line1 in
        if negb (isRangeSelected sel fmFrom (fst fm))
        then Done [frontmatterWidget (snd fm) fmFrom (fst fm)]
        else match lineAt d (fst fm) with
             | None => Thrown
             | Some endLine =>
                 frontmatterLines d (Z.to_nat (number endLine)) 1
             end
    end
  else Done [].

(** The change that the mousedown listener of a [CheckboxWidget]
    dispatches, applied to the document. *)
Definition checkboxClick (isChecked : bool) (pos : Z) (buf : str) : option str :=
  dispatchChange buf {| cfrom := pos + 1;
                        cto := pos + 2;
                        insert := if isChecked then [SPACE] else [LOWER_X] |}.

(** ** The decoration builder: wiki links *)

(** One match of [wikiRegex]: its index, group 1, group 2 (when it took
    part in the match) and the length of the match. *)
Record WikiMatch := mkWikiMatch {
  windex : Z;
  wtarget : str;
  walias : option str;
  wlength : Z
}.

(** The match of [wikiRegex] that starts at the start of [s]: two opening
    brackets, a run without closing bracket or pipe (group 1), optionally a
    pipe and a run without closing bracket (group 2), two closing brackets.
    Each run is the longest one: a shorter one is followed by a character of
    the run, where the pattern wants a pipe or a closing bracket. *)
Definition wikiMatchAt (s : str) : option (str * option str * Z) :=
  match s with
  | b1 :: b2 :: rest =>
      if (b1 =? LBRACKET)%N && (b2 =? LBRACKET)%N then
        let target :=
          spanWhile (fun c => negb (c =? RBRACKET)%N && negb (c =? PIPE)%N) rest in
        if (length target =? 0)%nat then None
        else
          match drop (length target) rest with
          | c1 :: after =>
              if (c1 =? PIPE)%N then
                let alias := spanWhile (fun c => negb (c =? RBRACKET)%N) after in
                if (length alias =? 0)%nat then None
                else
                  match drop (length alias) after with
                  | r1 :: r2 :: _ =>
                      if (r1 =? RBRACKET)%N && (r2 =? RBRACKET)%N
                      then Some (target, Some alias,
                                 2 + len target + 1 + len alias + 2)
                      else None
                  | _ => None
                  end
              else
                match after with
                | r2 :: _ =>
                    if (c1 =? RBRACKET)%N && (r2 =? RBRACKET)%N
                    then Some (target, None, 2 + len target + 2)
                    else None
                | [] => None
                end
          | [] => None
          end
      else None
  | _ => None
  end.

(** The loop over [wikiRegex.exec(fullText)]: the matches from left to
    right, each search starting where the match before ended. [skip] counts
    the code units of the last match that are still to be passed, [pos] is
    the index of the start of [s] in the document. *)
Fixpoint wikiScan (skip : nat) (s : str) (pos : Z) : list WikiMatch :=
  match s with
  | [] => []
  | _ :: s' =>
      match skip with
      | S skip' => wikiScan skip' s' (pos + 1)
      | O =>
          match wikiMatchAt s with
          | Some (target, alias, n) =>
              {| windex := pos; wtarget := target; walias := alias; wlength := n |}
              :: wikiScan (Z.to_nat n - 1) s' (pos + 1)
          | None => wikiScan O s' (pos + 1)
          end
      end
  end.

(** The body of the loop for one match. *)
Definition wikiRanges (fmEnd : Z) (sel : list TextSelection) (m : WikiMatch)
    : list Deco :=
  let absFrom := windex m in
  let absTo := absFrom + wlength m in
  if (fmEnd >? 0) && (absFrom <? fmEnd) then []
  else
    let selected := isRangeSelected sel absFrom absTo in
    match walias m with
    | Some _ =>
        let pipePos := absFrom + 2 + len (wtarget m) in
        [wikiMark (wtarget m) (pipePos + 1) (absTo - 2)]
        ++ (if negb selected
            then [hiddenReplace absFrom (pipePos + 1);
                  hiddenReplace (absTo - 2) absTo]
            else [])
    | None =>
        [wikiMark (wtarget m) (absFrom + 2) (absTo - 2)]
        ++ (if negb selected
            then [hiddenReplace absFrom (absFrom + 2);
                  hiddenReplace (absTo - 2) absTo]
            else [])
    end.

(** The wiki link step of [buildDecorations]: what it pushes. *)
Definition wikiLinkRanges (fmEnd : Z) (d : str) (sel : list TextSelection)
    : list Deco :=
  concat (wikiRanges fmEnd sel <$> wikiScan 0 d 0).

(** The text of a wiki link with the given groups. *)
Definition wikiText (target : str) (alias : option str) : str :=
  [LBRACKET; LBRACKET] ++ target
  ++ match alias with Some a => PIPE :: a | None => [] end
  ++ [RBRACKET; RBRACKET].

(** The text a wiki link shows: its alias, or its target without one. *)
Definition wikiLabel (m : WikiMatch) : str :=
  match walias m with Some a => a | None => wtarget m end.

(* ===================================================================== *)
(** * Part II: properties *)
(* ===================================================================== *)

(** ** Lengths and slices *)

Lemma len_nonneg (s : str) : 0 <= len s.
Proof. unfold len. lia. Qed.

Lemma len_app (a b : str) : len (a ++ b) = len a + len b.
Proof. unfold len. rewrite length_app. lia. Qed.

Lemma len_nil : len [] = 0.
Proof. reflexivity. Qed.

Lemma relIndex_id (l i : Z) : 0 <= i <= l -> relIndex l i = i.
Proof. intros H. unfold relIndex. destruct (i <? 0) eqn:E; lia. Qed.

Lemma slice_take_drop (s : str) (a b : Z) :
  0 <= a -> a <= b -> b <= len s ->
  slice s a b = take (Z.to_nat (b - a)) (drop (Z.to_nat a) s).
Proof.
  intros Ha Hab Hb. unfold slice.
  rewrite !relIndex_id by lia. reflexivity.
Qed.

Lemma len_slice (s : str) (a b : Z) :
  0 <= a -> a <= b -> b <= len s -> len (slice s a b) = b - a.
Proof.
  intros Ha Hab Hb. rewrite slice_take_drop by lia.
  unfold len in *. rewrite length_take, length_drop. lia.
Qed.

Lemma slice_prefix (p q : str) : slice (p ++ q) 0 (len p) = p.
Proof.
  rewrite slice_take_drop; [| lia | apply len_nonneg | rewrite len_app; pose proof (len_nonneg q); lia].
  unfold len. simpl. rewrite Z.sub_0_r, Nat2Z.id.
  apply take_app_length.
Qed.

Lemma sliceFrom_suffix (p q : str) : sliceFrom (p ++ q) (len p) = q.
Proof.
  unfold sliceFrom.
  pose proof (len_nonneg p). pose proof (len_nonneg q).
  rewrite slice_take_drop; rewrite ?len_app; try lia.
  unfold len. rewrite Nat2Z.id, drop_app_length.
  apply take_ge. lia.
Qed.

Lemma slice_mid (p s q : str) :
  slice (p ++ s ++ q) (len p) (len p + len s) = s.
Proof.
  pose proof (len_nonneg p). pose proof (len_nonneg s). pose proof (len_nonneg q).
  rewrite slice_take_drop; rewrite ?len_app; try lia.
  unfold len. rewrite Nat2Z.id, drop_app_length.
  replace (Z.to_nat _) with (length s) by lia.
  apply take_app_length.
Qed.

(** A text splits at any two offsets in order. *)
Lemma text_split (s : str) (a b : Z) :
  0 <= a -> a <= b -> b <= len s ->
  s = slice s 0 a ++ slice s a b ++ sliceFrom s b.
Proof.
  intros Ha Hab Hb. unfold sliceFrom.
  pose proof (len_nonneg s).
  rewrite !slice_take_drop by lia.
  unfold len in *. simpl. rewrite !Z.sub_0_r.
  rewrite <- (take_drop (Z.to_nat a) s) at 1. f_equal.
  rewrite <- (take_drop (Z.to_nat (b - a)) (drop (Z.to_nat a) s)) at 1. f_equal.
  rewrite drop_drop.
  replace (Z.to_nat a + Z.to_nat (b - a))%nat with (Z.to_nat b) by lia.
  symmetry. apply take_ge. rewrite length_drop. lia.
Qed.

Lemma replaceRange_split (p s q r : str) :
  replaceRange (p ++ s ++ q) (len p) (len p + len s) r = p ++ r ++ q.
Proof.
  unfold replaceRange.
  rewrite slice_prefix.
  replace (len p + len s) with (len (p ++ s)) by apply len_app.
  rewrite (app_assoc p s q), sliceFrom_suffix. reflexivity.
Qed.

Lemma len_replaceRange (s r : str) (a b : Z) :
  0 <= a -> a <= b -> b <= len s ->
  len (replaceRange s a b r) = len s - (b - a) + len r.
Proof.
  intros Ha Hab Hb. unfold replaceRange, sliceFrom.
  pose proof (len_nonneg s).
  rewrite !len_app, !len_slice by lia. lia.
Qed.

(** ** Normalization of the selection *)

Lemma clamp_bounds (v n : Z) : 0 <= n -> 0 <= clamp v 0 n <= n.
Proof. unfold clamp. lia. Qed.

Lemma clamp_id (v n : Z) : 0 <= v <= n -> clamp v 0 n = v.
Proof. unfold clamp. lia. Qed.

Lemma normalizeSelection_in (sel : TextSelection) (n : Z) :
  0 <= n -> selIn n (normalizeSelection sel n).
Proof.
  intros Hn. unfold normalizeSelection, selIn.
  pose proof (clamp_bounds (from sel) n Hn).
  pose proof (clamp_bounds (to sel) n Hn).
  destruct (_ <=? _) eqn:E; simpl; lia.
Qed.

Lemma normalizeSelection_id (sel : TextSelection) (n : Z) :
  selIn n sel -> normalizeSelection sel n = sel.
Proof.
  intros (H0 & H1 & H2). unfold normalizeSelection.
  rewrite !clamp_id by lia.
  destruct (_ <=? _) eqn:E; [| lia]. destruct sel; reflexivity.
Qed.

Lemma normalizeSelection_idem (sel : TextSelection) (n : Z) :
  0 <= n ->
  normalizeSelection (normalizeSelection sel n) n = normalizeSelection sel n.
Proof. intros Hn. apply normalizeSelection_id, normalizeSelection_in, Hn. Qed.

Lemma normalizeSelection_swap (a b n : Z) :
  normalizeSelection {| from := a; to := b |} n
  = normalizeSelection {| from := b; to := a |} n.
Proof.
  unfold normalizeSelection; simpl.
  destruct (clamp a 0 n <=? clamp b 0 n) eqn:E1;
    destruct (clamp b 0 n <=? clamp a 0 n) eqn:E2;
    try reflexivity; f_equal; lia.
Qed.

Lemma resolveTargetSelection_normalized (text : str) (sel : TextSelection)
    (preferences : FormattingPreferences) :
  resolveTargetSelection text (normalizeSelection sel (len text)) preferences
  = resolveTargetSelection text sel preferences.
Proof.
  unfold resolveTargetSelection.
  rewrite normalizeSelection_idem by apply len_nonneg. reflexivity.
Qed.

(** The engine reads the selection only through its normalization. *)
Lemma applyCommandToText_normalized (text : str) (sel : TextSelection)
    (command : FormatCommand) (preferences : FormattingPreferences)
    (options : FormattingOptions) :
  applyCommandToText text (normalizeSelection sel (len text)) command
                     preferences options
  = applyCommandToText text sel command preferences options.
Proof.
  destruct command; unfold applyCommandToText, formatMarker, formatLink;
    rewrite resolveTargetSelection_normalized; reflexivity.
Qed.

(** C10: the formatting engine gives the same result (text, selection,
    changed flag and edit descriptor) for a selection and for the selection
    with its two end points swapped. *)
Theorem applyCommandToText_swap_endpoints (text : str) (a b : Z)
    (command : FormatCommand) (preferences : FormattingPreferences)
    (options : FormattingOptions) :
  applyCommandToText text {| from := a; to := b |} command preferences options
  = applyCommandToText text {| from := b; to := a |} command preferences options.
Proof.
  rewrite <- (applyCommandToText_normalized text {| from := a; to := b |}).
  rewrite <- (applyCommandToText_normalized text {| from := b; to := a |}).
  rewrite (normalizeSelection_swap a b). reflexivity.
Qed.

(** ** Selection overlap *)

Lemma overlapsNode_dec (nodeFrom nodeTo : Z) (r : TextSelection) :
  ((from r >=? nodeFrom) && (from r <=? nodeTo)
   || negb (from r =? to r)
      && ((Z.min (from r) (to r) <? nodeTo)
          && (Z.max (from r) (to r) >? nodeFrom))) = true
  <-> overlapsNode nodeFrom nodeTo r.
Proof.
  unfold overlapsNode.
  rewrite orb_true_iff, !andb_true_iff, negb_true_iff.
  rewrite Z.geb_le, Z.leb_le, Z.eqb_neq, Z.ltb_lt, Z.gtb_lt. lia.
Qed.

(** C5, as the code has it: the overlap test holds exactly when some
    selection range has its start offset in the closed interval [from, to]
    of the node, empty or not, or is not empty and meets the half-open
    interval [from, to). *)
Theorem isRangeSelected_iff (sel : list TextSelection) (nodeFrom nodeTo : Z) :
  isRangeSelected sel nodeFrom nodeTo = true
  <-> Exists (overlapsNode nodeFrom nodeTo) sel.
Proof.
  induction sel as [| r rest IH]; simpl.
  - split; [discriminate | intros H; inversion H].
  - rewrite Exists_cons, <- IH, <- overlapsNode_dec.
    destruct ((from r >=? nodeFrom) && (from r <=? nodeTo)); simpl.
    + tauto.
    + destruct (negb (from r =? to r)
                && ((Z.min (from r) (to r) <? nodeTo)
                    && (Z.max (from r) (to r) >? nodeFrom))); simpl.
      * tauto.
      * split; [auto | intros [H | H]; [discriminate | exact H]].
Qed.

(** C5, the reading of the specification refuted: a non-empty range that
    starts at the end offset of the node, and meets nothing of [from, to),
    counts as overlapping. *)
Lemma isRangeSelected_range_starting_at_to :
  isRangeSelected [{| from := 5; to := 7 |}] 2 5 = true
  /\ ~ Exists (specOverlapsNode 2 5) [{| from := 5; to := 7 |}].
Proof.
  split; [reflexivity |].
  intros H. apply Exists_cons in H as [H | H]; [| inversion H].
  unfold specOverlapsNode in H; simpl in H. lia.
Qed.

(** ** Word expansion of a caret *)

Lemma charAt_before (s : str) (i : Z) : i < 0 -> charAt s i = None.
Proof. intros H. unfold charAt. destruct (i <? 0) eqn:E; [reflexivity | lia]. Qed.

Lemma charAt_after (s : str) (i : Z) : len s <= i -> charAt s i = None.
Proof.
  intros H. unfold charAt, len in *. destruct (i <? 0); [reflexivity |].
  apply lookup_ge_None. lia.
Qed.

Lemma not_wordAt_before (s : str) (i : Z) : i < 0 -> ~ wordAt s i.
Proof. intros H. unfold wordAt. rewrite charAt_before by exact H. discriminate. Qed.

Lemma not_wordAt_after (s : str) (i : Z) : len s <= i -> ~ wordAt s i.
Proof. intros H. unfold wordAt. rewrite charAt_after by exact H. discriminate. Qed.

Lemma scanLeft_spec (text : str) (fuel : nat) (f : Z) :
  0 <= f <= Z.of_nat fuel ->
  let r := scanLeft text fuel f in
  0 <= r <= f
  /\ (forall i, r <= i < f -> wordAt text i)
  /\ ~ wordAt text (r - 1).
Proof.
  revert f. induction fuel as [| k IH]; intros f Hf; simpl.
  - repeat split; try lia. apply not_wordAt_before. lia.
  - destruct (f >? 0) eqn:Epos; simpl.
    + destruct (isWordChar (charAt text (f - 1))) eqn:Ew.
      * destruct (IH (f - 1)) as (Hr & Hall & Hstop); [lia |].
        repeat split; try lia; [| exact Hstop].
        intros i Hi. destruct (Z.eq_dec i (f - 1)) as [-> | Hne].
        -- exact Ew.
        -- apply Hall. lia.
      * repeat split; try lia. unfold wordAt. rewrite Ew. discriminate.
    + repeat split; try lia. apply not_wordAt_before. lia.
Qed.

Lemma scanRight_spec (text : str) (fuel : nat) (t : Z) :
  0 <= t <= len text -> len text - t <= Z.of_nat fuel ->
  let r := scanRight text fuel t in
  t <= r <= len text
  /\ (forall i, t <= i < r -> wordAt text i)
  /\ ~ wordAt text r.
Proof.
  revert t. induction fuel as [| k IH]; intros t Ht Hfuel; simpl.
  - repeat split; try lia. apply not_wordAt_after. lia.
  - destruct (t <? len text) eqn:Elt; simpl.
    + destruct (isWordChar (charAt text t)) eqn:Ew.
      * destruct (IH (t + 1)) as (Hr & Hall & Hstop); [lia | lia |].
        repeat split; try lia; [| exact Hstop].
        intros i Hi. destruct (Z.eq_dec i t) as [-> | Hne].
        -- exact Ew.
        -- apply Hall. lia.
      * repeat split; try lia. unfold wordAt. rewrite Ew. discriminate.
    + repeat split; try lia. apply not_wordAt_after. lia.
Qed.

Lemma wordPivot_Some (text : str) (pos pivot : Z) :
  wordPivot text pos = Some pivot ->
  0 <= pivot < len text /\ wordAt text pivot
  /\ (pivot = clamp pos 0 (len text) \/ pivot = clamp pos 0 (len text) - 1).
Proof.
  unfold wordPivot. pose proof (clamp_bounds pos (len text) (len_nonneg text)).
  set (p := clamp pos 0 (len text)) in *.
  destruct (p <? len text) eqn:E1; simpl.
  - destruct (isWordChar (charAt text p)) eqn:W1.
    + intros [= <-]. repeat split; try lia; auto.
    + destruct (p >? 0) eqn:E2; simpl; [| discriminate].
      destruct (isWordChar (charAt text (p - 1))) eqn:W2; [| discriminate].
      intros [= <-]. repeat split; try lia; auto.
  - destruct (p >? 0) eqn:E2; simpl; [| discriminate].
    destruct (isWordChar (charAt text (p - 1))) eqn:W2; [| discriminate].
    intros [= <-]. repeat split; try lia; auto.
Qed.

Lemma wordPivot_None (text : str) (pos : Z) :
  wordPivot text pos = None ->
  isWordChar (charAt text (clamp pos 0 (len text))) = false
  /\ isWordChar (charAt text (clamp pos 0 (len text) - 1)) = false.
Proof.
  unfold wordPivot. pose proof (clamp_bounds pos (len text) (len_nonneg text)).
  set (p := clamp pos 0 (len text)) in *.
  destruct (p <? len text) eqn:E1; simpl.
  - destruct (isWordChar (charAt text p)) eqn:W1; [discriminate |].
    destruct (p >? 0) eqn:E2; simpl.
    + destruct (isWordChar (charAt text (p - 1))) eqn:W2; [discriminate | auto].
    + intros _. split; [reflexivity |]. rewrite charAt_before by lia. reflexivity.
  - rewrite (charAt_after text p) by lia.
    destruct (p >? 0) eqn:E2; simpl.
    + destruct (isWordChar (charAt text (p - 1))) eqn:W2; [discriminate | auto].
    + intros _. split; [reflexivity |]. rewrite charAt_before by lia. reflexivity.
Qed.

(** The word found around a position is a maximal run of word characters
    that contains the position or ends at it. *)
Lemma expandSelectionToWord_Some (text : str) (pos : Z) (w : TextSelection) :
  expandSelectionToWord text pos = Some w ->
  maximalWordRun text (from w) (to w)
  /\ from w <= clamp pos 0 (len text) <= to w.
Proof.
  unfold expandSelectionToWord.
  destruct (len text =? 0); [discriminate |].
  destruct (wordPivot text pos) as [pivot |] eqn:Ep; [| discriminate].
  intros [= <-]; simpl.
  apply wordPivot_Some in Ep as (Hpv & Hw & Hnear).
  destruct (scanLeft_spec text (Z.to_nat pivot) pivot) as (HL & HLall & HLstop);
    [lia |].
  destruct (scanRight_spec text (Z.to_nat (len text - (pivot + 1))) (pivot + 1))
    as (HR & HRall & HRstop); [lia | lia |].
  unfold maximalWordRun. repeat split; try lia; auto.
  intros i Hi.
  destruct (Z.lt_trichotomy i pivot) as [Hlt | [-> | Hgt]].
  - apply HLall. lia.
  - exact Hw.
  - apply HRall. lia.
Qed.

Lemma expandSelectionToWord_None (text : str) (pos : Z) :
  expandSelectionToWord text pos = None ->
  isWordChar (charAt text (clamp pos 0 (len text))) = false
  /\ isWordChar (charAt text (clamp pos 0 (len text) - 1)) = false.
Proof.
  unfold expandSelectionToWord.
  destruct (len text =? 0) eqn:E0.
  - intros _. apply Z.eqb_eq in E0.
    pose proof (clamp_bounds pos (len text) (len_nonneg text)).
    split.
    + rewrite charAt_after by lia. reflexivity.
    + rewrite charAt_before by lia. reflexivity.
  - destruct (wordPivot text pos) eqn:Ep; [discriminate |].
    intros _. apply wordPivot_None, Ep.
Qed.

Lemma normalizeSelection_caret (sel : TextSelection) (n : Z) :
  from sel = to sel ->
  normalizeSelection sel n
  = {| from := clamp (from sel) 0 n; to := clamp (from sel) 0 n |}.
Proof.
  intros H. unfold normalizeSelection. rewrite <- H.
  destruct (_ <=? _); reflexivity.
Qed.

(** C6: for a caret, the "markers" policy keeps the (clamped) caret; the
    "word" policy keeps it when no word character stands at the caret or
    right before it, and otherwise turns it into a maximal run of word
    characters, which contains the caret or ends at it. *)
Theorem resolveTargetSelection_caret (text : str) (sel : TextSelection)
    (preferences : FormattingPreferences) :
  from sel = to sel ->
  let p := clamp (from sel) 0 (len text) in
  let target := resolveTargetSelection text sel preferences in
  match emptySelectionBehavior preferences with
  | markers => target = {| from := p; to := p |}
  | word =>
      if isWordChar (charAt text p) || isWordChar (charAt text (p - 1))
      then maximalWordRun text (from target) (to target)
           /\ from target <= p <= to target
      else target = {| from := p; to := p |}
  end.
Proof.
  intros Hcaret p target. subst target. unfold resolveTargetSelection.
  rewrite (normalizeSelection_caret sel (len text) Hcaret). fold p.
  unfold isEmptySel; simpl. rewrite Z.eqb_refl; simpl.
  destruct (emptySelectionBehavior preferences); [| reflexivity].
  pose proof (clamp_bounds (from sel) (len text) (len_nonneg text)) as Hp.
  fold p in Hp.
  assert (Hpp : clamp p 0 (len text) = p) by (apply clamp_id; lia).
  destruct (expandSelectionToWord text p) as [w |] eqn:Ew; simpl.
  - apply expandSelectionToWord_Some in Ew as (Hrun & Hin).
    rewrite Hpp in Hin.
    destruct (isWordChar (charAt text p) || isWordChar (charAt text (p - 1)))
      eqn:Eadj; [auto |].
    exfalso. apply orb_false_iff in Eadj as (E1 & E2).
    destruct Hrun as (H0 & Hlt & Hlen & Hall & _ & _).
    destruct (Z.eq_dec p (to w)) as [Heq | Hne].
    + specialize (Hall (p - 1)). unfold wordAt in Hall.
      rewrite E2 in Hall. discriminate Hall. lia.
    + specialize (Hall p). unfold wordAt in Hall.
      rewrite E1 in Hall. discriminate Hall. lia.
  - apply expandSelectionToWord_None in Ew as (E1 & E2).
    rewrite Hpp in E1, E2. rewrite E1, E2. reflexivity.
Qed.

Lemma resolveTargetSelection_caret_witness :
  let text := lit "A paragraph with text" in
  let target := resolveTargetSelection text {| from := 4; to := 4 |}
                                       (mkPrefs word underscore) in
  maximalWordRun text (from target) (to target)
  /\ from target <= 4 <= to target.
Proof.
  exact (resolveTargetSelection_caret (lit "A paragraph with text")
           {| from := 4; to := 4 |} (mkPrefs word underscore) eq_refl).
Defined.

(** ** The engine returns a well-formed result *)

Lemma resolveTargetSelection_in (text : str) (sel : TextSelection)
    (preferences : FormattingPreferences) :
  selIn (len text) (resolveTargetSelection text sel preferences).
Proof.
  unfold resolveTargetSelection.
  pose proof (normalizeSelection_in sel (len text) (len_nonneg text)) as Hn.
  destruct (negb _); [exact Hn |].
  destruct (emptySelectionBehavior preferences); [| exact Hn].
  destruct (expandSelectionToWord _ _) as [w |] eqn:Ew; simpl; [| exact Hn].
  apply expandSelectionToWord_Some in Ew as ((H0 & H1 & H2 & _) & _).
  unfold selIn. lia.
Qed.

Lemma startsWith_length (s p : str) :
  startsWith s p = true -> len p <= len s.
Proof.
  unfold startsWith. intros H. apply bool_decide_eq_true in H.
  apply (f_equal length) in H. rewrite length_take in H. unfold len. lia.
Qed.

Lemma indexOfAux_bounds (p s : str) (i : Z) :
  indexOfAux p s i = -1
  \/ (i <= indexOfAux p s i /\ indexOfAux p s i - i + len p <= len s).
Proof.
  revert i. induction s as [| c s' IH]; intros i; simpl.
  - destruct (startsWith [] p) eqn:E; [| left; reflexivity].
    right. apply startsWith_length in E. lia.
  - destruct (startsWith (c :: s') p) eqn:E.
    + right. apply startsWith_length in E. lia.
    + destruct (IH (i + 1)) as [H | H]; [left; exact H | right].
      unfold len in *. simpl length. lia.
Qed.

Lemma indexOf_bounds (s p : str) (pos : Z) :
  indexOf s p pos = -1
  \/ (Z.min (Z.max pos 0) (len s) <= indexOf s p pos
      /\ indexOf s p pos + len p <= len s).
Proof.
  unfold indexOf. set (k := Z.min (Z.max pos 0) (len s)).
  destruct (indexOfAux_bounds p (drop (Z.to_nat k) s) k) as [H | H];
    [left; exact H | right].
  pose proof (len_nonneg s). unfold len in *. rewrite length_drop in H. lia.
Qed.

(** Unfolds the goal into its arithmetic: the descriptor, the flag and the
    bounds of the resulting selection. *)
Ltac wf_result :=
  unfold wellFormedResult, selIn; simpl;
  split; [eexists; split; [reflexivity |]; simpl; repeat split; try lia
         | split; [reflexivity |]].

Lemma formatMarker_wf (text : str) (sel : TextSelection) (marker : str)
    (preferences : FormattingPreferences) :
  wellFormedResult text (formatMarker text sel marker preferences).
Proof.
  unfold formatMarker.
  pose proof (resolveTargetSelection_in text sel preferences) as (H0 & H1 & H2).
  set (target := resolveTargetSelection text sel preferences) in *.
  pose proof (len_nonneg marker) as Hm.
  pose proof (len_nonneg text) as Ht.
  assert (Hsel : len (slice text (from target) (to target))
                 = to target - from target) by (apply len_slice; lia).
  destruct (from target =? to target) eqn:Ecaret.
  - wf_result. rewrite len_replaceRange, len_app by lia. lia.
  - destruct (isWrappedSelection _ marker) eqn:Ewrap.
    + wf_result. rewrite len_replaceRange by lia.
      pose proof (len_nonneg
        (slice (slice text (from target) (to target)) (len marker)
               (len (slice text (from target) (to target)) - len marker))).
      lia.
    + destruct (hasSurroundingMarkers _ _ _ marker) eqn:Esur.
      * unfold hasSurroundingMarkers in Esur.
        destruct ((from target <? len marker)
                  || (to target + len marker >? len text)) eqn:Eb;
          [discriminate |].
        apply orb_false_iff in Eb as (Eb1 & Eb2).
        wf_result. rewrite len_replaceRange by lia. lia.
      * wf_result. rewrite len_replaceRange, !len_app by lia. lia.
Qed.

Lemma tryUnwrapLinkAroundSelection_wf (text : str) (sel : TextSelection)
    (r : TextFormatResult) :
  selIn (len text) sel ->
  tryUnwrapLinkAroundSelection text sel = Some r ->
  wellFormedResult text r.
Proof.
  intros (H0 & H1 & H2). unfold tryUnwrapLinkAroundSelection.
  destruct ((from sel =? 0) || _) eqn:E0; [discriminate |].
  apply orb_false_iff in E0 as (E0 & _).
  destruct (negb (indexOf text [RBRACKET; LPAREN] (to sel) =? to sel)) eqn:E1;
    [discriminate |].
  apply negb_false_iff, Z.eqb_eq in E1. rewrite E1.
  destruct (indexOf text [RPAREN] (to sel + 2) =? -1) eqn:E2; [discriminate |].
  intros [= <-].
  destruct (indexOf_bounds text [RPAREN] (to sel + 2)) as [Hb | Hb]; [lia |].
  set (urlEnd := indexOf text [RPAREN] (to sel + 2)) in *.
  change (len [RPAREN]) with 1 in Hb.
  pose proof (len_nonneg (slice text (from sel) (to sel))).
  wf_result. rewrite len_replaceRange by lia. lia.
Qed.

Lemma len_linkMarkdown (label url : str) :
  len (linkMarkdown label url) = len label + len url + 4.
Proof.
  unfold linkMarkdown, len. rewrite !length_app. simpl. lia.
Qed.

Lemma formatLink_wf (text : str) (sel : TextSelection)
    (preferences : FormattingPreferences) (options : FormattingOptions) :
  wellFormedResult text (formatLink text sel preferences options).
Proof.
  unfold formatLink.
  pose proof (resolveTargetSelection_in text sel preferences) as Hin.
  pose proof Hin as (H0 & H1 & H2).
  set (target := resolveTargetSelection text sel preferences) in *.
  pose proof (len_nonneg text) as Ht.
  destruct (tryUnwrapFullLink _) as [fullyWrapped |].
  - pose proof (len_nonneg fullyWrapped).
    wf_result. rewrite len_replaceRange by lia. lia.
  - destruct (tryUnwrapLinkAroundSelection text target) as [r |] eqn:Esur.
    + eapply tryUnwrapLinkAroundSelection_wf; eauto.
    + destruct (from target =? to target).
      * pose proof (len_nonneg (default (lit "link text") (linkText options))).
        pose proof (len_nonneg (default (lit "https://") (linkUrl options))).
        wf_result. rewrite len_replaceRange by lia.
        rewrite len_linkMarkdown. lia.
      * pose proof (len_nonneg (slice text (from target) (to target))).
        pose proof (len_nonneg (default (lit "https://") (linkUrl options))).
        wf_result. rewrite len_replaceRange by lia.
        rewrite len_linkMarkdown. lia.
Qed.

Lemma applyCommandToText_wf (text : str) (sel : TextSelection)
    (command : FormatCommand) (preferences : FormattingPreferences)
    (options : FormattingOptions) :
  wellFormedResult text (applyCommandToText text sel command preferences options).
Proof.
  destruct command; simpl; auto using formatMarker_wf, formatLink_wf.
Qed.


(** ** Toggling a marker twice *)

Lemma charAt_app_l (p q : str) (i : Z) :
  i < len p -> charAt (p ++ q) i = charAt p i.
Proof.
  intros H. unfold charAt, len in *. destruct (i <? 0) eqn:E; [reflexivity |].
  apply lookup_app_l. lia.
Qed.

Lemma charAt_app_r (p q : str) (i : Z) :
  len p <= i -> charAt (p ++ q) i = charAt q (i - len p).
Proof.
  intros H. pose proof (len_nonneg p) as Hp. unfold charAt, len in *.
  destruct (i <? 0) eqn:E; [lia |].
  destruct (i - Z.of_nat (length p) <? 0) eqn:E'; [lia |].
  rewrite lookup_app_r by lia. f_equal. lia.
Qed.

Lemma slice_split (s : str) (a b c : Z) :
  0 <= a -> a <= b -> b <= c -> c <= len s ->
  slice s a c = slice s a b ++ slice s b c.
Proof.
  intros Ha Hab Hbc Hc. rewrite !slice_take_drop by lia.
  replace (Z.to_nat b) with (Z.to_nat a + Z.to_nat (b - a))%nat by lia.
  rewrite <- drop_drop, take_take_drop. f_equal. lia.
Qed.

Lemma resolveTargetSelection_nonempty (text : str) (sel : TextSelection)
    (preferences : FormattingPreferences) :
  selIn (len text) sel -> from sel < to sel ->
  resolveTargetSelection text sel preferences = sel.
Proof.
  intros Hin Hlt. unfold resolveTargetSelection, isEmptySel.
  rewrite normalizeSelection_id by exact Hin.
  destruct (from sel =? to sel) eqn:E; [lia | reflexivity].
Qed.

Lemma len_pos_of_ne_nil (s : str) : s <> [] -> 0 < len s.
Proof. destruct s; [congruence | unfold len; simpl; lia]. Qed.

(** The three branches of [formatMarker] on a non-empty selection, with the
    text cut at the selection. *)
Lemma formatMarker_parts (p s q marker : str)
    (preferences : FormattingPreferences) :
  s <> [] ->
  formatMarker (p ++ s ++ q) {| from := len p; to := len p + len s |}
               marker preferences
  = if isWrappedSelection s marker then
      let inner := slice s (len marker) (len s - len marker) in
      {| text := p ++ inner ++ q;
         selection := {| from := len p; to := len p + len inner |};
         changed := negb (streq (p ++ inner ++ q) (p ++ s ++ q));
         change := Some {| cfrom := len p; cto := len p + len s;
                           insert := inner |} |}
    else if hasSurroundingMarkers (p ++ s ++ q) (len p) (len p + len s) marker
    then
      let start := len p - len marker in
      let stop := len p + len s + len marker in
      let updated := replaceRange (p ++ s ++ q) start stop s in
      {| text := updated;
         selection := {| from := start; to := start + len s |};
         changed := negb (streq updated (p ++ s ++ q));
         change := Some {| cfrom := start; cto := stop; insert := s |} |}
    else
      let wrapped := marker ++ s ++ marker in
      {| text := p ++ wrapped ++ q;
         selection := {| from := len p + len marker;
                         to := len p + len s + len marker |};
         changed := negb (streq (p ++ wrapped ++ q) (p ++ s ++ q));
         change := Some {| cfrom := len p; cto := len p + len s;
                           insert := wrapped |} |}.
Proof.
  intros Hs. apply len_pos_of_ne_nil in Hs.
  pose proof (len_nonneg p) as Hp. pose proof (len_nonneg q) as Hq.
  unfold formatMarker.
  rewrite resolveTargetSelection_nonempty;
    [| unfold selIn; simpl; rewrite !len_app; lia | simpl; lia].
  simpl from; simpl to.
  destruct (len p =? len p + len s) eqn:E; [lia |].
  rewrite slice_mid, !replaceRange_split.
  destruct (isWrappedSelection s marker); [reflexivity |].
  destruct (hasSurroundingMarkers _ _ _ _); reflexivity.
Qed.

(** When the marker stands on both sides of the selection, the surrounding
    test depends on the two code units further out only, and on these only
    for a marker of one code unit. *)
Lemma hasSurroundingMarkers_parts (p s q marker : str) :
  let text := (p ++ marker) ++ s ++ (marker ++ q) in
  hasSurroundingMarkers text (len (p ++ marker)) (len (p ++ marker) + len s)
                        marker
  = negb ((len marker =? 1)
          && (charIs (charAt text (len p - 1)) marker
              || charIs (charAt text (len (p ++ marker) + len s + len marker))
                        marker)).
Proof.
  intros text. unfold hasSurroundingMarkers.
  pose proof (len_nonneg p). pose proof (len_nonneg s).
  pose proof (len_nonneg q). pose proof (len_nonneg marker).
  assert (Hlen : len text = len p + len marker + len s + len marker + len q).
  { unfold text. rewrite !len_app. lia. }
  rewrite len_app in *.
  destruct ((len p + len marker <? len marker)
            || (len p + len marker + len s + len marker >? len text)) eqn:Eb.
  { apply orb_true_iff in Eb as [Eb | Eb]; lia. }
  replace (len p + len marker - len marker) with (len p) by lia.
  assert (Hbefore : slice text (len p) (len p + len marker) = marker).
  { unfold text. rewrite <- !app_assoc. apply slice_mid. }
  assert (Hafter : slice text (len p + len marker + len s)
                         (len p + len marker + len s + len marker) = marker).
  { unfold text.
    replace (len p + len marker + len s) with (len ((p ++ marker) ++ s))
      by (rewrite !len_app; lia).
    rewrite (app_assoc (p ++ marker) s (marker ++ q)). apply slice_mid. }
  rewrite Hbefore, Hafter. unfold streq at 1 2.
  rewrite !bool_decide_eq_true_2 by reflexivity. simpl.
  destruct ((len marker =? 1) && _); reflexivity.
Qed.

(** When the surrounding test holds, the marker does stand on both sides. *)
Lemma hasSurroundingMarkers_true (text : str) (f t : Z) (marker : str) :
  0 <= f -> f <= t -> t <= len text ->
  hasSurroundingMarkers text f t marker = true ->
  len marker <= f /\ t + len marker <= len text
  /\ slice text 0 f = slice text 0 (f - len marker) ++ marker
  /\ sliceFrom text t = marker ++ sliceFrom text (t + len marker).
Proof.
  intros H0 H1 H2. unfold hasSurroundingMarkers.
  pose proof (len_nonneg marker) as Hm.
  destruct ((f <? len marker) || (t + len marker >? len text)) eqn:Eb;
    [discriminate |].
  apply orb_false_iff in Eb as (Eb1 & Eb2).
  destruct (negb (streq _ marker) || negb (streq _ marker)) eqn:Es;
    [discriminate |].
  apply orb_false_iff in Es as (Es1 & Es2).
  apply negb_false_iff, bool_decide_eq_true in Es1, Es2.
  intros _. repeat split; try lia.
  - rewrite (slice_split text 0 (f - len marker) f) by lia. rewrite Es1.
    reflexivity.
  - unfold sliceFrom.
    rewrite (slice_split text t (t + len marker) (len text)) by lia.
    rewrite Es2. reflexivity.
Qed.

(** A wrapped selection is the marker, an inner text, and the marker. *)
Lemma isWrappedSelection_true (s marker : str) :
  isWrappedSelection s marker = true ->
  s = marker ++ slice s (len marker) (len s - len marker) ++ marker.
Proof.
  unfold isWrappedSelection. pose proof (len_nonneg marker) as Hm.
  destruct (len s <? len marker * 2) eqn:El; [discriminate |].
  destruct (negb (startsWith s marker) || negb (endsWith s marker)) eqn:Ew;
    [discriminate |].
  apply orb_false_iff in Ew as (Ew1 & Ew2).
  apply negb_false_iff in Ew1, Ew2.
  unfold startsWith in Ew1. apply bool_decide_eq_true in Ew1.
  unfold endsWith in Ew2. apply andb_true_iff in Ew2 as (_ & Ew2).
  apply bool_decide_eq_true in Ew2.
  intros _.
  rewrite (text_split s (len marker) (len s - len marker)) at 1 by lia.
  f_equal; [| f_equal].
  - rewrite slice_take_drop by lia. unfold len. simpl.
    rewrite Z.sub_0_r, Nat2Z.id. exact Ew1.
  - unfold sliceFrom. rewrite slice_take_drop by lia.
    rewrite <- Ew2 at 3. unfold len in *.
    replace (Z.to_nat (Z.of_nat (length s) - Z.of_nat (length marker)))
      with (length s - length marker)%nat by lia.
    apply take_ge. rewrite length_drop. lia.
Qed.

Lemma charAt_suffix (a q : str) (k : Z) :
  0 <= k -> charAt (a ++ q) (len a + k) = charAt q k.
Proof.
  intros Hk. pose proof (len_nonneg a).
  rewrite charAt_app_r by lia. f_equal. lia.
Qed.

(** Wrapping, then toggling the wrapped selection again. *)
Lemma formatMarker_wrap_then_unwrap (p s q marker : str)
    (preferences : FormattingPreferences) :
  s <> [] ->
  isWrappedSelection s marker = false ->
  (len marker = 1 ->
   markerFreeNeighbours (p ++ s ++ q) (len p) (len p + len s) marker) ->
  text (formatMarker (p ++ (marker ++ s ++ marker) ++ q)
          {| from := len p + len marker; to := len p + len s + len marker |}
          marker preferences)
  = p ++ s ++ q.
Proof.
  intros Hs Hw Hn.
  pose proof (len_nonneg p). pose proof (len_nonneg s).
  pose proof (len_nonneg marker).
  replace (p ++ (marker ++ s ++ marker) ++ q)
    with ((p ++ marker) ++ s ++ (marker ++ q))
    by (rewrite <- !app_assoc; reflexivity).
  replace (len p + len marker) with (len (p ++ marker)) by apply len_app.
  replace (len p + len s + len marker) with (len (p ++ marker) + len s)
    by (rewrite len_app; lia).
  rewrite formatMarker_parts by exact Hs. rewrite Hw.
  rewrite hasSurroundingMarkers_parts.
  assert (Hfree : (len marker =? 1)
            && (charIs (charAt ((p ++ marker) ++ s ++ marker ++ q) (len p - 1))
                       marker
                || charIs (charAt ((p ++ marker) ++ s ++ marker ++ q)
                                  (len (p ++ marker) + len s + len marker))
                          marker) = false).
  { destruct (len marker =? 1) eqn:E1; [| reflexivity]. simpl.
    apply Z.eqb_eq in E1. destruct (Hn E1) as (Hb & Ha).
    apply orb_false_iff. split.
    - rewrite <- Hb. f_equal.
      rewrite <- !app_assoc. rewrite !(charAt_app_l p) by lia. reflexivity.
    - rewrite <- Ha. f_equal.
      replace ((p ++ marker) ++ s ++ marker ++ q)
        with (((p ++ marker) ++ s ++ marker) ++ q)
        by (rewrite <- !app_assoc; reflexivity).
      replace (len (p ++ marker) + len s + len marker)
        with (len ((p ++ marker) ++ s ++ marker) + 0)
        by (rewrite !len_app; lia).
      rewrite charAt_suffix by lia.
      replace (p ++ s ++ q) with ((p ++ s) ++ q)
        by (rewrite <- !app_assoc; reflexivity).
      replace (len p + len s) with (len (p ++ s) + 0) by (rewrite len_app; lia).
      rewrite charAt_suffix by lia. reflexivity. }
  rewrite Hfree. simpl.
  replace ((p ++ marker) ++ s ++ marker ++ q)
    with (p ++ (marker ++ s ++ marker) ++ q)
    by (rewrite <- !app_assoc; reflexivity).
  replace (len (p ++ marker) - len marker) with (len p)
    by (rewrite len_app; lia).
  replace (len (p ++ marker) + len s + len marker)
    with (len p + len (marker ++ s ++ marker))
    by (rewrite !len_app; lia).
  apply replaceRange_split.
Qed.

Lemma formatMarker_round_trip_parts (p s q marker : str)
    (preferences : FormattingPreferences) :
  s <> [] ->
  (wrapsFirst (p ++ s ++ q) (len p) (len p + len s) marker
   /\ (len marker = 1 ->
       markerFreeNeighbours (p ++ s ++ q) (len p) (len p + len s) marker))
  \/ (~ wrapsFirst (p ++ s ++ q) (len p) (len p + len s) marker
      /\ from (selection (formatMarker (p ++ s ++ q)
                 {| from := len p; to := len p + len s |} marker preferences))
         < to (selection (formatMarker (p ++ s ++ q)
                 {| from := len p; to := len p + len s |} marker preferences))
      /\ wrapsFirst
           (text (formatMarker (p ++ s ++ q)
                    {| from := len p; to := len p + len s |} marker preferences))
           (from (selection (formatMarker (p ++ s ++ q)
                    {| from := len p; to := len p + len s |} marker preferences)))
           (to (selection (formatMarker (p ++ s ++ q)
                    {| from := len p; to := len p + len s |} marker preferences)))
           marker) ->
  text (formatMarker
          (text (formatMarker (p ++ s ++ q)
                   {| from := len p; to := len p + len s |} marker preferences))
          (selection (formatMarker (p ++ s ++ q)
                   {| from := len p; to := len p + len s |} marker preferences))
          marker preferences)
  = p ++ s ++ q.
Proof.
  intros Hs. rewrite formatMarker_parts by exact Hs.
  unfold wrapsFirst at 1 2. rewrite slice_mid.
  pose proof (len_nonneg p) as Hp0. pose proof (len_nonneg s) as Hs0.
  pose proof (len_nonneg q) as Hq0. pose proof (len_nonneg marker) as Hm0.
  destruct (isWrappedSelection s marker) eqn:Ew.
  - (* the selection is unwrapped, then wrapped again *)
    intros [((Hc & _) & _) | (_ & Hne & Hw2 & Hs2)]; [discriminate |].
    simpl in *.
    pose proof (isWrappedSelection_true s marker Ew) as Hdec.
    set (inner := slice s (len marker) (len s - len marker)) in *.
    assert (Hinner : inner <> []).
    { intros E. rewrite E in Hne. unfold len in Hne; simpl in Hne. lia. }
    rewrite slice_mid in Hw2.
    rewrite formatMarker_parts by exact Hinner. rewrite Hw2, Hs2. simpl.
    rewrite <- Hdec. reflexivity.
  - destruct (hasSurroundingMarkers (p ++ s ++ q) (len p) (len p + len s) marker)
      eqn:Esur.
    + (* the markers around are removed, then put back *)
      intros [((_ & Hc) & _) | (_ & Hne & Hw2 & Hs2)]; [discriminate |].
      simpl in *.
      apply hasSurroundingMarkers_true in Esur as (Hm1 & Hm2 & Hp & Hq);
        [| lia | lia | rewrite !len_app; lia].
      rewrite slice_prefix in Hp.
      replace (len p + len s) with (len (p ++ s)) in Hq by apply len_app.
      rewrite (app_assoc p s q), sliceFrom_suffix in Hq.
      rewrite <- (app_assoc p s q) in Hq.
      assert (Hlen : len (slice (p ++ s ++ q) 0 (len p - len marker))
                     = len p - len marker).
      { rewrite len_slice; rewrite ?len_app; lia. }
      remember (slice (p ++ s ++ q) 0 (len p - len marker)) as p' eqn:Ep'.
      remember (sliceFrom (p ++ s ++ q) (len (p ++ s) + len marker)) as q'
        eqn:Eq'.
      clear Ep' Eq'.
      assert (E1 : replaceRange (p ++ s ++ q) (len p - len marker)
                     (len p + len s + len marker) s = p' ++ s ++ q').
      { rewrite Hp at 1. rewrite Hq at 1.
        replace ((p' ++ marker) ++ s ++ marker ++ q')
          with (p' ++ (marker ++ s ++ marker) ++ q')
          by (rewrite <- !app_assoc; reflexivity).
        rewrite <- Hlen.
        replace (len p + len s + len marker)
          with (len p' + len (marker ++ s ++ marker))
          by (rewrite !len_app; lia).
        apply replaceRange_split. }
      rewrite E1 in *. rewrite <- Hlen in *.
      rewrite slice_mid in Hw2.
      rewrite formatMarker_parts by exact Hs. rewrite Hw2, Hs2. simpl.
      rewrite Hp, Hq. rewrite <- !app_assoc. reflexivity.
    + (* the selection is wrapped, then the markers around are removed *)
      intros [(_ & Hn) | (Hnot & _)]; [| exfalso; apply Hnot; split; reflexivity].
      simpl. apply formatMarker_wrap_then_unwrap; assumption.
Qed.

Lemma applyCommandToText_marker (original : str) (sel : TextSelection)
    (command : FormatCommand) (preferences : FormattingPreferences)
    (options : FormattingOptions) (marker : str) :
  markerOf command preferences = Some marker ->
  applyCommandToText original sel command preferences options
  = formatMarker original sel marker preferences.
Proof.
  destruct command; simpl; intros [= <-]; reflexivity.
Qed.

Lemma formatMarker_normalized (original : str) (sel : TextSelection)
    (marker : str) (preferences : FormattingPreferences) :
  formatMarker original (normalizeSelection sel (len original)) marker preferences
  = formatMarker original sel marker preferences.
Proof.
  unfold formatMarker. rewrite resolveTargetSelection_normalized. reflexivity.
Qed.

Lemma formatMarker_round_trip (original : str) (sel : TextSelection)
    (marker : str) (preferences : FormattingPreferences) :
  from (normalizeSelection sel (len original))
  < to (normalizeSelection sel (len original)) ->
  restoredBySecondToggle original sel marker preferences ->
  text (formatMarker
          (text (formatMarker original sel marker preferences))
          (selection (formatMarker original sel marker preferences))
          marker preferences)
  = original.
Proof.
  unfold restoredBySecondToggle.
  rewrite <- (formatMarker_normalized original sel).
  pose proof (normalizeSelection_in sel (len original) (len_nonneg original))
    as (H0 & H1 & H2).
  destruct (normalizeSelection sel (len original)) as [f t]. simpl in *.
  intros Hlt Hcond.
  pose proof (text_split original f t H0 H1 H2) as Hsplit.
  pose proof (len_slice original 0 f) as Hlp.
  pose proof (len_slice original f t H0 H1 H2) as Hls.
  rewrite Z.sub_0_r in Hlp. specialize (Hlp ltac:(lia) H0 ltac:(lia)).
  remember (slice original 0 f) as p eqn:Ep.
  remember (slice original f t) as s eqn:Es.
  remember (sliceFrom original t) as q eqn:Eq.
  clear Ep Es Eq.
  assert (Hs : s <> []).
  { intros E. rewrite E in Hls. unfold len in Hls; simpl in Hls. lia. }
  assert (Ht : t = len p + len s) by lia.
  subst original t f.
  apply formatMarker_round_trip_parts; assumption.
Qed.

(** C3, as the code has it: for a non-empty selection and a command among
    bold, italic and strikethrough, applying the command twice restores the
    original text whenever the second toggle undoes the first: the first
    wraps (and for a one-character italic marker no such marker stands right
    before or right after the selection), or the first unwraps to a
    non-empty selection that the second wraps again. *)
Theorem applyTwice_round_trip (original : str) (sel : TextSelection)
    (command : FormatCommand) (preferences : FormattingPreferences)
    (options : FormattingOptions) (marker : str) :
  markerOf command preferences = Some marker ->
  from (normalizeSelection sel (len original))
  < to (normalizeSelection sel (len original)) ->
  restoredBySecondToggle original sel marker preferences ->
  text (applyTwice original sel command preferences options) = original.
Proof.
  intros Hm Hne Hcond. unfold applyTwice.
  rewrite !(applyCommandToText_marker _ _ _ _ _ marker Hm).
  apply formatMarker_round_trip; assumption.
Qed.

Lemma applyTwice_round_trip_witness :
  text (applyTwice (lit "A paragraph") {| from := 2; to := 11 |} italic
                   (mkPrefs word underscore) noOptions)
  = lit "A paragraph".
Proof.
  apply (applyTwice_round_trip (lit "A paragraph") {| from := 2; to := 11 |}
           italic (mkPrefs word underscore) noOptions (lit "_")).
  - reflexivity.
  - vm_compute. reflexivity.
  - left. split.
    + split; vm_compute; reflexivity.
    + intros _. split; vm_compute; reflexivity.
Defined.

(** C3, refuted as stated: with an underscore right before the selection,
    italic wraps twice; and bold unwraps a doubly wrapped selection twice. *)
Lemma applyTwice_not_round_trip :
  (text (applyTwice (lit "_a") {| from := 1; to := 2 |} italic
                    (mkPrefs word underscore) noOptions)
   = lit "___a__"
   /\ lit "___a__" <> lit "_a")
  /\ (text (applyTwice (lit "****x****") {| from := 0; to := 9 |} bold
                       (mkPrefs word underscore) noOptions)
      = lit "x"
      /\ lit "x" <> lit "****x****").
Proof.
  split; (split; [vm_compute; reflexivity | vm_compute; discriminate]).
Qed.

(** ** Every command changes the text *)

Lemma changed_of_len (updated old : str) :
  len updated <> len old -> negb (streq updated old) = true.
Proof.
  intros H. apply negb_true_iff, bool_decide_eq_false.
  intros E. apply H. rewrite E. reflexivity.
Qed.

Lemma formatMarker_changed (original : str) (sel : TextSelection) (marker : str)
    (preferences : FormattingPreferences) :
  0 < len marker ->
  changed (formatMarker original sel marker preferences) = true.
Proof.
  intros Hm. unfold formatMarker.
  pose proof (resolveTargetSelection_in original sel preferences) as (H0 & H1 & H2).
  set (target := resolveTargetSelection original sel preferences) in *.
  pose proof (len_nonneg original) as Ht.
  assert (Hsel : len (slice original (from target) (to target))
                 = to target - from target) by (apply len_slice; lia).
  destruct (from target =? to target) eqn:Ecaret; simpl.
  - apply changed_of_len. rewrite len_replaceRange, len_app by lia. lia.
  - destruct (isWrappedSelection _ marker) eqn:Ewrap; simpl.
    + apply changed_of_len. rewrite len_replaceRange by lia.
      unfold isWrappedSelection in Ewrap.
      destruct (len (slice original (from target) (to target)) <? len marker * 2)
        eqn:El; [discriminate |].
      rewrite len_slice by lia. lia.
    + destruct (hasSurroundingMarkers _ _ _ marker) eqn:Esur; simpl.
      * unfold hasSurroundingMarkers in Esur.
        destruct ((from target <? len marker)
                  || (to target + len marker >? len original)) eqn:Eb;
          [discriminate |].
        apply orb_false_iff in Eb as (Eb1 & Eb2).
        apply changed_of_len. rewrite len_replaceRange by lia. lia.
      * apply changed_of_len. rewrite len_replaceRange, !len_app by lia. lia.
Qed.

Lemma length_spanWhile (p : char -> bool) (s : str) :
  (length (spanWhile p s) <= length s)%nat.
Proof. induction s as [| c s IH]; simpl; [lia |]. destruct (p c); simpl; lia. Qed.

Lemma tryUnwrapFullLink_shorter (s label : str) :
  tryUnwrapFullLink s = Some label -> len label < len s.
Proof.
  unfold tryUnwrapFullLink. destruct s as [| c rest]; [discriminate |].
  destruct (c =? LBRACKET)%N; [| discriminate].
  pose proof (length_spanWhile (fun c => negb (c =? RBRACKET)%N) rest) as Hl.
  destruct (drop _ rest) as [| rb [| lp rest2]]; try discriminate.
  destruct (_ && _); [| discriminate].
  destruct (drop _ rest2) as [| rp [| ? ?]]; try discriminate.
  destruct (_ && _); [| discriminate].
  intros [= <-]. unfold len. simpl length. lia.
Qed.

Lemma formatLink_changed (original : str) (sel : TextSelection)
    (preferences : FormattingPreferences) (options : FormattingOptions) :
  changed (formatLink original sel preferences options) = true.
Proof.
  unfold formatLink.
  pose proof (resolveTargetSelection_in original sel preferences) as (H0 & H1 & H2).
  set (target := resolveTargetSelection original sel preferences) in *.
  pose proof (len_nonneg original) as Ht.
  assert (Hsel : len (slice original (from target) (to target))
                 = to target - from target) by (apply len_slice; lia).
  destruct (tryUnwrapFullLink _) as [fullyWrapped |] eqn:Efull; simpl.
  - apply tryUnwrapFullLink_shorter in Efull.
    apply changed_of_len. rewrite len_replaceRange by lia. lia.
  - destruct (tryUnwrapLinkAroundSelection original target) as [r |] eqn:Esur.
    + unfold tryUnwrapLinkAroundSelection in Esur.
      destruct ((from target =? 0) || _) eqn:E0; [discriminate |].
      apply orb_false_iff in E0 as (E0 & _).
      destruct (negb (indexOf original [RBRACKET; LPAREN] (to target)
                      =? to target)) eqn:E1; [discriminate |].
      apply negb_false_iff, Z.eqb_eq in E1. rewrite E1 in Esur.
      destruct (indexOf original [RPAREN] (to target + 2) =? -1) eqn:E2;
        [discriminate |].
      destruct (indexOf_bounds original [RPAREN] (to target + 2)) as [Hb | Hb];
        [lia |].
      change (len [RPAREN]) with 1 in Hb.
      destruct (indexOf_bounds original [RBRACKET; LPAREN] (to target))
        as [Hc | Hc]; [lia |].
      change (len [RBRACKET; LPAREN]) with 2 in Hc.
      injection Esur as <-. simpl.
      apply changed_of_len. rewrite len_replaceRange by lia. lia.
    + pose proof (len_nonneg (default (lit "https://") (linkUrl options))).
      destruct (from target =? to target) eqn:Ecaret; simpl.
      * pose proof (len_nonneg (default (lit "link text") (linkText options))).
        apply changed_of_len.
        rewrite len_replaceRange, len_linkMarkdown by lia. lia.
      * apply changed_of_len.
        rewrite len_replaceRange, len_linkMarkdown by lia. lia.
Qed.

Lemma applyCommandToText_changed (original : str) (sel : TextSelection)
    (command : FormatCommand) (preferences : FormattingPreferences)
    (options : FormattingOptions) :
  changed (applyCommandToText original sel command preferences options) = true.
Proof.
  destruct command; simpl.
  - apply formatMarker_changed. reflexivity.
  - apply formatMarker_changed. destruct (italicDelimiter preferences); reflexivity.
  - apply formatMarker_changed. reflexivity.
  - apply formatLink_changed.
Qed.

Lemma applyCommandToText_change (original : str) (sel : TextSelection)
    (command : FormatCommand) (preferences : FormattingPreferences)
    (options : FormattingOptions) :
  exists c, change (applyCommandToText original sel command preferences options)
            = Some c.
Proof.
  destruct (applyCommandToText_wf original sel command preferences options)
    as ((c & Hc & _) & _).
  exists c. exact Hc.
Qed.

(** ** The loop of the orchestrator *)

Lemma insertSorted_Permutation {A} (cmp : A -> A -> Z) (x : A) (l : list A) :
  insertSorted cmp x l ≡ₚ x :: l.
Proof.
  induction l as [| y l IH]; simpl; [reflexivity |].
  destruct (cmp x y <=? 0); [reflexivity |].
  rewrite IH. apply perm_swap.
Qed.

Lemma sortBy_Permutation {A} (cmp : A -> A -> Z) (l : list A) :
  sortBy cmp l ≡ₚ l.
Proof.
  induction l as [| x l IH]; simpl; [reflexivity |].
  unfold sortBy in *. simpl. rewrite insertSorted_Permutation, IH. reflexivity.
Qed.

Lemma imap_entries_lookup (rs : list TextSelection) (k : nat) (e : OrderEntry) :
  e ∈ imap (fun i r => {| efrom := from r; eto := to r; index := k + i |}) rs ->
  exists r, rs !! (index e - k)%nat = Some r
            /\ (k <= index e)%nat
            /\ efrom e = from r /\ eto e = to r.
Proof.
  revert k. induction rs as [| r rs IH]; intros k; simpl.
  - intros H. inversion H.
  - rewrite elem_of_cons. intros [-> | H].
    + exists r. simpl. rewrite Nat.add_0_r, Nat.sub_diag. auto.
    + rewrite (imap_ext _ (fun i r => {| efrom := from r; eto := to r;
                                          index := S k + i |})) in H
        by (intros; simpl; f_equal; lia).
      apply IH in H as (r' & Hl & Hk & Hf & Ht).
      exists r'. repeat split; try lia; auto.
      replace (index e - k)%nat with (S (index e - S k)) by lia. exact Hl.
Qed.

Lemma imap_entries_index (rs : list TextSelection) (k : nat) :
  index <$> imap (fun i r => {| efrom := from r; eto := to r; index := k + i |}) rs
  = seq k (length rs).
Proof.
  revert k. induction rs as [| r rs IH]; intros k; simpl; [reflexivity |].
  rewrite Nat.add_0_r. f_equal.
  rewrite (imap_ext _ (fun i r => {| efrom := from r; eto := to r;
                                     index := S k + i |}))
    by (intros; simpl; f_equal; lia).
  apply IH.
Qed.

(** An entry of [order] carries the range that stands at its index. *)
Lemma orderOf_lookup (view : EditorState) (e : OrderEntry) :
  e ∈ orderOf view ->
  selectionRanges view !! index e = Some {| from := efrom e; to := eto e |}.
Proof.
  unfold orderOf. rewrite sortBy_Permutation. intros H.
  apply (imap_entries_lookup _ 0%nat) in H as (r & Hl & _ & Hf & Ht).
  rewrite Nat.sub_0_r in Hl. rewrite Hl, Hf, Ht. destruct r; reflexivity.
Qed.

(** No index stands twice in [order]. *)
Lemma orderOf_NoDup (view : EditorState) : NoDup (index <$> orderOf view).
Proof.
  unfold orderOf. rewrite sortBy_Permutation.
  rewrite (imap_entries_index _ 0%nat). apply NoDup_seq.
Qed.

Lemma leastStart_snoc (cs : list Change) (c : Change) :
  leastStart (cs ++ [c]) = Z.min (leastStart cs) (cfrom c).
Proof. unfold leastStart. rewrite fold_left_app. reflexivity. Qed.

Section Loop.

Variable mapPos : Change -> Z -> Z -> Z -> Z.
Variable command : FormatCommand.
Variable preferences : FormattingPreferences.
Variable options : FormattingOptions.

Local Abbreviation step := (loopStep mapPos command preferences options).
Local Abbreviation apply1 := (fun s r => applyCommandToText s r command preferences options).

Lemma remapProcessed_lookup_other (c : Change) (n : Z)
    (processed : list nat) (rs : list TextSelection) (i : nat) :
  i ∉ processed ->
  remapProcessed mapPos c n rs processed !! i = rs !! i.
Proof.
  unfold remapProcessed. revert rs.
  induction processed as [| j processed IH]; intros rs Hi; simpl;
    [reflexivity |].
  apply not_elem_of_cons in Hi as (Hne & Hi).
  rewrite IH by exact Hi.
  destruct (rs !! j); [| reflexivity].
  apply list_lookup_insert_ne. congruence.
Qed.

Lemma loopStep_skip (st : LoopState) (entry : OrderEntry)
    (current : TextSelection) :
  ranges st !! index entry = Some current ->
  overlapGuard st < to current ->
  step st entry = st.
Proof.
  intros Hl Hgt. unfold loopStep. rewrite Hl.
  destruct (to current >? overlapGuard st) eqn:E; [reflexivity | lia].
Qed.

Lemma loopStep_process (st : LoopState) (entry : OrderEntry)
    (current : TextSelection) :
  ranges st !! index entry = Some current ->
  to current <= overlapGuard st ->
  exists c,
    change (apply1 (nextText st) current) = Some c
    /\ step st entry
       = {| nextText := text (apply1 (nextText st) current);
            ranges :=
              remapProcessed mapPos c (len (nextText st))
                (<[index entry := selection (apply1 (nextText st) current)]>
                   (ranges st))
                (processedIndices st);
            processedIndices := processedIndices st ++ [index entry];
            changes := changes st ++ [c];
            hasDocumentChange := true;
            overlapGuard := Z.min (overlapGuard st) (cfrom c) |}.
Proof.
  intros Hl Hle. unfold loopStep. rewrite Hl.
  destruct (to current >? overlapGuard st) eqn:E; [lia |].
  destruct (applyCommandToText_change (nextText st) current command
              preferences options) as (c & Hc).
  exists c. split; [exact Hc |].
  rewrite Hc, applyCommandToText_changed. reflexivity.
Qed.

Lemma loopInvariant_initial (view : EditorState) :
  loopInvariant view (initialLoop view).
Proof. split; [reflexivity | intros i _; reflexivity]. Qed.

Lemma loopInvariant_step (view : EditorState) (st : LoopState)
    (entry : OrderEntry) :
  loopInvariant view st -> loopInvariant view (step st entry).
Proof.
  intros (Hg & Hr).
  destruct (ranges st !! index entry) as [current |] eqn:Hl.
  - destruct (Z_lt_le_dec (overlapGuard st) (to current)) as [Hgt | Hle].
    + rewrite (loopStep_skip st entry current Hl Hgt). split; assumption.
    + destruct (loopStep_process st entry current Hl Hle) as (c & _ & ->).
      split; simpl.
      * rewrite leastStart_snoc, Hg. reflexivity.
      * intros i Hi. apply not_elem_of_app in Hi as (Hi & Hne).
        rewrite remapProcessed_lookup_other by exact Hi.
        rewrite list_lookup_insert_ne
          by (intros E; apply Hne; rewrite <- E; constructor).
        apply Hr, Hi.
  - unfold loopStep. rewrite Hl. split; assumption.
Qed.

Lemma loopInvariant_fold (view : EditorState) (es : list OrderEntry)
    (st : LoopState) :
  loopInvariant view st -> loopInvariant view (fold_left step es st).
Proof.
  revert st. induction es as [| e es IH]; intros st H; simpl; [exact H |].
  apply IH, loopInvariant_step, H.
Qed.

Lemma processedIndices_step (st : LoopState) (entry : OrderEntry) (i : nat) :
  i ∈ processedIndices (step st entry) ->
  i ∈ processedIndices st \/ i = index entry.
Proof.
  destruct (ranges st !! index entry) as [current |] eqn:Hl.
  - destruct (Z_lt_le_dec (overlapGuard st) (to current)) as [Hgt | Hle].
    + rewrite (loopStep_skip st entry current Hl Hgt). auto.
    + destruct (loopStep_process st entry current Hl Hle) as (c & _ & ->).
      simpl. rewrite elem_of_app, list_elem_of_singleton. auto.
  - unfold loopStep. rewrite Hl. auto.
Qed.

Lemma processedIndices_fold (es : list OrderEntry) (st : LoopState) (i : nat) :
  i ∈ processedIndices (fold_left step es st) ->
  i ∈ processedIndices st \/ i ∈ index <$> es.
Proof.
  revert st. induction es as [| e es IH]; intros st; simpl; [auto |].
  intros H. apply IH in H as [H | H].
  - apply processedIndices_step in H as [H | ->]; [auto |].
    right. left.
  - right. right. exact H.
Qed.

End Loop.

(** C1, as the code has it: when the loop reaches a range, the guard is the
    least start offset of the edits committed so far; a range whose end
    offset is strictly greater than the guard is skipped, the loop state is
    left as it is and the final selection keeps the range untouched; a range
    whose end offset is at most the guard, and so one that ends exactly
    where a committed edit starts, is processed and commits its own edit. *)
Theorem overlapGuard_skips_strictly_greater
    (mapPos : Change -> Z -> Z -> Z -> Z) (command : FormatCommand)
    (preferences : FormattingPreferences) (options : FormattingOptions)
    (view : EditorState) (done rest : list OrderEntry) (entry : OrderEntry) :
  orderOf view = done ++ entry :: rest ->
  let step := loopStep mapPos command preferences options in
  let st := fold_left step done (initialLoop view) in
  let current := {| from := efrom entry; to := eto entry |} in
  let result :=
    applyCommandToText (nextText st) current command preferences options in
  overlapGuard st = leastStart (changes st)
  /\ (overlapGuard st < eto entry ->
      step st entry = st
      /\ ranges (runLoop mapPos command preferences options view) !! index entry
         = Some current)
  /\ (eto entry <= overlapGuard st ->
      exists c,
        change result = Some c
        /\ nextText (step st entry) = text result
        /\ changes (step st entry) = changes st ++ [c]
        /\ processedIndices (step st entry)
           = processedIndices st ++ [index entry]).
Proof.
  intros Horder step st current result. subst step.
  assert (Hinv : loopInvariant view st)
    by apply loopInvariant_fold, loopInvariant_initial.
  pose proof (orderOf_NoDup view) as Hnd.
  rewrite Horder, fmap_app, fmap_cons in Hnd.
  apply NoDup_app in Hnd as (_ & Hdone & Hnd).
  apply NoDup_cons in Hnd as (Hrest & _).
  assert (Hfresh : index entry ∉ processedIndices st).
  { intros H. apply processedIndices_fold in H as [H | H].
    - inversion H.
    - apply (Hdone _ H). left. }
  assert (Hcur : ranges st !! index entry = Some current).
  { destruct Hinv as (_ & Hr). rewrite Hr by exact Hfresh.
    apply orderOf_lookup. rewrite Horder.
    apply elem_of_app. right. left. }
  split; [apply Hinv |]. split.
  - intros Hgt.
    assert (Hskip : loopStep mapPos command preferences options st entry = st)
      by (apply (loopStep_skip _ _ _ _ _ _ current); assumption).
    split; [exact Hskip |].
    unfold runLoop. rewrite Horder, fold_left_app. simpl.
    change (fold_left (loopStep mapPos command preferences options) done
                      (initialLoop view)) with st.
    rewrite Hskip.
    assert (Hinv' : loopInvariant view
              (fold_left (loopStep mapPos command preferences options) rest st))
      by apply loopInvariant_fold, Hinv.
    destruct Hinv' as (_ & Hr). rewrite Hr.
    + destruct Hinv as (_ & Hr0). rewrite <- Hr0 by exact Hfresh. exact Hcur.
    + intros H. apply processedIndices_fold in H as [H | H]; auto.
  - intros Hle.
    destruct (loopStep_process mapPos command preferences options st entry
                current Hcur Hle) as (c & Hc & Hstep).
    exists c. rewrite Hstep. simpl. auto.
Qed.

Lemma overlapGuard_skips_strictly_greater_witness :
  let view := {| doc := lit "ab **cd**";
                 selectionRanges := [{| from := 0; to := 4 |};
                                     {| from := 5; to := 7 |}];
                 mainIndex := 0 |} in
  let skipped := {| efrom := 0; eto := 4; index := 0 |} in
  let st := fold_left (loopStep mapPosSingle bold (mkPrefs word underscore)
                                noOptions)
                      [{| efrom := 5; eto := 7; index := 1 |}]
                      (initialLoop view) in
  overlapGuard st = 3
  /\ loopStep mapPosSingle bold (mkPrefs word underscore) noOptions st skipped
     = st
  /\ ranges (runLoop mapPosSingle bold (mkPrefs word underscore) noOptions view)
       !! 0%nat
     = Some {| from := 0; to := 4 |}.
Proof.
  intros view skipped st.
  destruct (overlapGuard_skips_strictly_greater mapPosSingle bold
              (mkPrefs word underscore) noOptions view
              [{| efrom := 5; eto := 7; index := 1 |}] [] skipped)
    as (Hguard & Hskip & _).
  - vm_compute. reflexivity.
  - split; [vm_compute; reflexivity |].
    apply Hskip. vm_compute. reflexivity.
Defined.

(** C1, refuted as stated: in "onetwo" with "one" and "two" selected, the
    edit of "two" is committed at offset 3; the range of "one" ends at
    offset 3 and is not skipped. *)
Lemma overlapGuard_processes_touching_range :
  let view := {| doc := lit "onetwo";
                 selectionRanges := [{| from := 0; to := 3 |};
                                     {| from := 3; to := 6 |}];
                 mainIndex := 0 |} in
  let step := loopStep mapPosSingle bold (mkPrefs word underscore) noOptions in
  let st := fold_left step [{| efrom := 3; eto := 6; index := 1 |}]
                      (initialLoop view) in
  orderOf view = [{| efrom := 3; eto := 6; index := 1 |};
                  {| efrom := 0; eto := 3; index := 0 |}]
  /\ changes st = [{| cfrom := 3; cto := 6; insert := lit "**two**" |}]
  /\ step st {| efrom := 0; eto := 3; index := 0 |} <> st
  /\ changes (step st {| efrom := 0; eto := 3; index := 0 |})
     = [{| cfrom := 3; cto := 6; insert := lit "**two**" |};
        {| cfrom := 0; cto := 3; insert := lit "**one**" |}]
  /\ nextText (runLoop mapPosSingle bold (mkPrefs word underscore) noOptions view)
     = lit "**one****two**".
Proof.
  repeat split; try (vm_compute; reflexivity).
  vm_compute. discriminate.
Qed.

(** C2 at its failing input: in "**a*x" with "a" and "x" selected, bold
    wraps "x" first, and then sees "a" between two pairs of asterisks, the
    second pair made of an asterisk of the text and one the first edit
    inserted; the edit of "a" reaches offset 5 and the sorted descriptors
    overlap.  With "**ax" the same edit ends beyond the document. *)
Lemma sortedChanges_overlap :
  let prefs := mkPrefs word underscore in
  let view := {| doc := lit "**a*x";
                 selectionRanges := [{| from := 2; to := 3 |};
                                     {| from := 4; to := 5 |}];
                 mainIndex := 0 |} in
  let view' := {| doc := lit "**ax";
                  selectionRanges := [{| from := 2; to := 3 |};
                                      {| from := 3; to := 4 |}];
                  mainIndex := 0 |} in
  sortedChanges (runLoop mapPosSingle bold prefs noOptions view)
  = [{| cfrom := 0; cto := 5; insert := lit "a" |};
     {| cfrom := 4; cto := 5; insert := lit "**x**" |}]
  /\ nonOverlapping (sortedChanges (runLoop mapPosSingle bold prefs noOptions view))
     = false
  /\ sortedChanges (runLoop mapPosSingle bold prefs noOptions view')
     = [{| cfrom := 0; cto := 5; insert := lit "a" |};
        {| cfrom := 3; cto := 4; insert := lit "**x**" |}]
  /\ applyFormattingToEditor mapPosSingle bold prefs noOptions view' = RangeError.
Proof. repeat split; vm_compute; reflexivity. Qed.

(** ** The table parser and the rendered grid *)

Lemma splitOn_nonempty (sep : char) (s : str) :
  (1 <= length (splitOn sep s))%nat.
Proof.
  induction s as [| c s IH]; simpl; [lia |].
  destruct (c =? sep)%N; simpl; [lia |].
  destruct (splitOn sep s); simpl in *; lia.
Qed.

Lemma parseTableRow_nonempty (line : str) :
  (1 <= length (parseTableRow line))%nat.
Proof. unfold parseTableRow. rewrite length_fmap. apply splitOn_nonempty. Qed.


Lemma parseTableText_rows (block : str) (m : TableModel) :
  parseTableText block = Some m ->
  rows m = parseTableRow <$> drop 2 (tableLines block).
Proof.
  unfold parseTableText.
  destruct (tableLines block) as [| line0 [| line1 rest]]; try discriminate.
  destruct (length _ =? 0)%nat; [discriminate |].
  destruct (negb _); [discriminate |].
  intros [= <-]. reflexivity.
Qed.

(** C4, as the code has it: the parser keeps for every data row the cells
    of its own line, at least one and not always as many as the headers; it
    is the grid rendered from the model that gives every data row the
    column count of the headers. *)
Theorem parseTableText_rows_rendered (block : str) (m : TableModel) :
  parseTableText block = Some m ->
  rows m = parseTableRow <$> drop 2 (tableLines block)
  /\ Forall (fun row => (1 <= length row)%nat) (rows m)
  /\ length (thead (renderGrid m)) = length (headers m)
  /\ length (tbody (renderGrid m)) = length (rows m)
  /\ Forall (fun tr => length tr = length (headers m)) (tbody (renderGrid m)).
Proof.
  intros Hparse. pose proof (parseTableText_rows block m Hparse) as Hrows.
  split; [exact Hrows |]. split.
  - rewrite Hrows. apply Forall_fmap, Forall_forall.
    intros line _. apply parseTableRow_nonempty.
  - unfold renderGrid; simpl. rewrite !length_fmap.
    repeat split. apply Forall_fmap, Forall_forall.
    intros row _. simpl. rewrite length_fmap, length_seq. reflexivity.
Qed.

Lemma parseTableText_rows_rendered_witness :
  let block := lit "| a | b |" ++ [NEWLINE] ++ lit "|---|---|" ++ [NEWLINE]
               ++ lit "| 1 |" in
  exists m, parseTableText block = Some m
            /\ Forall (fun tr => length tr = length (headers m))
                      (tbody (renderGrid m)).
Proof.
  intros block. eexists. split.
  - vm_compute. reflexivity.
  - apply (parseTableText_rows_rendered block). vm_compute. reflexivity.
Defined.

(** C4, refuted as stated: a data line with fewer cells than the header
    line is parsed into a shorter row. *)
Lemma parseTableText_ragged_row :
  let block := lit "| a | b |" ++ [NEWLINE] ++ lit "|---|---|" ++ [NEWLINE]
               ++ lit "| 1 |" in
  exists m, parseTableText block = Some m
            /\ headers m = [lit "a"; lit "b"]
            /\ rows m = [[lit "1"]]
            /\ ~ Forall (fun row => length row = length (headers m)) (rows m).
Proof.
  intros block. eexists. split; [vm_compute; reflexivity |].
  split; [reflexivity |]. split; [reflexivity |].
  intros H. apply Forall_cons in H as (H & _). discriminate H.
Qed.

(** ** The grid operations of the table widget *)

Lemma sync_keeps_grid (w w' : WidgetState) :
  sync w = Some w' ->
  table w' = table w /\ liveHeaders w' = liveHeaders w
  /\ liveRows w' = liveRows w.
Proof.
  unfold sync. destruct (negb _).
  - destruct (dispatchChange _ _); [| discriminate].
    intros [= <-]. auto.
  - intros [= <-]. auto.
Qed.

Lemma domDelete_length {A} (l l' : list A) (idx : Z) :
  domDelete l idx = Some l' -> (length l - 1 <= length l')%nat.
Proof.
  unfold domDelete.
  destruct ((idx <? -1) || (idx >=? Z.of_nat (length l))) eqn:E; [discriminate |].
  apply orb_false_iff in E as (E1 & E2).
  destruct (idx =? -1) eqn:E3; intros [= <-].
  - rewrite length_take. lia.
  - rewrite length_delete; [lia |]. apply lookup_lt_is_Some. lia.
Qed.

Lemma runOp_shape (op : GridOp) (w w' : WidgetState) :
  minShape w -> runOp op w = Some w' -> minShape w'.
Proof.
  intros (Hr & Hc). unfold minShape.
  destruct op as [| | rowIdx | colIdx]; simpl.
  - unfold addRowDOM. intros H. apply sync_keeps_grid in H as (-> & _).
    simpl. rewrite length_app. simpl. lia.
  - unfold addColumnDOM. intros H. apply sync_keeps_grid in H as (-> & _).
    simpl. rewrite length_app, length_fmap. simpl. lia.
  - unfold deleteRowDOM. simpl.
    destruct (length (tbody (table w)) <=? 1)%nat eqn:E.
    + intros [= <-]. simpl. lia.
    + apply Nat.leb_gt in E.
      destruct (domDelete (tbody (table w)) rowIdx) as [body |] eqn:Ed;
        [| discriminate].
      apply domDelete_length in Ed.
      intros H. apply sync_keeps_grid in H as (-> & _). simpl. lia.
  - unfold deleteColumnDOM. simpl.
    destruct (length (thead (table w)) <=? 2)%nat eqn:E.
    + intros [= <-]. simpl. lia.
    + apply Nat.leb_gt in E.
      destruct (domDelete (thead (table w)) colIdx) as [head |] eqn:Ed;
        [| discriminate].
      apply domDelete_length in Ed.
      destruct (domDeleteColumn (tbody (table w)) colIdx) as [body |] eqn:Eb;
        [| discriminate].
      apply length_mapM in Eb.
      intros H. apply sync_keeps_grid in H as (-> & _). simpl. lia.
Qed.

(** C8: a grid with at least one data row and two columns keeps that shape
    under every grid operation that completes; deleting a row when one data
    row is left, and deleting a column when two columns are left, change
    neither the rendered grid nor the buffer nor the write-back range. *)
Theorem gridOps_keep_minimum_shape (w : WidgetState) :
  minShape w ->
  (forall op w', runOp op w = Some w' -> minShape w')
  /\ (forall rowIdx,
        length (tbody (table w)) = 1%nat ->
        exists w', runOp (DeleteRow rowIdx) w = Some w'
                   /\ table w' = table w /\ buffer w' = buffer w
                   /\ sourceFrom w' = sourceFrom w /\ sourceTo w' = sourceTo w)
  /\ (forall colIdx,
        length (thead (table w)) = 2%nat ->
        exists w', runOp (DeleteColumn colIdx) w = Some w'
                   /\ table w' = table w /\ buffer w' = buffer w
                   /\ sourceFrom w' = sourceFrom w /\ sourceTo w' = sourceTo w).
Proof.
  intros Hshape. split; [| split].
  - intros op w'. apply runOp_shape, Hshape.
  - intros rowIdx Hone. exists (readDOM w). simpl. unfold deleteRowDOM. simpl.
    rewrite Hone. simpl. auto.
  - intros colIdx Htwo. exists (readDOM w). simpl. unfold deleteColumnDOM. simpl.
    rewrite Htwo. simpl. auto.
Qed.

Lemma gridOps_keep_minimum_shape_witness :
  let w := {| table := {| thead := [lit "a"; lit "b"]; tbody := [[lit "1"; lit "2"]] |};
              liveHeaders := [lit "a"; lit "b"];
              liveRows := [[lit "1"; lit "2"]];
              liveAligns := [alignLeft; alignLeft];
              sourceFrom := 0;
              sourceTo := 35;
              buffer := lit "| a | b |" ++ [NEWLINE] ++ lit "| :--- | :--- |"
                        ++ [NEWLINE] ++ lit "| 1 | 2 |" |} in
  exists w', runOp (DeleteRow 0) w = Some w'
             /\ table w' = table w /\ buffer w' = buffer w
             /\ sourceFrom w' = sourceFrom w /\ sourceTo w' = sourceTo w.
Proof.
  intros w.
  assert (Hshape : minShape w) by (split; simpl; lia).
  destruct (gridOps_keep_minimum_shape w Hshape) as (_ & Hrow & _).
  apply Hrow. reflexivity.
Defined.

(** ** The Table node in the decoration builder *)

Lemma len_cons (c : char) (s : str) : len (c :: s) = 1 + len s.
Proof. unfold len. simpl length. lia. Qed.

(** Every position up to the end of the document lies on a line. *)
Lemma linesFrom_find (d : str) (start n pos : Z) :
  pos <= start + len d ->
  exists l, find (fun l => pos <=? lto l) (linesFrom (splitOn NEWLINE d) start n)
            = Some l.
Proof.
  revert start n. induction d as [| c d IH]; intros start n Hpos.
  - simpl. rewrite len_nil in *.
    destruct (pos <=? start + 0) eqn:E; [eauto | lia].
  - rewrite len_cons in Hpos. simpl splitOn.
    destruct (c =? NEWLINE)%N.
    + simpl. rewrite len_nil.
      destruct (pos <=? start + 0) eqn:E; [eauto |].
      apply IH. lia.
    + destruct (IH (start + 1) n) as (l & Hl); [lia |].
      pose proof (splitOn_nonempty NEWLINE d) as Hne.
      destruct (splitOn NEWLINE d) as [| h t]; [simpl in Hne; lia |].
      simpl in Hl |- *. rewrite len_cons.
      replace (start + (1 + len h)) with (start + 1 + len h) by lia.
      destruct (pos <=? start + 1 + len h); [eauto |].
      eexists. exact Hl.
Qed.

Lemma lineAt_Some (d : str) (pos : Z) :
  0 <= pos -> pos <= len d -> exists l, lineAt d pos = Some l.
Proof.
  intros H0 H1. unfold lineAt.
  destruct ((pos <? 0) || (pos >? len d)) eqn:E.
  - apply orb_true_iff in E as [E | E]; lia.
  - apply linesFrom_find. lia.
Qed.






(** ** More on the formatting engine *)

(** X1: every command changes the text: the result is flagged as changed,
    it carries an edit descriptor, and its text has another length than the
    text it was given. *)
Theorem applyCommandToText_always_changes (original : str)
    (sel : TextSelection) (command : FormatCommand)
    (preferences : FormattingPreferences) (options : FormattingOptions) :
  let r := applyCommandToText original sel command preferences options in
  changed r = true /\ text r <> original /\ exists c, change r = Some c.
Proof.
  intros r. subst r.
  pose proof (applyCommandToText_changed original sel command preferences
                options) as Hc.
  destruct (applyCommandToText_wf original sel command preferences options)
    as (Hchange & Hflag & _).
  split; [exact Hc |]. split.
  - rewrite Hflag in Hc. apply negb_true_iff, bool_decide_eq_false in Hc.
    exact Hc.
  - destruct Hchange as (c & Hsome & _). eauto.
Qed.

(** The target of a command holds the normalized selection. *)
Lemma resolveTargetSelection_covers (original : str) (sel : TextSelection)
    (preferences : FormattingPreferences) :
  from (resolveTargetSelection original sel preferences)
  <= from (normalizeSelection sel (len original))
  /\ to (normalizeSelection sel (len original))
     <= to (resolveTargetSelection original sel preferences).
Proof.
  unfold resolveTargetSelection.
  pose proof (normalizeSelection_in sel (len original) (len_nonneg original))
    as (H0 & H1 & H2).
  set (n := normalizeSelection sel (len original)) in *.
  destruct (negb (isEmptySel n)) eqn:Ee; [lia |].
  apply negb_false_iff in Ee. unfold isEmptySel in Ee. apply Z.eqb_eq in Ee.
  destruct (emptySelectionBehavior preferences); [| lia].
  destruct (expandSelectionToWord original (from n)) as [w |] eqn:Ew; simpl;
    [| lia].
  apply expandSelectionToWord_Some in Ew as (_ & Hin).
  rewrite clamp_id in Hin by lia. lia.
Qed.

Lemma formatMarker_edit_covers (original : str) (sel : TextSelection)
    (marker : str) (preferences : FormattingPreferences) (c : Change) :
  change (formatMarker original sel marker preferences) = Some c ->
  cfrom c <= from (normalizeSelection sel (len original))
  /\ to (normalizeSelection sel (len original)) <= cto c.
Proof.
  pose proof (resolveTargetSelection_covers original sel preferences) as (Hf & Ht).
  pose proof (len_nonneg marker) as Hm.
  unfold formatMarker.
  set (target := resolveTargetSelection original sel preferences) in *.
  destruct (from target =? to target); [intros [= <-]; simpl; lia |].
  destruct (isWrappedSelection _ marker); [intros [= <-]; simpl; lia |].
  destruct (hasSurroundingMarkers _ _ _ marker); intros [= <-]; simpl; lia.
Qed.

Lemma formatLink_edit_covers (original : str) (sel : TextSelection)
    (preferences : FormattingPreferences) (options : FormattingOptions)
    (c : Change) :
  change (formatLink original sel preferences options) = Some c ->
  cfrom c <= from (normalizeSelection sel (len original))
  /\ to (normalizeSelection sel (len original)) <= cto c.
Proof.
  pose proof (resolveTargetSelection_covers original sel preferences) as (Hf & Ht).
  pose proof (resolveTargetSelection_in original sel preferences) as (H0 & H1 & H2).
  unfold formatLink.
  set (target := resolveTargetSelection original sel preferences) in *.
  destruct (tryUnwrapFullLink _); [intros [= <-]; simpl; lia |].
  destruct (tryUnwrapLinkAroundSelection original target) as [r |] eqn:Esur.
  - unfold tryUnwrapLinkAroundSelection in Esur.
    destruct ((from target =? 0) || _); [discriminate |].
    destruct (negb (indexOf original [RBRACKET; LPAREN] (to target)
                    =? to target)) eqn:E1; [discriminate |].
    apply negb_false_iff, Z.eqb_eq in E1. rewrite E1 in Esur.
    destruct (indexOf original [RPAREN] (to target + 2) =? -1) eqn:E2;
      [discriminate |].
    destruct (indexOf_bounds original [RPAREN] (to target + 2)) as [Hb | Hb];
      [lia |].
    injection Esur as <-. simpl. intros [= <-]. simpl. lia.
  - destruct (from target =? to target); intros [= <-]; simpl; lia.
Qed.

Lemma applyCommandToText_edit_covers (original : str)
    (sel : TextSelection) (command : FormatCommand)
    (preferences : FormattingPreferences) (options : FormattingOptions)
    (c : Change) :
  change (applyCommandToText original sel command preferences options) = Some c ->
  cfrom c <= from (normalizeSelection sel (len original))
  /\ to (normalizeSelection sel (len original)) <= cto c.
Proof.
  destruct command; simpl; intros H.
  - eapply formatMarker_edit_covers, H.
  - eapply formatMarker_edit_covers, H.
  - eapply formatMarker_edit_covers, H.
  - eapply formatLink_edit_covers, H.
Qed.

(** X2: the edit of a command always holds the selection it was given
    (clamped and ordered): it starts at or before the selection and ends at
    or after it. *)
Theorem applyCommandToText_edit_covers_selection (original : str)
    (sel : TextSelection) (command : FormatCommand)
    (preferences : FormattingPreferences) (options : FormattingOptions)
    (c : Change) :
  change (applyCommandToText original sel command preferences options) = Some c ->
  cfrom c <= from (normalizeSelection sel (len original))
  /\ to (normalizeSelection sel (len original)) <= cto c.
Proof.
  intros H. destruct command; simpl in H.
  - apply (formatMarker_edit_covers _ _ _ _ _ H).
  - apply (formatMarker_edit_covers _ _ _ _ _ H).
  - apply (formatMarker_edit_covers _ _ _ _ _ H).
  - apply (formatLink_edit_covers _ _ _ _ _ H).
Qed.

Lemma applyCommandToText_edit_covers_selection_witness :
  cfrom {| cfrom := 2; cto := 12; insert := lit "strike" |} <= 4
  /\ 10 <= cto {| cfrom := 2; cto := 12; insert := lit "strike" |}.
Proof.
  apply (applyCommandToText_edit_covers_selection (lit "a ~~strike~~ b")
           {| from := 4; to := 10 |} strikethrough (mkPrefs word underscore)
           noOptions).
  vm_compute. reflexivity.
Defined.

(** When the marker surrounds the selection, the text is the marker, the
    selection and the marker again between two outer parts. *)
Lemma hasSurroundingMarkers_parts_inv (p s q marker : str) :
  hasSurroundingMarkers (p ++ s ++ q) (len p) (len p + len s) marker = true ->
  exists p' q', p = p' ++ marker /\ q = marker ++ q'.
Proof.
  intros Hsur.
  pose proof (len_nonneg p). pose proof (len_nonneg s). pose proof (len_nonneg q).
  apply hasSurroundingMarkers_true in Hsur as (_ & _ & Hp & Hq);
    [| lia | lia | rewrite !len_app; lia].
  rewrite slice_prefix in Hp.
  replace (len p + len s) with (len (p ++ s)) in Hq by apply len_app.
  rewrite (app_assoc p s q), sliceFrom_suffix in Hq.
  eauto.
Qed.

Lemma replaceRange_outer (p s q marker r : str) :
  replaceRange ((p ++ marker) ++ s ++ marker ++ q)
               (len (p ++ marker) - len marker)
               (len (p ++ marker) + len s + len marker) r
  = p ++ r ++ q.
Proof.
  pose proof (len_nonneg marker).
  replace ((p ++ marker) ++ s ++ marker ++ q)
    with (p ++ (marker ++ s ++ marker) ++ q)
    by (rewrite <- !app_assoc; reflexivity).
  replace (len (p ++ marker) - len marker) with (len p)
    by (rewrite len_app; lia).
  replace (len p + len marker + len s + len marker)
    with (len p + len (marker ++ s ++ marker))
    by (rewrite !len_app; lia).
  replace (len (p ++ marker) + len s + len marker)
    with (len p + len (marker ++ s ++ marker))
    by (rewrite !len_app; lia).
  apply replaceRange_split.
Qed.

Lemma formatMarker_selects_parts (p s q marker : str)
    (preferences : FormattingPreferences) :
  s <> [] ->
  let r := formatMarker (p ++ s ++ q) {| from := len p; to := len p + len s |}
                        marker preferences in
  slice (text r) (from (selection r)) (to (selection r))
  = if isWrappedSelection s marker
    then slice s (len marker) (len s - len marker)
    else s.
Proof.
  intros Hs r. subst r. rewrite formatMarker_parts by exact Hs.
  destruct (isWrappedSelection s marker) eqn:Ew; simpl.
  - apply slice_mid.
  - destruct (hasSurroundingMarkers _ _ _ marker) eqn:Esur; simpl.
    + destruct (hasSurroundingMarkers_parts_inv p s q marker Esur)
        as (p' & q' & -> & ->).
      rewrite replaceRange_outer.
      replace (len (p' ++ marker) - len marker) with (len p')
        by (rewrite len_app; lia).
      apply slice_mid.
    + replace (p ++ (marker ++ s ++ marker) ++ q)
        with ((p ++ marker) ++ s ++ (marker ++ q))
        by (rewrite <- !app_assoc; reflexivity).
      replace (len p + len marker) with (len (p ++ marker)) by apply len_app.
      replace (len p + len s + len marker) with (len (p ++ marker) + len s)
        by (rewrite len_app; lia).
      apply slice_mid.
Qed.

(** X3: after bold, italic or strikethrough on a non-empty selection, the
    resulting selection still selects the text that was selected; when the
    selected text itself was wrapped in the marker, it selects that text
    without the two markers. *)
Theorem applyCommandToText_keeps_selected_text (original : str)
    (sel : TextSelection) (command : FormatCommand)
    (preferences : FormattingPreferences) (options : FormattingOptions)
    (marker : str) :
  markerOf command preferences = Some marker ->
  from (normalizeSelection sel (len original))
  < to (normalizeSelection sel (len original)) ->
  let n := normalizeSelection sel (len original) in
  let selected := slice original (from n) (to n) in
  let r := applyCommandToText original sel command preferences options in
  slice (text r) (from (selection r)) (to (selection r))
  = if isWrappedSelection selected marker
    then slice selected (len marker) (len selected - len marker)
    else selected.
Proof.
  intros Hm Hlt n selected r. subst r selected n.
  rewrite (applyCommandToText_marker _ _ _ _ _ marker Hm).
  rewrite <- (formatMarker_normalized original sel).
  pose proof (normalizeSelection_in sel (len original) (len_nonneg original))
    as (H0 & H1 & H2).
  destruct (normalizeSelection sel (len original)) as [f t]. simpl in *.
  pose proof (text_split original f t H0 H1 H2) as Hsplit.
  pose proof (len_slice original 0 f) as Hlp.
  pose proof (len_slice original f t H0 H1 H2) as Hls.
  rewrite Z.sub_0_r in Hlp. specialize (Hlp ltac:(lia) H0 ltac:(lia)).
  remember (slice original 0 f) as p eqn:Ep.
  remember (slice original f t) as s eqn:Es.
  remember (sliceFrom original t) as q eqn:Eq.
  clear Ep Eq.
  assert (Hs : s <> []).
  { intros E. rewrite E in Hls. unfold len in Hls; simpl in Hls. lia. }
  assert (Ht : t = len p + len s) by lia.
  rewrite Hsplit at 1 2 3. rewrite <- Hlp, Ht.
  apply formatMarker_selects_parts, Hs.
Qed.

Lemma applyCommandToText_keeps_selected_text_witness :
  let r := applyCommandToText (lit "one two three") {| from := 4; to := 7 |}
                              bold (mkPrefs word underscore) noOptions in
  slice (text r) (from (selection r)) (to (selection r)) = lit "two".
Proof.
  apply (applyCommandToText_keeps_selected_text (lit "one two three")
           {| from := 4; to := 7 |} bold (mkPrefs word underscore) noOptions
           (lit "**")).
  - reflexivity.
  - vm_compute. reflexivity.
Defined.

(** ** The link toggle *)

Lemma spanWhile_stop (p : char -> bool) (u : str) (c : char) (rest : str) :
  Forall (fun x => p x = true) u -> p c = false ->
  spanWhile p (u ++ c :: rest) = u.
Proof.
  intros Hu Hc. induction Hu as [| x u Hx Hu IH]; simpl.
  - rewrite Hc. reflexivity.
  - rewrite Hx, IH. reflexivity.
Qed.

(** The full-link pattern on the markdown of a link gives the label back,
    when the label is not empty and holds no "]" and the url is not empty
    and holds no ")" and no line feed. *)
Lemma tryUnwrapFullLink_linkMarkdown (label url : str) :
  label <> [] -> RBRACKET ∉ label ->
  url <> [] -> RPAREN ∉ url -> NEWLINE ∉ url ->
  tryUnwrapFullLink (linkMarkdown label url) = Some label.
Proof.
  intros Hl Hlb Hu Hup Hun. unfold linkMarkdown, tryUnwrapFullLink. simpl.
  assert (Hspan1 : spanWhile (fun c => negb (c =? RBRACKET)%N)
                     (label ++ RBRACKET :: LPAREN :: url ++ [RPAREN]) = label).
  { apply spanWhile_stop; [| reflexivity].
    apply Forall_forall. intros x Hx. apply negb_true_iff, N.eqb_neq.
    intros ->. contradiction. }
  rewrite Hspan1, drop_app_length.
  destruct label as [| l0 label']; [contradiction |]. simpl.
  assert (Hspan2 : spanWhile (fun c => negb (c =? NEWLINE)%N
                                       && negb (c =? RPAREN)%N)
                     (url ++ [RPAREN]) = url).
  { apply spanWhile_stop; [| reflexivity].
    apply Forall_forall. intros x Hx. apply andb_true_iff.
    split; apply negb_true_iff, N.eqb_neq; intros ->; contradiction. }
  rewrite Hspan2, drop_app_length.
  destruct url as [| u0 url']; [contradiction |]. reflexivity.
Qed.

Lemma formatLink_parts (p s q : str) (preferences : FormattingPreferences)
    (options : FormattingOptions) :
  s <> [] ->
  formatLink (p ++ s ++ q) {| from := len p; to := len p + len s |}
             preferences options
  = match tryUnwrapFullLink s with
    | Some fullyWrapped =>
        {| text := p ++ fullyWrapped ++ q;
           selection := {| from := len p; to := len p + len fullyWrapped |};
           changed := negb (streq (p ++ fullyWrapped ++ q) (p ++ s ++ q));
           change := Some {| cfrom := len p; cto := len p + len s;
                             insert := fullyWrapped |} |}
    | None =>
        match tryUnwrapLinkAroundSelection (p ++ s ++ q)
                {| from := len p; to := len p + len s |} with
        | Some surrounding => surrounding
        | None =>
            let url := default (lit "https://") (linkUrl options) in
            let markdown := linkMarkdown s url in
            {| text := p ++ markdown ++ q;
               selection := {| from := len p + 1; to := len p + 1 + len s |};
               changed := negb (streq (p ++ markdown ++ q) (p ++ s ++ q));
               change := Some {| cfrom := len p; cto := len p + len s;
                                 insert := markdown |} |}
        end
    end.
Proof.
  intros Hs. apply len_pos_of_ne_nil in Hs.
  pose proof (len_nonneg p) as Hp. pose proof (len_nonneg q) as Hq.
  unfold formatLink.
  rewrite resolveTargetSelection_nonempty;
    [| unfold selIn; simpl; rewrite !len_app; lia | simpl; lia].
  simpl from; simpl to.
  rewrite slice_mid.
  destruct (tryUnwrapFullLink s);
    [rewrite !replaceRange_split; reflexivity |].
  destruct (tryUnwrapLinkAroundSelection _ _); [reflexivity |].
  destruct (len p =? len p + len s) eqn:E; [lia |].
  rewrite !replaceRange_split. reflexivity.
Qed.

(** X4: a whole link selected, of the shape the engine itself writes, is
    replaced by its label, which stays selected. *)
Theorem formatLink_unwraps_whole_link (p label url q : str)
    (preferences : FormattingPreferences) (options : FormattingOptions) :
  label <> [] -> RBRACKET ∉ label ->
  url <> [] -> RPAREN ∉ url -> NEWLINE ∉ url ->
  let original := p ++ linkMarkdown label url ++ q in
  let r := applyCommandToText original
             {| from := len p; to := len p + len (linkMarkdown label url) |}
             link preferences options in
  text r = p ++ label ++ q
  /\ selection r = {| from := len p; to := len p + len label |}.
Proof.
  intros Hl Hlb Hu Hup Hun original r. subst r original.
  unfold applyCommandToText.
  rewrite formatLink_parts by (unfold linkMarkdown; discriminate).
  rewrite tryUnwrapFullLink_linkMarkdown by assumption.
  split; reflexivity.
Qed.

Lemma formatLink_unwraps_whole_link_witness :
  let r := applyCommandToText (lit "see [docs](https://x.y) now")
             {| from := 4; to := 23 |} link (mkPrefs word underscore) noOptions in
  text r = lit "see docs now" /\ selection r = {| from := 4; to := 8 |}.
Proof.
  apply (formatLink_unwraps_whole_link (lit "see ") (lit "docs")
           (lit "https://x.y") (lit " now") (mkPrefs word underscore) noOptions).
  - discriminate.
  - vm_compute. intros H. repeat (apply elem_of_cons in H as [H | H]; [discriminate H |]). inversion H.
  - discriminate.
  - vm_compute. intros H. repeat (apply elem_of_cons in H as [H | H]; [discriminate H |]). inversion H.
  - vm_compute. intros H. repeat (apply elem_of_cons in H as [H | H]; [discriminate H |]). inversion H.
Defined.

Lemma indexOfAux_here (pat s : str) (i : Z) :
  startsWith s pat = true -> indexOfAux pat s i = i.
Proof. intros H. destruct s; simpl; rewrite H; reflexivity. Qed.

Lemma indexOf_here (a pat b : str) :
  indexOf (a ++ pat ++ b) pat (len a) = len a.
Proof.
  unfold indexOf. pose proof (len_nonneg a). pose proof (len_nonneg (pat ++ b)).
  rewrite len_app.
  replace (Z.min (Z.max (len a) 0) (len a + len (pat ++ b))) with (len a) by lia.
  unfold len at 1. rewrite Nat2Z.id, drop_app_length.
  apply indexOfAux_here. unfold startsWith.
  apply bool_decide_eq_true. apply take_app_length.
Qed.

Lemma indexOfAux_skip (c : char) (u rest : str) (i : Z) :
  c ∉ u -> indexOfAux [c] (u ++ c :: rest) i = i + len u.
Proof.
  revert i. induction u as [| x u IH]; intros i Hc.
  - rewrite len_nil, Z.add_0_r. apply indexOfAux_here.
    unfold startsWith. apply bool_decide_eq_true. reflexivity.
  - apply not_elem_of_cons in Hc as (Hne & Hc).
    simpl. unfold startsWith at 1. simpl.
    rewrite bool_decide_eq_false_2 by congruence.
    rewrite IH by exact Hc. unfold len. simpl length. lia.
Qed.

Lemma indexOf_skip (a u rest : str) (c : char) :
  c ∉ u -> indexOf (a ++ u ++ c :: rest) [c] (len a) = len a + len u.
Proof.
  intros Hc. unfold indexOf.
  pose proof (len_nonneg a). pose proof (len_nonneg (u ++ c :: rest)).
  rewrite len_app.
  replace (Z.min (Z.max (len a) 0) (len a + len (u ++ c :: rest))) with (len a)
    by lia.
  unfold len at 1. rewrite Nat2Z.id, drop_app_length.
  apply indexOfAux_skip, Hc.
Qed.

(** A selection that is the label of a link is unwrapped to the bare label,
    the url ending at the first ")" after "](". *)
Lemma tryUnwrapLinkAroundSelection_label (p s url q : str) :
  RPAREN ∉ url ->
  tryUnwrapLinkAroundSelection (p ++ linkMarkdown s url ++ q)
    {| from := len p + 1; to := len p + 1 + len s |}
  = Some {| text := p ++ s ++ q;
            selection := {| from := len p; to := len p + len s |};
            changed := negb (streq (p ++ s ++ q) (p ++ linkMarkdown s url ++ q));
            change := Some {| cfrom := len p;
                              cto := len p + len (linkMarkdown s url);
                              insert := s |} |}.
Proof.
  intros Hurl.
  pose proof (len_nonneg p) as Hp. pose proof (len_nonneg s) as Hs.
  pose proof (len_nonneg url) as Hu.
  unfold tryUnwrapLinkAroundSelection. simpl from; simpl to.
  replace (len p + 1 - 1) with (len p) by lia.
  assert (Hopen : charAt (p ++ linkMarkdown s url ++ q) (len p) = Some LBRACKET).
  { replace (len p) with (len p + 0) at 1 by lia.
    rewrite charAt_suffix by lia. reflexivity. }
  rewrite Hopen.
  destruct (len p + 1 =? 0) eqn:E0; [lia |].
  replace (charIs (Some LBRACKET) [LBRACKET]) with true by reflexivity.
  cbn [negb orb].
  assert (Hlabel : indexOf (p ++ linkMarkdown s url ++ q) [RBRACKET; LPAREN]
                           (len p + 1 + len s) = len p + 1 + len s).
  { replace (p ++ linkMarkdown s url ++ q)
      with ((p ++ [LBRACKET] ++ s) ++ [RBRACKET; LPAREN] ++ (url ++ [RPAREN] ++ q))
      by (unfold linkMarkdown; rewrite <- !app_assoc; reflexivity).
    replace (len p + 1 + len s) with (len (p ++ [LBRACKET] ++ s))
      by (rewrite !len_app; unfold len at 2; simpl; lia).
    apply indexOf_here. }
  rewrite Hlabel, Z.eqb_refl. cbn [negb].
  assert (Hurlend : indexOf (p ++ linkMarkdown s url ++ q) [RPAREN]
                            (len p + 1 + len s + 2)
                    = len p + 1 + len s + 2 + len url).
  { replace (p ++ linkMarkdown s url ++ q)
      with ((p ++ [LBRACKET] ++ s ++ [RBRACKET; LPAREN]) ++ url ++ RPAREN :: q)
      by (unfold linkMarkdown; rewrite <- !app_assoc; reflexivity).
    replace (len p + 1 + len s + 2)
      with (len (p ++ [LBRACKET] ++ s ++ [RBRACKET; LPAREN]))
      by (rewrite !len_app; unfold len at 2 4; simpl; lia).
    apply indexOf_skip, Hurl. }
  rewrite Hurlend.
  destruct (len p + 1 + len s + 2 + len url =? -1) eqn:E1; [lia |].
  assert (Hsel : slice (p ++ linkMarkdown s url ++ q) (len p + 1)
                       (len p + 1 + len s) = s).
  { replace (p ++ linkMarkdown s url ++ q)
      with ((p ++ [LBRACKET]) ++ s ++ ([RBRACKET; LPAREN] ++ url ++ [RPAREN] ++ q))
      by (unfold linkMarkdown; rewrite <- !app_assoc; reflexivity).
    replace (len p + 1) with (len (p ++ [LBRACKET]))
      by (rewrite len_app; unfold len at 2; simpl; lia).
    apply slice_mid. }
  rewrite Hsel.
  replace (len p + 1 + len s + 2 + len url + 1)
    with (len p + len (linkMarkdown s url))
    by (rewrite len_linkMarkdown; lia).
  rewrite replaceRange_split. reflexivity.
Qed.

(** X5: link applied to a non-empty selection that it wraps, and then once
    more to the result, gives back the original text and the original
    selection, for a url without ")". *)
Theorem applyTwice_link_round_trip (original : str) (sel : TextSelection)
    (preferences : FormattingPreferences) (options : FormattingOptions) :
  let n := normalizeSelection sel (len original) in
  from n < to n ->
  RPAREN ∉ default (lit "https://") (linkUrl options) ->
  tryUnwrapFullLink (slice original (from n) (to n)) = None ->
  tryUnwrapLinkAroundSelection original n = None ->
  text (applyTwice original sel link preferences options) = original
  /\ selection (applyTwice original sel link preferences options) = n.
Proof.
  intros n. subst n. unfold applyTwice.
  rewrite <- (applyCommandToText_normalized original sel link preferences options).
  unfold applyCommandToText.
  pose proof (normalizeSelection_in sel (len original) (len_nonneg original))
    as (H0 & H1 & H2).
  destruct (normalizeSelection sel (len original)) as [f t]. simpl from; simpl to.
  simpl in H0, H1, H2.
  intros Hlt Hurl Hfull Hsur.
  pose proof (text_split original f t H0 H1 H2) as Hsplit.
  pose proof (len_slice original 0 f) as Hlp.
  pose proof (len_slice original f t H0 H1 H2) as Hls.
  rewrite Z.sub_0_r in Hlp. specialize (Hlp ltac:(lia) H0 ltac:(lia)).
  remember (slice original 0 f) as p eqn:Ep.
  remember (slice original f t) as s eqn:Es.
  remember (sliceFrom original t) as q eqn:Eq.
  clear Ep Es Eq.
  assert (Hs : s <> []).
  { intros E. rewrite E in Hls. unfold len in Hls; simpl in Hls. lia. }
  assert (Ht : t = len p + len s) by lia.
  subst original t f.
  rewrite formatLink_parts by exact Hs. rewrite Hfull, Hsur.
  cbn [text selection].
  set (url := default (lit "https://") (linkUrl options)) in *.
  replace (p ++ linkMarkdown s url ++ q)
    with ((p ++ [LBRACKET]) ++ s ++ ([RBRACKET; LPAREN] ++ url ++ [RPAREN] ++ q))
    by (unfold linkMarkdown; rewrite <- !app_assoc; reflexivity).
  replace (len p + 1) with (len (p ++ [LBRACKET]))
    by (rewrite len_app; unfold len at 2; simpl; lia).
  rewrite formatLink_parts by exact Hs. rewrite Hfull.
  replace ((p ++ [LBRACKET]) ++ s ++ ([RBRACKET; LPAREN] ++ url ++ [RPAREN] ++ q))
    with (p ++ linkMarkdown s url ++ q)
    by (unfold linkMarkdown; rewrite <- !app_assoc; reflexivity).
  replace (len (p ++ [LBRACKET])) with (len p + 1)
    by (rewrite len_app; unfold len at 3; simpl; lia).
  rewrite tryUnwrapLinkAroundSelection_label by exact Hurl.
  split; reflexivity.
Qed.

Lemma applyTwice_link_round_trip_witness :
  text (applyTwice (lit "see docs now") {| from := 4; to := 8 |} link
                   (mkPrefs word underscore) noOptions)
  = lit "see docs now"
  /\ selection (applyTwice (lit "see docs now") {| from := 4; to := 8 |} link
                           (mkPrefs word underscore) noOptions)
     = {| from := 4; to := 8 |}.
Proof.
  apply (applyTwice_link_round_trip (lit "see docs now") {| from := 4; to := 8 |}
           (mkPrefs word underscore) noOptions).
  - vm_compute. reflexivity.
  - vm_compute. intros H.
    repeat (apply elem_of_cons in H as [H | H]; [discriminate H |]). inversion H.
  - vm_compute. reflexivity.
  - vm_compute. reflexivity.
Defined.

(** ** The order in which ranges are processed *)

Lemma insertSorted_Sorted {A} (cmp : A -> A -> Z) (x : A) (l : list A) :
  (forall a b, 0 < cmp a b -> cmp b a <= 0) ->
  Sorted (fun a b => cmp a b <= 0) l ->
  Sorted (fun a b => cmp a b <= 0) (insertSorted cmp x l).
Proof.
  intros Htotal Hl. induction Hl as [| y l Hl IH Hhd]; simpl.
  - repeat constructor.
  - destruct (cmp x y <=? 0) eqn:E.
    + apply Z.leb_le in E. repeat constructor; assumption.
    + apply Z.leb_gt in E. constructor; [exact IH |].
      destruct Hhd as [| z l Hyz]; simpl.
      * constructor. apply Htotal, E.
      * destruct (cmp x z <=? 0); constructor; [apply Htotal, E | exact Hyz].
Qed.

Lemma sortBy_Sorted {A} (cmp : A -> A -> Z) (l : list A) :
  (forall a b, 0 < cmp a b -> cmp b a <= 0) ->
  Sorted (fun a b => cmp a b <= 0) (sortBy cmp l).
Proof.
  intros Htotal. induction l as [| x l IH]; simpl; [constructor |].
  apply insertSorted_Sorted; assumption.
Qed.

Lemma compareOrder_le (a b : OrderEntry) :
  compareOrder a b <= 0 <-> processedBefore a b.
Proof.
  unfold compareOrder, processedBefore.
  destruct (efrom a =? efrom b) eqn:E; simpl; lia.
Qed.

(** X6: the loop visits every range once, rightmost first: [order] holds
    one entry per selection range, each with the range that stands at its
    index, and each entry starts at or before the entry visited before it
    (at the same start, it ends at or before it). *)
Theorem orderOf_rightmost_first (view : EditorState) :
  Sorted processedBefore (orderOf view)
  /\ index <$> orderOf view ≡ₚ seq 0 (length (selectionRanges view))
  /\ forall e, e ∈ orderOf view ->
               selectionRanges view !! index e
               = Some {| from := efrom e; to := eto e |}.
Proof.
  split; [| split].
  - assert (H : Sorted (fun a b => compareOrder a b <= 0) (orderOf view)).
    { apply sortBy_Sorted. intros a b. unfold compareOrder.
      destruct (efrom a =? efrom b) eqn:E1; destruct (efrom b =? efrom a) eqn:E2;
        simpl; lia. }
    induction H as [| e l Hl IH Hhd]; constructor; [exact IH |].
    destruct Hhd; constructor. apply compareOrder_le. assumption.
  - unfold orderOf. rewrite sortBy_Permutation.
    rewrite (imap_entries_index _ 0%nat). reflexivity.
  - apply orderOf_lookup.
Qed.

(** ** What the loop keeps, beyond the guard *)

Section LoopFacts.

Variable mapPos : Change -> Z -> Z -> Z -> Z.
Variable command : FormatCommand.
Variable preferences : FormattingPreferences.
Variable options : FormattingOptions.

Local Abbreviation step := (loopStep mapPos command preferences options).

Lemma length_remapProcessed (c : Change) (n : Z) (processed : list nat)
    (rs : list TextSelection) :
  length (remapProcessed mapPos c n rs processed) = length rs.
Proof.
  unfold remapProcessed. revert rs.
  induction processed as [| j processed IH]; intros rs; simpl; [reflexivity |].
  rewrite IH. destruct (rs !! j); [apply length_insert | reflexivity].
Qed.

Lemma loopFacts_initial (view : EditorState) : loopFacts view (initialLoop view).
Proof.
  unfold loopFacts; simpl. repeat split; auto; try discriminate.
Qed.

Lemma loopFacts_step (view : EditorState) (st : LoopState) (entry : OrderEntry) :
  loopFacts view st -> loopFacts view (step st entry).
Proof.
  intros (Hlen & Htext & Hall & Hflag & Hfirst).
  destruct (ranges st !! index entry) as [current |] eqn:Hl.
  - destruct (Z_lt_le_dec (overlapGuard st) (to current)) as [Hgt | Hle].
    + rewrite (loopStep_skip _ _ _ _ st entry current Hl Hgt).
      repeat split; auto; apply Hflag.
    + destruct (loopStep_process mapPos command preferences options st entry
                  current Hl Hle) as (c & Hc & ->).
      destruct (applyCommandToText_wf (nextText st) current command preferences
                  options) as ((c' & Hc' & Hc0 & Hc1 & Hc2 & Hrepl) & _).
      rewrite Hc in Hc'. injection Hc' as <-.
      unfold loopFacts; simpl. repeat split.
      * rewrite length_remapProcessed, length_insert. exact Hlen.
      * rewrite fold_left_app. simpl. rewrite <- Htext. exact Hrepl.
      * apply Forall_app. split; [exact Hall |]. repeat constructor; lia.
      * intros _ E. destruct (changes st); discriminate E.
      * destruct (changes st) as [| first rest]; simpl; [| exact Hfirst].
        rewrite <- Hfirst. exact Hc2.
  - unfold loopStep. rewrite Hl. repeat split; auto; apply Hflag.
Qed.

Lemma loopFacts_fold (view : EditorState) (es : list OrderEntry)
    (st : LoopState) :
  loopFacts view st -> loopFacts view (fold_left step es st).
Proof.
  revert st. induction es as [| e es IH]; intros st H; simpl; [exact H |].
  apply IH, loopFacts_step, H.
Qed.

Lemma loopFacts_run (view : EditorState) :
  loopFacts view (runLoop mapPos command preferences options view).
Proof. apply loopFacts_fold, loopFacts_initial. Qed.

End LoopFacts.

(** X7: whatever the ranges are, the text the loop ends with is the
    document with the committed edits applied one after the other in the
    order they were committed; the loop keeps one range per selection range;
    and a change is flagged exactly when an edit was committed. *)
Theorem runLoop_text_is_edits_applied
    (mapPos : Change -> Z -> Z -> Z -> Z) (command : FormatCommand)
    (preferences : FormattingPreferences) (options : FormattingOptions)
    (view : EditorState) :
  let st := runLoop mapPos command preferences options view in
  nextText st = fold_left applyChange (changes st) (doc view)
  /\ length (ranges st) = length (selectionRanges view)
  /\ (hasDocumentChange st = true <-> changes st <> []).
Proof.
  intros st.
  destruct (loopFacts_run mapPos command preferences options view)
    as (Hlen & Htext & _ & Hflag & _).
  auto.
Qed.

Section LoopOrder.

Variable mapPos : Change -> Z -> Z -> Z -> Z.
Variable command : FormatCommand.
Variable preferences : FormattingPreferences.
Variable options : FormattingOptions.

Local Abbreviation step := (loopStep mapPos command preferences options).

Lemma normalizeSelection_to_le (s : TextSelection) (n : Z) :
  0 <= from s -> from s <= to s -> 0 <= n ->
  to (normalizeSelection s n) <= to s.
Proof.
  intros H0 H1 Hn. unfold normalizeSelection, clamp.
  destruct (Z.max 0 (Z.min n (from s)) <=? Z.max 0 (Z.min n (to s))) eqn:E;
    simpl; lia.
Qed.

(** When the loop reaches an entry, the range at its index is still the one
    of the selection set. *)
Lemma current_is_original (view : EditorState) (done rest : list OrderEntry)
    (entry : OrderEntry) :
  orderOf view = done ++ entry :: rest ->
  ranges (fold_left step done (initialLoop view)) !! index entry
  = Some {| from := efrom entry; to := eto entry |}.
Proof.
  intros Horder.
  assert (Hinv : loopInvariant view (fold_left step done (initialLoop view)))
    by apply loopInvariant_fold, loopInvariant_initial.
  pose proof (orderOf_NoDup view) as Hnd.
  rewrite Horder, fmap_app, fmap_cons in Hnd.
  apply NoDup_app in Hnd as (_ & Hdone & _).
  destruct Hinv as (_ & Hr). rewrite Hr.
  - apply orderOf_lookup. rewrite Horder. apply elem_of_app. right. left.
  - intros H. apply processedIndices_fold in H as [H | H].
    + inversion H.
    + apply (Hdone _ H). left.
Qed.

Lemma leastStart_le (cs : list Change) :
  Forall (fun c => leastStart cs <= cfrom c) cs
  /\ leastStart cs <= MAX_SAFE_INTEGER.
Proof.
  induction cs as [| c cs IH] using rev_ind.
  - split; [constructor | reflexivity].
  - destruct IH as (IH & Hmax). rewrite leastStart_snoc. split; [| lia].
    apply Forall_app. split.
    + eapply Forall_impl; [exact IH |]. simpl. intros x Hx. lia.
    + repeat constructor. lia.
Qed.

Lemma startsDescend_prefix (view : EditorState) (done rest : list OrderEntry) :
  rangesInDoc view ->
  orderOf view = done ++ rest ->
  startsDescend (changes (fold_left step done (initialLoop view))).
Proof.
  intros (Hin & Hmax). revert rest.
  induction done as [| entry done IH] using rev_ind; intros rest Horder.
  - constructor.
  - rewrite <- app_assoc in Horder. simpl in Horder.
    specialize (IH _ Horder). rewrite fold_left_app. simpl.
    pose proof (current_is_original view done rest entry Horder) as Hcur.
    set (st := fold_left step done (initialLoop view)) in *.
    set (current := {| from := efrom entry; to := eto entry |}) in *.
    assert (Hvalid : selIn (len (doc view)) current).
    { assert (Hl : selectionRanges view !! index entry = Some current).
      { apply orderOf_lookup. rewrite Horder. apply elem_of_app. right. left. }
      eapply Forall_lookup_1 in Hin; [exact Hin | exact Hl]. }
    destruct (Z_lt_le_dec (overlapGuard st) (to current)) as [Hgt | Hle].
    + rewrite (loopStep_skip _ _ _ _ st entry current Hcur Hgt). exact IH.
    + destruct (loopStep_process mapPos command preferences options st entry
                  current Hcur Hle) as (c & Hc & ->).
      simpl. unfold startsDescend. apply StronglySorted_app.
      split; [| split; [exact IH | repeat constructor]].
      intros x y Hx Hy. apply list_elem_of_singleton in Hy as ->.
      pose proof (applyCommandToText_edit_covers _ _ _ _ _ c Hc)
        as (Hcov & _).
      assert (Hinv : loopInvariant view st)
        by apply loopInvariant_fold, loopInvariant_initial.
      destruct Hinv as (Hguard & _).
      destruct (leastStart_le (changes st)) as (Hleast & _).
      rewrite Forall_forall in Hleast. specialize (Hleast x Hx).
      pose proof (normalizeSelection_in current (len (nextText st))
                    (len_nonneg (nextText st))) as (Hn0 & Hn1 & Hn2).
      assert (Hnto : to (normalizeSelection current (len (nextText st)))
                     <= to current).
      { destruct Hvalid as (Hv0 & Hv1 & _).
        apply normalizeSelection_to_le; [exact Hv0 | exact Hv1 | apply len_nonneg]. }
      lia.
Qed.

Lemma changes_grow (es : list OrderEntry) (st : LoopState) :
  changes st <> [] -> changes (fold_left step es st) <> [].
Proof.
  revert st. induction es as [| e es IH]; intros st H; simpl; [exact H |].
  apply IH.
  destruct (ranges st !! index e) as [current |] eqn:Hl.
  - destruct (Z_lt_le_dec (overlapGuard st) (to current)) as [Hgt | Hle].
    + rewrite (loopStep_skip _ _ _ _ st e current Hl Hgt). exact H.
    + destruct (loopStep_process mapPos command preferences options st e
                  current Hl Hle) as (c & _ & ->).
      simpl. destruct (changes st); discriminate.
  - unfold loopStep. rewrite Hl. exact H.
Qed.

Lemma runLoop_commits (view : EditorState) :
  rangesInDoc view -> selectionRanges view <> [] ->
  changes (runLoop mapPos command preferences options view) <> [].
Proof.
  intros (Hin & Hmax) Hne. unfold runLoop.
  destruct (orderOf view) as [| entry rest] eqn:Horder.
  - exfalso. apply Hne.
    assert (Hp : index <$> orderOf view ≡ₚ seq 0 (length (selectionRanges view))).
    { unfold orderOf. rewrite sortBy_Permutation.
      rewrite (imap_entries_index _ 0%nat). reflexivity. }
    rewrite Horder in Hp. apply Permutation_length in Hp.
    rewrite length_seq in Hp. simpl in Hp.
    destruct (selectionRanges view); [reflexivity | discriminate].
  - simpl. apply changes_grow.
    pose proof (current_is_original view [] rest entry Horder) as Hcur.
    simpl in Hcur.
    set (current := {| from := efrom entry; to := eto entry |}) in *.
    assert (Hvalid : selIn (len (doc view)) current).
    { assert (Hl : selectionRanges view !! index entry = Some current).
      { apply orderOf_lookup. rewrite Horder. left. }
      eapply Forall_lookup_1 in Hin; [exact Hin | exact Hl]. }
    destruct Hvalid as (_ & _ & Hto).
    destruct (loopStep_process mapPos command preferences options
                (initialLoop view) entry current Hcur) as (c & _ & ->).
    + unfold current in *. simpl in *. lia.
    + simpl. discriminate.
Qed.

End LoopOrder.

(** X8: when the ranges are offsets of the document, the committed edits
    start at offsets that never increase, and a selection set that is not
    empty always ends in a dispatch (or in the range error of the change
    set), never in "no change". *)
Theorem runLoop_starts_descend
    (mapPos : Change -> Z -> Z -> Z -> Z) (command : FormatCommand)
    (preferences : FormattingPreferences) (options : FormattingOptions)
    (view : EditorState) :
  rangesInDoc view ->
  startsDescend (changes (runLoop mapPos command preferences options view))
  /\ (selectionRanges view <> [] ->
      applyFormattingToEditor mapPos command preferences options view
      <> NoChange).
Proof.
  intros Hin. split.
  - unfold runLoop. apply (startsDescend_prefix _ _ _ _ view _ []); [exact Hin |].
    rewrite app_nil_r. reflexivity.
  - intros Hne. unfold applyFormattingToEditor.
    pose proof (runLoop_commits mapPos command preferences options view Hin Hne)
      as Hc.
    destruct (loopFacts_run mapPos command preferences options view)
      as (_ & _ & _ & Hflag & _).
    apply Hflag in Hc. rewrite Hc. simpl.
    destruct (forallb _ _); discriminate.
Qed.

Lemma runLoop_starts_descend_witness :
  let view := {| doc := lit "one two three";
                 selectionRanges := [{| from := 0; to := 3 |};
                                     {| from := 4; to := 7 |}];
                 mainIndex := 0 |} in
  applyFormattingToEditor mapPosSingle bold (mkPrefs word underscore)
                          noOptions view
  <> NoChange.
Proof.
  intros view.
  apply (runLoop_starts_descend mapPosSingle bold (mkPrefs word underscore)
           noOptions view).
  - split.
    + repeat constructor; simpl; vm_compute; discriminate.
    + vm_compute. discriminate.
  - discriminate.
Defined.

(** ** The combined mutation *)

Lemma insertSorted_last {A} (cmp : A -> A -> Z) (x : A) (l : list A) :
  Forall (fun y => 0 < cmp x y) l -> insertSorted cmp x l = l ++ [x].
Proof.
  induction 1 as [| y l Hy Hl IH]; simpl; [reflexivity |].
  destruct (cmp x y <=? 0) eqn:E; [lia |]. rewrite IH. reflexivity.
Qed.

(** Edits committed each to the left of the earlier ones are sorted by
    reversing the order of commitment. *)
Lemma sortBy_leftOfEarlier (cs : list Change) :
  StronglySorted leftOfEarlier cs -> sortBy compareChange cs = rev cs.
Proof.
  induction 1 as [| c cs Hcs IH Hc]; [reflexivity |].
  unfold sortBy in *. simpl. rewrite IH. apply insertSorted_last.
  apply Forall_rev. eapply Forall_impl; [exact Hc |].
  intros y (_ & Hy). unfold compareChange.
  destruct (cfrom c - cfrom y =? 0) eqn:E; simpl; lia.
Qed.

Lemma separated_rev (cs : list Change) :
  StronglySorted leftOfEarlier cs -> separated (rev cs).
Proof.
  induction 1 as [| c cs Hcs IH Hc]; simpl; [constructor |].
  apply StronglySorted_app. split; [| split; [exact IH | repeat constructor]].
  intros x y Hx Hy. apply list_elem_of_singleton in Hy as ->.
  apply list_elem_of_In, in_rev, list_elem_of_In in Hx.
  rewrite Forall_forall in Hc. apply (Hc x Hx).
Qed.

Lemma separated_nonOverlapping (cs : list Change) :
  separated cs -> nonOverlapping cs = true.
Proof.
  induction 1 as [| a cs Hcs IH Ha]; [reflexivity |].
  destruct cs as [| b rest]; [reflexivity |].
  change (nonOverlapping (a :: b :: rest))
    with ((cto a <=? cfrom b) && nonOverlapping (b :: rest)).
  rewrite IH, andb_true_r. apply Z.leb_le.
  apply Forall_cons in Ha as (Hab & _). exact Hab.
Qed.

(** Separated descriptors applied one after the other from the right give
    the document of the combined mutation. *)
Lemma applyChangeSet_from_right (d : str) (cs : list Change) (pos : Z) :
  0 <= pos -> pos <= len d ->
  separated cs ->
  Forall (fun c => pos <= cfrom c /\ cfrom c <= cto c /\ cto c <= len d) cs ->
  foldr (fun c t => applyChange t c) d cs
  = slice d 0 pos ++ applyChangeSet d pos cs.
Proof.
  intros H0 Hlen Hsep. revert pos H0 Hlen.
  induction Hsep as [| c cs Hcs IH Hc]; intros pos H0 Hlen Hall; simpl.
  - rewrite (text_split d pos pos) at 1 by lia.
    unfold slice at 2. rewrite Z.sub_diag. rewrite take_0. reflexivity.
  - apply Forall_cons in Hall as ((Hc0 & Hc1 & Hc2) & Hall).
    rewrite (IH (cto c)); [| lia | lia |].
    + unfold applyChange.
      rewrite (slice_split d 0 (cfrom c) (cto c)) by lia.
      rewrite <- app_assoc.
      pose proof (len_slice d 0 (cfrom c)) as Hlp.
      rewrite Z.sub_0_r in Hlp. specialize (Hlp ltac:(lia) ltac:(lia) ltac:(lia)).
      pose proof (len_slice d (cfrom c) (cto c)) as Hls.
      specialize (Hls ltac:(lia) ltac:(lia) ltac:(lia)).
      rewrite <- Hlp at 3.
      replace (cto c) with (len (slice d 0 (cfrom c)) + len (slice d (cfrom c) (cto c)))
        at 3 by lia.
      rewrite replaceRange_split.
      rewrite (slice_split d 0 pos (cfrom c)) by lia.
      rewrite <- !app_assoc. reflexivity.
    + rewrite Forall_forall in Hc, Hall |- *. intros x Hx.
      specialize (Hc x Hx). specialize (Hall x Hx). lia.
Qed.

(** X9: when every committed edit ends at or before the start of the edits
    committed before it, and starts strictly before them, the descriptors
    handed to the change set are sorted, valid for the document and do not
    overlap, the final change set is accepted, and the combined mutation,
    applied to the document, gives exactly the text the loop computed. *)
Theorem combined_mutation_gives_nextText
    (mapPos : Change -> Z -> Z -> Z -> Z) (command : FormatCommand)
    (preferences : FormattingPreferences) (options : FormattingOptions)
    (view : EditorState) :
  let st := runLoop mapPos command preferences options view in
  StronglySorted leftOfEarlier (changes st) ->
  sortedChanges st = rev (changes st)
  /\ nonOverlapping (sortedChanges st) = true
  /\ forallb (validChange (len (doc view))) (sortedChanges st) = true
  /\ applyChangeSet (doc view) 0 (sortedChanges st) = nextText st
  /\ applyFormattingToEditor mapPos command preferences options view
     <> RangeError.
Proof.
  intros st Hleft.
  destruct (loopFacts_run mapPos command preferences options view)
    as (_ & Htext & Hall & _ & Hfirst).
  fold st in Htext, Hall, Hfirst.
  assert (Hsorted : sortedChanges st = rev (changes st))
    by (apply sortBy_leftOfEarlier, Hleft).
  assert (Hvalid : Forall (fun c => 0 <= cfrom c /\ cfrom c <= cto c
                                    /\ cto c <= len (doc view)) (changes st)).
  { destruct (changes st) as [| first rest]; [constructor |].
    apply StronglySorted_inv in Hleft as (_ & Hrest).
    apply Forall_cons in Hall as ((Hf0 & Hf1) & Hall).
    constructor; [lia |].
    rewrite Forall_forall in Hrest, Hall |- *. intros x Hx.
    destruct (Hrest x Hx) as (Hx1 & Hx2). specialize (Hall x Hx). lia. }
  assert (Hok : forallb (validChange (len (doc view))) (sortedChanges st) = true).
  { rewrite Hsorted. apply forallb_forall. intros x Hx.
    apply in_rev in Hx. apply list_elem_of_In in Hx.
    rewrite Forall_forall in Hvalid. specialize (Hvalid x Hx).
    unfold validChange. apply negb_true_iff.
    destruct (cfrom x >? cto x) eqn:E1; [lia |].
    destruct (cfrom x <? 0) eqn:E2; [lia |].
    destruct (cto x >? len (doc view)) eqn:E3; [lia | reflexivity]. }
  split; [exact Hsorted |]. split; [| split; [exact Hok | split]].
  - rewrite Hsorted. apply separated_nonOverlapping, separated_rev, Hleft.
  - rewrite Htext, Hsorted, <- fold_left_rev_right.
    rewrite (applyChangeSet_from_right (doc view) (rev (changes st)) 0);
      [| lia | apply len_nonneg | apply separated_rev, Hleft |].
    + unfold slice at 1. rewrite Z.sub_diag, take_0. reflexivity.
    + apply Forall_rev. exact Hvalid.
  - unfold applyFormattingToEditor. fold st.
    destruct (negb (hasDocumentChange st)); [discriminate |].
    rewrite Hok. discriminate.
Qed.

Lemma combined_mutation_gives_nextText_witness :
  let view := {| doc := lit "one two three four five six";
                 selectionRanges := [{| from := 0; to := 3 |};
                                     {| from := 19; to := 23 |}];
                 mainIndex := 0 |} in
  let st := runLoop mapPosSingle bold (mkPrefs word underscore) noOptions view in
  applyChangeSet (doc view) 0 (sortedChanges st)
  = lit "**one** two three four **five** six".
Proof.
  intros view st.
  destruct (combined_mutation_gives_nextText mapPosSingle bold
              (mkPrefs word underscore) noOptions view)
    as (_ & _ & _ & Happly & _).
  - vm_compute. repeat constructor; vm_compute; discriminate.
  - fold st in Happly. rewrite Happly. vm_compute. reflexivity.
Defined.

(** X10: with one selection range, the orchestrator dispatches exactly what
    the engine returns for that range on the document: its one edit
    descriptor and its resulting selection, with the main index kept. *)
Theorem applyFormattingToEditor_single_range
    (mapPos : Change -> Z -> Z -> Z -> Z) (command : FormatCommand)
    (preferences : FormattingPreferences) (options : FormattingOptions)
    (d : str) (r : TextSelection) (main : nat) :
  selIn (len d) r -> len d <= MAX_SAFE_INTEGER ->
  let result := applyCommandToText d r command preferences options in
  exists c,
    change result = Some c
    /\ applyFormattingToEditor mapPos command preferences options
         {| doc := d; selectionRanges := [r]; mainIndex := main |}
       = Dispatched [c] [selection result] main.
Proof.
  intros (H0 & H1 & H2) Hmax result.
  set (view := {| doc := d; selectionRanges := [r]; mainIndex := main |}).
  set (entry := {| efrom := from r; eto := to r; index := 0 |}).
  assert (Hcur : ranges (initialLoop view) !! index entry = Some r) by reflexivity.
  destruct (loopStep_process mapPos command preferences options
              (initialLoop view) entry r Hcur) as (c & Hc & Hstep).
  { simpl. lia. }
  exists c. split; [exact Hc |].
  destruct (applyCommandToText_wf d r command preferences options)
    as ((c' & Hc' & Hc0 & Hc1 & Hc2 & _) & _).
  simpl in Hc. fold result in Hc. fold result in Hc'.
  rewrite Hc in Hc'. injection Hc' as <-.
  unfold applyFormattingToEditor, runLoop.
  change (orderOf view) with [entry]. simpl fold_left.
  rewrite Hstep. unfold sortedChanges. simpl.
  unfold validChange.
  destruct (cfrom c >? cto c) eqn:E1; [lia |].
  destruct (cfrom c <? 0) eqn:E2; [lia |].
  destruct (cto c >? len d) eqn:E3; [lia |].
  reflexivity.
Qed.

Lemma applyFormattingToEditor_single_range_witness :
  exists c,
    change (applyCommandToText (lit "A paragraph") {| from := 4; to := 4 |}
              italic (mkPrefs word underscore) noOptions) = Some c
    /\ applyFormattingToEditor mapPosSingle italic (mkPrefs word underscore)
         noOptions
         {| doc := lit "A paragraph";
            selectionRanges := [{| from := 4; to := 4 |}];
            mainIndex := 0 |}
       = Dispatched [c]
           [selection (applyCommandToText (lit "A paragraph")
                         {| from := 4; to := 4 |} italic
                         (mkPrefs word underscore) noOptions)] 0.
Proof.
  apply (applyFormattingToEditor_single_range mapPosSingle italic
           (mkPrefs word underscore) noOptions (lit "A paragraph")
           {| from := 4; to := 4 |} 0%nat).
  - unfold selIn. simpl. vm_compute. repeat split; discriminate.
  - vm_compute. discriminate.
Defined.

(** ** Writing a grid back and parsing it again *)

Lemma splitOn_none (sep : char) (s : str) : sep ∉ s -> splitOn sep s = [s].
Proof.
  induction s as [| c s IH]; intros H; simpl; [reflexivity |].
  apply not_elem_of_cons in H as (Hne & H).
  destruct (c =? sep)%N eqn:E; [apply N.eqb_eq in E; congruence |].
  rewrite IH by exact H. reflexivity.
Qed.

Lemma splitOn_app_sep (sep : char) (p rest : str) :
  sep ∉ p -> splitOn sep (p ++ sep :: rest) = p :: splitOn sep rest.
Proof.
  induction p as [| c p IH]; intros H; simpl.
  - rewrite N.eqb_refl. reflexivity.
  - apply not_elem_of_cons in H as (Hne & H).
    destruct (c =? sep)%N eqn:E; [apply N.eqb_eq in E; congruence |].
    rewrite IH by exact H. reflexivity.
Qed.

(** Splitting what was joined gives the parts back, when there is a part
    and no part holds the separator. *)
Lemma splitOn_join (sep : char) (parts : list str) :
  parts <> [] -> Forall (fun p => sep ∉ p) parts ->
  splitOn sep (join [sep] parts) = parts.
Proof.
  intros Hne Hall. induction Hall as [| p parts Hp Hall IH]; [contradiction |].
  destruct parts as [| p' parts'].
  - simpl. apply splitOn_none, Hp.
  - change (join [sep] (p :: p' :: parts'))
      with (p ++ [sep] ++ join [sep] (p' :: parts')).
    set (rest := join [sep] (p' :: parts')) in *.
    change (p ++ [sep] ++ rest) with (p ++ sep :: rest).
    rewrite splitOn_app_sep by exact Hp.
    rewrite IH by discriminate. reflexivity.
Qed.

Lemma elem_of_join (c : char) (sep : str) (parts : list str) :
  c ∈ join sep parts -> c ∈ sep \/ exists p, p ∈ parts /\ c ∈ p.
Proof.
  induction parts as [| p parts IH]; simpl.
  - intros H. inversion H.
  - destruct parts as [| p' parts'].
    + intros H. right. exists p. split; [left | exact H].
    + rewrite !elem_of_app. intros [H | [H | H]].
      * right. exists p. split; [left | exact H].
      * left. exact H.
      * destruct (IH H) as [Hs | (x & Hx & Hc)]; [left; exact Hs |].
        right. exists x. split; [right; exact Hx | exact Hc].
Qed.

Lemma trimStart_keep (c : char) (s : str) :
  isTrimmed c = false -> trimStart (c :: s) = c :: s.
Proof. intros H. simpl. rewrite H. reflexivity. Qed.

(** A text between two code units that are not white space is trimmed
    already. *)
Lemma trim_framed (c1 c2 : char) (s : str) :
  isTrimmed c1 = false -> isTrimmed c2 = false ->
  trim (c1 :: s ++ [c2]) = c1 :: s ++ [c2].
Proof.
  intros H1 H2. unfold trim. rewrite trimStart_keep by exact H1.
  change (c1 :: s ++ [c2]) with ((c1 :: s) ++ [c2]).
  rewrite rev_app_distr.
  change (rev [c2] ++ rev (c1 :: s)) with (c2 :: rev (c1 :: s)).
  rewrite trimStart_keep by exact H2.
  change (rev (c2 :: rev (c1 :: s))) with (rev (rev (c1 :: s)) ++ [c2]).
  rewrite rev_involutive. reflexivity.
Qed.

Lemma trimStart_snoc_space (s : str) :
  trimStart (s ++ [SPACE])
  = match trimStart s with
    | [] => []
    | c :: t => (c :: t) ++ [SPACE]
    end.
Proof.
  induction s as [| c s IH]; simpl; [reflexivity |].
  destruct (isTrimmed c); [exact IH | reflexivity].
Qed.

(** Padding a cell with one space on each side does not change what
    trimming leaves of it. *)
Lemma trim_pad (s : str) : trim (pad s) = trim s.
Proof.
  unfold trim, pad.
  change (trimStart ([SPACE] ++ s ++ [SPACE])) with (trimStart (s ++ [SPACE])).
  rewrite trimStart_snoc_space.
  destruct (trimStart s) as [| c t]; [reflexivity |].
  rewrite rev_app_distr.
  change (rev [SPACE] ++ rev (c :: t)) with (SPACE :: rev (c :: t)).
  reflexivity.
Qed.

Lemma parseTableRow_line (cells : list str) :
  cells <> [] -> Forall (fun cell => PIPE ∉ cell) cells ->
  parseTableRow ([PIPE] ++ join [PIPE] cells ++ [PIPE]) = trim <$> cells.
Proof.
  intros Hne Hall. unfold parseTableRow. simpl app.
  rewrite trim_framed by reflexivity.
  set (body := join [PIPE] cells).
  assert (Hstart : startsWith (PIPE :: body ++ [PIPE]) [PIPE] = true)
    by (unfold startsWith; apply bool_decide_eq_true; reflexivity).
  rewrite Hstart.
  assert (Hfrom : sliceFrom (PIPE :: body ++ [PIPE]) 1 = body ++ [PIPE]).
  { change (PIPE :: body ++ [PIPE]) with ([PIPE] ++ body ++ [PIPE]).
    change 1 with (len [PIPE]). apply sliceFrom_suffix. }
  rewrite Hfrom.
  assert (Hend : endsWith (body ++ [PIPE]) [PIPE] = true).
  { unfold endsWith. rewrite length_app. simpl length.
    apply andb_true_iff. split; [apply Nat.leb_le; lia |].
    apply bool_decide_eq_true.
    replace (length body + 1 - 1)%nat with (length body) by lia.
    apply drop_app_length. }
  rewrite Hend.
  assert (Hcut : slice (body ++ [PIPE]) 0 (-1) = body).
  { unfold slice, relIndex. rewrite len_app. change (len [PIPE]) with 1.
    pose proof (len_nonneg body) as Hb. simpl.
    replace (Z.max (len body + 1 + -1) 0) with (len body) by lia.
    replace (Z.min 0 (len body + 1)) with 0 by lia.
    rewrite Z.sub_0_r. simpl. unfold len. rewrite Nat2Z.id.
    apply take_app_length. }
  rewrite Hcut. unfold body. rewrite splitOn_join by assumption. reflexivity.
Qed.

Lemma filter_all {A} (P : A -> Prop) `{forall x, Decision (P x)} (l : list A) :
  Forall P l -> filter P l = l.
Proof.
  induction 1 as [| x l Hx Hl IH]; [reflexivity |].
  rewrite filter_cons_True by exact Hx. rewrite IH. reflexivity.
Qed.

Lemma cleanCell_pad (cell : str) : cleanCell cell -> cleanCell (pad cell).
Proof.
  intros (Hp & Hn). unfold pad, cleanCell.
  split; intros H; apply elem_of_app in H as [H | H];
    try (apply list_elem_of_singleton in H; discriminate H);
    apply elem_of_app in H as [H | H]; try contradiction;
    apply list_elem_of_singleton in H; discriminate H.
Qed.

Lemma cleanCell_sepCell (a : Alignment) : cleanCell (sepCell a).
Proof.
  destruct a; split; vm_compute; intros H;
    repeat (apply elem_of_cons in H as [H | H]; [discriminate H |]);
    inversion H.
Qed.

Lemma cleanCell_cellOr (row : list str) (i : nat) :
  Forall cleanCell row -> cleanCell (cellOr row i).
Proof.
  intros Hrow. unfold cellOr. destruct (row !! i) as [cell |] eqn:E; simpl.
  - eapply Forall_lookup_1; eauto.
  - split; intros H; inversion H.
Qed.

(** A table line made of clean cells between pipes holds no line feed and
    is not blank. *)
Lemma tableLine_ok (cells : list str) :
  Forall cleanCell cells ->
  (NEWLINE ∉ ([PIPE] ++ join [PIPE] cells ++ [PIPE]))
  /\ 0 < len (trim ([PIPE] ++ join [PIPE] cells ++ [PIPE])).
Proof.
  intros Hcells. split.
  - intros H. apply elem_of_app in H as [H | H];
      [apply list_elem_of_singleton in H; discriminate H |].
    apply elem_of_app in H as [H | H];
      [| apply list_elem_of_singleton in H; discriminate H].
    apply elem_of_join in H as [H | (cell & Hcell & H)];
      [apply list_elem_of_singleton in H; discriminate H |].
    rewrite Forall_forall in Hcells. destruct (Hcells cell Hcell) as (_ & Hn).
    contradiction.
  - simpl app. rewrite trim_framed by reflexivity.
    unfold len. simpl length. lia.
Qed.

Lemma parseTableRow_cells (cells : list str) :
  cells <> [] -> Forall cleanCell cells ->
  parseTableRow ([PIPE] ++ join [PIPE] cells ++ [PIPE]) = trim <$> cells.
Proof.
  intros Hne Hall. apply parseTableRow_line; [exact Hne |].
  eapply Forall_impl; [exact Hall |]. intros cell (Hp & _). exact Hp.
Qed.

(** X11: the markup the widget writes for a grid is parsed back into the
    grid the widget renders: the trimmed headers, for every row one trimmed
    cell per header, and the same alignments, provided there is a header and
    an alignment and no cell holds a pipe or a line feed. *)
Theorem parseTableText_reconstructMarkdown (hs : list str)
    (rs : list (list str)) (aligns : list Alignment) :
  hs <> [] -> aligns <> [] ->
  Forall cleanCell hs -> Forall (Forall cleanCell) rs ->
  let grid := renderGrid {| headers := hs; rows := rs; alignments := aligns |} in
  parseTableText (reconstructMarkdown hs rs aligns)
  = Some {| headers := thead grid; rows := tbody grid; alignments := aligns |}.
Proof.
  intros Hhs Haligns Hclean Hrows grid. subst grid.
  unfold reconstructMarkdown, parseTableText, tableLines.
  set (headerCells := pad <$> hs).
  set (sepCells := sepCell <$> aligns).
  set (line := fun cells : list str => [PIPE] ++ join [PIPE] cells ++ [PIPE]).
  change ([PIPE] ++ join [PIPE] headerCells ++ [PIPE]) with (line headerCells).
  change ([PIPE] ++ join [PIPE] sepCells ++ [PIPE]) with (line sepCells).
  change ((fun row => [PIPE] ++ join [PIPE] (rowCells hs row) ++ [PIPE]) <$> rs)
    with ((fun row => line (rowCells hs row)) <$> rs).
  assert (Hhc : Forall cleanCell headerCells)
    by (apply Forall_fmap; eapply Forall_impl; [exact Hclean |];
        intros; apply cleanCell_pad; assumption).
  assert (Hsc : Forall cleanCell sepCells)
    by (apply Forall_fmap, Forall_forall; intros; apply cleanCell_sepCell).
  assert (Hrc : forall row, row ∈ rs -> Forall cleanCell (rowCells hs row)).
  { intros row Hrow. unfold rowCells. apply Forall_fmap, Forall_forall.
    intros i _. simpl. apply cleanCell_pad, cleanCell_cellOr.
    rewrite Forall_forall in Hrows. apply Hrows, Hrow. }
  set (lines := line headerCells :: line sepCells
                :: ((fun row => line (rowCells hs row)) <$> rs)).
  assert (Hlines : Forall (fun l => (NEWLINE ∉ l) /\ 0 < len (trim l)) lines).
  { unfold lines. repeat apply Forall_cons_2.
    - apply tableLine_ok, Hhc.
    - apply tableLine_ok, Hsc.
    - apply Forall_fmap, Forall_forall. intros row Hrow.
      apply tableLine_ok, Hrc, Hrow. }
  rewrite splitOn_join;
    [| discriminate
     | eapply Forall_impl; [exact Hlines |]; intros l (Hn & _); exact Hn].
  rewrite filter_all
    by (eapply Forall_impl; [exact Hlines |]; intros l (_ & Hb); exact Hb).
  unfold lines.
  assert (Hh : parseTableRow (line headerCells) = trim <$> headerCells).
  { apply parseTableRow_cells; [| exact Hhc].
    unfold headerCells. destruct hs; [contradiction | discriminate]. }
  assert (Hs : parseTableRow (line sepCells) = trim <$> sepCells).
  { apply parseTableRow_cells; [| exact Hsc].
    unfold sepCells. destruct aligns; [contradiction | discriminate]. }
  rewrite !Hh, !Hs.
  unfold headerCells at 1. rewrite length_fmap, length_fmap.
  destruct (length hs =? 0)%nat eqn:E0.
  { apply Nat.eqb_eq in E0. destruct hs; [contradiction | discriminate]. }
  assert (Hcheck : forallb (fun cell => alignCellOk (trim cell))
                           (trim <$> sepCells) = true).
  { apply forallb_forall. intros cell Hcell.
    apply list_elem_of_In, list_elem_of_fmap in Hcell as (c & -> & Hc).
    apply list_elem_of_fmap in Hc as (a & -> & _).
    destruct a; vm_compute; reflexivity. }
  rewrite Hcheck. simpl negb. cbv iota. f_equal. unfold renderGrid; simpl.
  f_equal.
  - unfold headerCells. rewrite <- list_fmap_compose.
    apply list_fmap_ext. intros i x _. simpl. apply trim_pad.
  - rewrite <- list_fmap_compose.
    apply list_fmap_ext. intros i row Hrow. simpl.
    unfold line. rewrite parseTableRow_cells.
    + unfold rowCells. rewrite <- list_fmap_compose.
      apply list_fmap_ext. intros j k _. simpl. apply trim_pad.
    + unfold rowCells. destruct hs; [contradiction | discriminate].
    + apply Hrc. eapply list_elem_of_lookup_2, Hrow.
  - unfold sepCells. rewrite <- !list_fmap_compose.
    rewrite <- (list_fmap_id aligns) at 2.
    apply list_fmap_ext. intros i a _. simpl.
    destruct a; vm_compute; reflexivity.
Qed.

Lemma parseTableText_reconstructMarkdown_witness :
  parseTableText (reconstructMarkdown [lit "a"; lit " b "] [[lit "1"]]
                                      [alignLeft; alignRight])
  = Some {| headers := [lit "a"; lit "b"];
            rows := [[lit "1"; []]];
            alignments := [alignLeft; alignRight] |}.
Proof.
  apply (parseTableText_reconstructMarkdown [lit "a"; lit " b "] [[lit "1"]]
           [alignLeft; alignRight]).
  - discriminate.
  - discriminate.
  - repeat constructor; vm_compute; intros H;
      repeat (apply elem_of_cons in H as [H | H]; [discriminate H |]);
      inversion H.
  - repeat constructor; vm_compute; intros H;
      repeat (apply elem_of_cons in H as [H | H]; [discriminate H |]);
      inversion H.
Defined.

(** ** Writing the grid into the buffer *)

(** X12: when [sync] completes, the buffer holds the canonical markup of
    the live grid at the write-back range, the text before and after that
    range is what it was, and a second [sync] changes nothing. *)
Theorem sync_writes_markup (w w' : WidgetState) :
  sync w = Some w' ->
  sliceString (buffer w') (sourceFrom w') (sourceTo w')
  = reconstructMarkdown (liveHeaders w') (liveRows w') (liveAligns w')
  /\ slice (buffer w') 0 (sourceFrom w') = slice (buffer w) 0 (sourceFrom w)
  /\ sliceFrom (buffer w') (sourceTo w') = sliceFrom (buffer w) (sourceTo w)
  /\ sync w' = Some w'.
Proof.
  unfold sync.
  set (newText := reconstructMarkdown (liveHeaders w) (liveRows w) (liveAligns w)).
  destruct (negb (streq newText (sliceString (buffer w) (sourceFrom w)
                                             (sourceTo w)))) eqn:Ediff.
  - unfold dispatchChange, validChange. simpl.
    destruct ((sourceFrom w >? sourceTo w) || (sourceFrom w <? 0)
              || (sourceTo w >? len (buffer w))) eqn:Evalid; [discriminate |].
    apply orb_false_iff in Evalid as (Evalid & E3).
    apply orb_false_iff in Evalid as (E1 & E2).
    intros [= <-]. simpl.
    pose proof (len_nonneg newText) as Hnew.
    assert (H0 : 0 <= sourceFrom w) by lia.
    assert (H1 : sourceFrom w <= sourceTo w) by lia.
    assert (H2 : sourceTo w <= len (buffer w)) by lia.
    pose proof (text_split (buffer w) (sourceFrom w) (sourceTo w) H0 H1 H2)
      as Hsplit.
    pose proof (len_slice (buffer w) 0 (sourceFrom w)) as Hlp.
    rewrite Z.sub_0_r in Hlp. specialize (Hlp ltac:(lia) H0 ltac:(lia)).
    pose proof (len_slice (buffer w) (sourceFrom w) (sourceTo w) H0 H1 H2) as Hls.
    set (p := slice (buffer w) 0 (sourceFrom w)) in *.
    set (s := slice (buffer w) (sourceFrom w) (sourceTo w)) in *.
    set (q := sliceFrom (buffer w) (sourceTo w)) in *.
    assert (Hrepl : replaceRange (buffer w) (sourceFrom w) (sourceTo w) newText
                    = p ++ newText ++ q).
    { rewrite Hsplit at 1. rewrite <- Hlp at 1.
      replace (sourceTo w) with (len p + len s) at 1 by lia.
      apply replaceRange_split. }
    rewrite Hrepl, <- Hlp.
    assert (Hslice : sliceString (p ++ newText ++ q) (len p) (len p + len newText)
                     = newText).
    { unfold sliceString. rewrite !len_app.
      pose proof (len_nonneg q).
      replace (Z.max 0 (Z.min (len p + (len newText + len q)) (len p)))
        with (len p) by lia.
      replace (Z.max (len p)
                 (Z.min (len p + (len newText + len q)) (len p + len newText)))
        with (len p + len newText) by lia.
      apply slice_mid. }
    repeat split.
    + exact Hslice.
    + apply slice_prefix.
    + replace (len p + len newText) with (len (p ++ newText)) by apply len_app.
      rewrite (app_assoc p newText q). apply sliceFrom_suffix.
    + fold newText. rewrite Hslice.
      unfold streq. rewrite bool_decide_eq_true_2 by reflexivity.
      reflexivity.
  - intros [= <-]. apply negb_false_iff, bool_decide_eq_true in Ediff.
    repeat split.
    + symmetry. exact Ediff.
    + fold newText. rewrite <- Ediff.
      unfold streq. rewrite bool_decide_eq_true_2 by reflexivity.
      reflexivity.
Qed.

Lemma sync_writes_markup_witness :
  let w := {| table := {| thead := [lit "a"; lit "b"]; tbody := [[lit "1"; lit "2"]] |};
              liveHeaders := [lit "a"; lit "b"];
              liveRows := [[lit "1"; lit "2"]];
              liveAligns := [alignLeft; alignLeft];
              sourceFrom := 2;
              sourceTo := 5;
              buffer := lit "x" ++ [NEWLINE] ++ lit "a|b" ++ [NEWLINE] ++ lit "y" |} in
  exists w', sync w = Some w'
             /\ slice (buffer w') 0 (sourceFrom w') = lit "x" ++ [NEWLINE]
             /\ sliceFrom (buffer w') (sourceTo w') = [NEWLINE] ++ lit "y".
Proof.
  intros w. eexists. split; [vm_compute; reflexivity |].
  match goal with
  | |- slice (buffer ?w') _ _ = _ /\ _ =>
      assert (Hsync : sync w = Some w') by (vm_compute; reflexivity);
      destruct (sync_writes_markup w w' Hsync) as (_ & Hp & Hq & _)
  end.
  split.
  - rewrite Hp. vm_compute. reflexivity.
  - rewrite Hq. vm_compute. reflexivity.
Defined.

(** ** The grid operations keep the live arrays and the grid together *)

Lemma delete_last {A} (l : list A) :
  delete (length l - 1)%nat l = take (length l - 1)%nat l.
Proof.
  induction l as [| x l IH]; [reflexivity |].
  destruct l as [| y l']; [reflexivity |].
  simpl length in *. replace (S (S (length l')) - 1)%nat with (S (length l')) by lia.
  replace (S (length l') - 1)%nat with (length l') in IH by lia.
  simpl. f_equal. exact IH.
Qed.

(** Where the table element deletes without throwing, it deletes what
    [splice] deletes from the array. *)
Lemma domDelete_splice1 {A} (l l' : list A) (idx : Z) :
  domDelete l idx = Some l' -> l' = splice1 l idx.
Proof.
  unfold domDelete, splice1, relIndex.
  destruct ((idx <? -1) || (idx >=? Z.of_nat (length l))) eqn:E; [discriminate |].
  apply orb_false_iff in E as (E1 & E2).
  destruct (idx =? -1) eqn:E3; intros [= <-].
  - apply Z.eqb_eq in E3. subst idx. simpl.
    replace (Z.to_nat (Z.max (Z.of_nat (length l) + -1) 0)) with (length l - 1)%nat
      by lia.
    symmetry. apply delete_last.
  - destruct (idx <? 0) eqn:E4; [lia |].
    replace (Z.min idx (Z.of_nat (length l))) with idx by lia. reflexivity.
Qed.

Lemma domDelete_length_eq {A} (l l' : list A) (idx : Z) :
  domDelete l idx = Some l' -> length l' = (length l - 1)%nat.
Proof.
  unfold domDelete.
  destruct ((idx <? -1) || (idx >=? Z.of_nat (length l))) eqn:E; [discriminate |].
  apply orb_false_iff in E as (E1 & E2).
  destruct (idx =? -1) eqn:E3; intros [= <-].
  - rewrite length_take. lia.
  - apply length_delete, lookup_lt_is_Some. lia.
Qed.

Lemma domDeleteColumn_splice1 (body body' : list (list str)) (idx : Z) :
  domDeleteColumn body idx = Some body' ->
  body' = (fun r => splice1 r idx) <$> body
  /\ Forall2 (fun tr tr' => length tr' = (length tr - 1)%nat) body body'.
Proof.
  unfold domDeleteColumn. intros H. apply mapM_Some in H.
  induction H as [| tr tr' body body' Htr _ IH]; [split; constructor |].
  destruct IH as (-> & Hlen). split.
  - simpl. f_equal. apply domDelete_splice1, Htr.
  - constructor; [apply domDelete_length_eq with idx, Htr | exact Hlen].
Qed.

Lemma fmap_const_length {A B C} (x : C) (l : list A) (k : list B) :
  length l = length k ->
  (fun _ => x) <$> l = (fun _ => x) <$> k.
Proof.
  revert k. induction l as [| a l IH]; intros [| b k] H; try discriminate;
    [reflexivity |].
  simpl. f_equal. apply IH. simpl in H. lia.
Qed.

(** X13: after every grid operation that completes, the live arrays are
    again the contents of the rendered grid, and a grid whose rows all have
    one cell per header cell is still such a grid. *)
Theorem runOp_keeps_grid_together (op : GridOp) (w w' : WidgetState) :
  runOp op w = Some w' ->
  mirrored w' /\ (rectangular (table w) -> rectangular (table w')).
Proof.
  unfold mirrored, rectangular.
  destruct op as [| | rowIdx | colIdx]; simpl.
  - unfold addRowDOM. simpl. intros H.
    apply sync_keeps_grid in H as (-> & -> & ->). simpl. split.
    + split; [reflexivity |]. f_equal. f_equal.
      apply fmap_const_length. rewrite length_seq. reflexivity.
    + intros Hrect. apply Forall_app. split; [exact Hrect |].
      repeat constructor. rewrite length_fmap, length_seq. reflexivity.
  - unfold addColumnDOM. simpl. intros H.
    apply sync_keeps_grid in H as (-> & -> & ->). simpl. split.
    + split; reflexivity.
    + intros Hrect. apply Forall_fmap. eapply Forall_impl; [exact Hrect |].
      intros tr Htr. simpl. rewrite !length_app, Htr. reflexivity.
  - unfold deleteRowDOM. simpl.
    destruct (length (tbody (table w)) <=? 1)%nat.
    + intros [= <-]. simpl. split; [split; reflexivity | auto].
    + destruct (domDelete (tbody (table w)) rowIdx) as [body |] eqn:Ed;
        [| discriminate].
      intros H. apply sync_keeps_grid in H as (-> & -> & ->). simpl.
      pose proof (domDelete_splice1 _ _ _ Ed) as ->. split.
      * split; reflexivity.
      * intros Hrect. unfold splice1. apply Forall_delete. exact Hrect.
  - unfold deleteColumnDOM. simpl.
    destruct (length (thead (table w)) <=? 2)%nat.
    + intros [= <-]. simpl. split; [split; reflexivity | auto].
    + destruct (domDelete (thead (table w)) colIdx) as [head |] eqn:Eh;
        [| discriminate].
      destruct (domDeleteColumn (tbody (table w)) colIdx) as [body |] eqn:Eb;
        [| discriminate].
      intros H. apply sync_keeps_grid in H as (-> & -> & ->). simpl.
      pose proof (domDelete_length_eq _ _ _ Eh) as Hhl.
      pose proof (domDelete_splice1 _ _ _ Eh) as ->.
      destruct (domDeleteColumn_splice1 _ _ _ Eb) as (-> & Hlens). split.
      * split; reflexivity.
      * intros Hrect. apply Forall_fmap, Forall_forall. intros tr Htr. simpl.
        rewrite Forall_forall in Hrect. specialize (Hrect tr Htr).
        apply list_elem_of_lookup in Htr as (i & Hi).
        destruct (Forall2_lookup_l _ _ _ _ _ Hlens Hi) as (tr' & Hi' & Hlen).
        rewrite list_lookup_fmap, Hi in Hi'. injection Hi' as <-.
        rewrite Hlen, Hhl, Hrect. reflexivity.
Qed.

Lemma runOp_keeps_grid_together_witness :
  let w := {| table := {| thead := [lit "a"; lit "b"; lit "c"];
                          tbody := [[lit "1"; lit "2"; lit "3"]] |};
              liveHeaders := [];
              liveRows := [];
              liveAligns := [alignLeft; alignLeft; alignLeft];
              sourceFrom := 0;
              sourceTo := 0;
              buffer := [] |} in
  exists w', runOp (DeleteColumn 1) w = Some w'
             /\ mirrored w'
             /\ table w' = {| thead := [lit "a"; lit "c"];
                              tbody := [[lit "1"; lit "3"]] |}.
Proof.
  intros w. eexists. split; [vm_compute; reflexivity |].
  split; [| reflexivity].
  match goal with
  | |- mirrored ?w' =>
      apply (runOp_keeps_grid_together (DeleteColumn 1) w w')
  end.
  vm_compute. reflexivity.
Defined.

(** X14: a row added and then the last row deleted gives back the rendered
    grid, when the grid had a data row; a column added and then the last
    column deleted gives it back, when the grid had two columns. *)
Theorem add_then_delete_restores_grid (w w1 w2 : WidgetState) :
  ((1 <= length (tbody (table w)))%nat ->
   runOp AddRow w = Some w1 -> runOp (DeleteRow (-1)) w1 = Some w2 ->
   table w2 = table w)
  /\ ((2 <= length (thead (table w)))%nat ->
      runOp AddColumn w = Some w1 -> runOp (DeleteColumn (-1)) w1 = Some w2 ->
      table w2 = table w).
Proof.
  split.
  - intros Hrows Hadd Hdel. simpl in Hadd, Hdel.
    unfold addRowDOM in Hadd. simpl in Hadd.
    apply sync_keeps_grid in Hadd as (Ht1 & _).
    unfold deleteRowDOM in Hdel. simpl in Hdel. rewrite Ht1 in Hdel.
    simpl in Hdel. rewrite length_app in Hdel. simpl length in Hdel.
    destruct (length (tbody (table w)) + 1 <=? 1)%nat eqn:E;
      [apply Nat.leb_le in E; lia |].
    unfold domDelete in Hdel. rewrite length_app in Hdel. simpl in Hdel.
    destruct (-1 >=? Z.of_nat (length (tbody (table w)) + 1)) eqn:E2;
      [apply Z.geb_le in E2; lia |].
    simpl in Hdel.
    apply sync_keeps_grid in Hdel as (-> & _). simpl.
    replace (length (tbody (table w)) + 1 - 1)%nat
      with (length (tbody (table w))) by lia.
    rewrite take_app_length. destruct (table w); reflexivity.
  - intros Hcols Hadd Hdel. simpl in Hadd, Hdel.
    unfold addColumnDOM in Hadd. simpl in Hadd.
    apply sync_keeps_grid in Hadd as (Ht1 & _).
    unfold deleteColumnDOM in Hdel. simpl in Hdel. rewrite Ht1 in Hdel.
    simpl in Hdel. rewrite length_app in Hdel. simpl length in Hdel.
    destruct (length (thead (table w)) + 1 <=? 2)%nat eqn:E;
      [apply Nat.leb_le in E; lia |].
    assert (Hhead : domDelete (thead (table w) ++ [[]]) (-1)
                    = Some (thead (table w))).
    { unfold domDelete. rewrite length_app. simpl.
      destruct (-1 >=? Z.of_nat (length (thead (table w)) + 1)) eqn:E2;
      [apply Z.geb_le in E2; lia |].
      replace (length (thead (table w)) + 1 - 1)%nat
        with (length (thead (table w))) by lia.
      rewrite take_app_length. reflexivity. }
    rewrite Hhead in Hdel.
    assert (Hbody : domDeleteColumn ((fun tr => tr ++ [[]]) <$> tbody (table w)) (-1)
                    = Some (tbody (table w))).
    { unfold domDeleteColumn. apply mapM_Some.
      apply Forall2_fmap_l, Forall_Forall2_diag, Forall_forall.
      intros tr _. unfold compose. cbv beta. unfold domDelete.
      rewrite length_app. simpl.
      destruct (-1 >=? Z.of_nat (length tr + 1)) eqn:E2;
      [apply Z.geb_le in E2; lia |].
      replace (length tr + 1 - 1)%nat with (length tr) by lia.
      rewrite take_app_length. reflexivity. }
    rewrite Hbody in Hdel.
    apply sync_keeps_grid in Hdel as (-> & _). simpl.
    destruct (table w); reflexivity.
Qed.

Lemma add_then_delete_restores_grid_witness :
  let w := {| table := {| thead := [lit "a"; lit "b"]; tbody := [[lit "1"; lit "2"]] |};
              liveHeaders := [lit "a"; lit "b"];
              liveRows := [[lit "1"; lit "2"]];
              liveAligns := [alignLeft; alignLeft];
              sourceFrom := 0;
              sourceTo := 35;
              buffer := lit "| a | b |" ++ [NEWLINE] ++ lit "| :--- | :--- |"
                        ++ [NEWLINE] ++ lit "| 1 | 2 |" |} in
  exists w1 w2,
    (1 <= length (tbody (table w)))%nat
    /\ runOp AddRow w = Some w1 /\ runOp (DeleteRow (-1)) w1 = Some w2
    /\ table w2 = table w.
Proof.
  intros w. eexists. eexists.
  split; [simpl; lia |].
  split; [vm_compute; reflexivity |]. split; [vm_compute; reflexivity |].
  eapply (proj1 (add_then_delete_restores_grid w _ _)).
  - simpl. lia.
  - vm_compute. reflexivity.
  - vm_compute. reflexivity.
Defined.

(** ** The lines of a document *)

Lemma span_app (a b : list str) : span (a ++ b) = span a + span b.
Proof. induction a as [| t a IH]; simpl; [reflexivity | rewrite IH; lia]. Qed.

Lemma span_nonneg (ls : list str) : 0 <= span ls.
Proof.
  induction ls as [| t ls IH]; simpl; [lia |]. pose proof (len_nonneg t). lia.
Qed.

Lemma span_splitOn (d : str) : span (splitOn NEWLINE d) = len d + 1.
Proof.
  induction d as [| c d IH]; [reflexivity |].
  rewrite len_cons. simpl splitOn. destruct (c =? NEWLINE)%N.
  - simpl. rewrite len_nil. simpl in IH. lia.
  - pose proof (splitOn_nonempty NEWLINE d) as Hne.
    destruct (splitOn NEWLINE d) as [| h t]; [simpl in Hne; lia |].
    simpl in IH |- *. rewrite len_cons. lia.
Qed.

Lemma length_linesFrom (ls : list str) (start n : Z) :
  length (linesFrom ls start n) = length ls.
Proof.
  revert start n. induction ls as [| t ls IH]; intros; simpl; [reflexivity |].
  rewrite IH. reflexivity.
Qed.

Lemma lineCount_splitOn (d : str) :
  lineCount d = Z.of_nat (length (splitOn NEWLINE d)).
Proof. unfold lineCount, docLines. rewrite length_linesFrom. reflexivity. Qed.

(** The lines of the pieces [ls] that follow the pieces [before]. *)
Lemma linesFrom_cons (before : list str) (t : str) (ls : list str) :
  linesFrom (t :: ls) (span before) (1 + Z.of_nat (length before))
  = lineAfter before t
    :: linesFrom ls (span (before ++ [t])) (1 + Z.of_nat (length (before ++ [t]))).
Proof.
  simpl. unfold lineAfter. f_equal. f_equal.
  - rewrite span_app. simpl. lia.
  - rewrite length_app. simpl. lia.
Qed.

Lemma linesFrom_elem (before ls : list str) (l : Line) :
  l ∈ linesFrom ls (span before) (1 + Z.of_nat (length before)) ->
  exists ls1 t ls2, ls = ls1 ++ t :: ls2 /\ l = lineAfter (before ++ ls1) t.
Proof.
  revert before. induction ls as [| t ls IH]; intros before H.
  - simpl in H. inversion H.
  - rewrite linesFrom_cons in H. apply elem_of_cons in H as [-> | H].
    + exists [], t, ls. rewrite app_nil_r. split; reflexivity.
    + apply IH in H as (ls1 & t' & ls2 & -> & ->).
      exists (t :: ls1), t', ls2. rewrite <- app_assoc. split; reflexivity.
Qed.

Lemma docLines_elem (d : str) (l : Line) :
  l ∈ docLines d ->
  exists ls1 t ls2, splitOn NEWLINE d = ls1 ++ t :: ls2 /\ l = lineAfter ls1 t.
Proof. intros H. apply (linesFrom_elem [] _ _ H). Qed.

Lemma linesFrom_later (before ls : list str) :
  Forall (fun l => span before <= lfrom l /\ lfrom l <= lto l)
         (linesFrom ls (span before) (1 + Z.of_nat (length before))).
Proof.
  apply Forall_forall. intros l H.
  apply linesFrom_elem in H as (ls1 & t & ls2 & _ & ->).
  simpl. rewrite span_app.
  pose proof (span_nonneg ls1). pose proof (len_nonneg t). lia.
Qed.

Lemma linesFrom_split (before ls1 : list str) (t : str) (ls2 : list str) :
  linesFrom (ls1 ++ t :: ls2) (span before) (1 + Z.of_nat (length before))
  = linesFrom ls1 (span before) (1 + Z.of_nat (length before))
    ++ lineAfter (before ++ ls1) t
    :: linesFrom ls2 (span ((before ++ ls1) ++ [t]))
         (1 + Z.of_nat (length ((before ++ ls1) ++ [t]))).
Proof.
  revert before. induction ls1 as [| t1 ls1 IH]; intros before.
  - rewrite app_nil_r. simpl app. apply linesFrom_cons.
  - change ((t1 :: ls1) ++ t :: ls2) with (t1 :: (ls1 ++ t :: ls2)).
    rewrite !linesFrom_cons, IH.
    replace ((before ++ [t1]) ++ ls1) with (before ++ t1 :: ls1)
      by (rewrite <- app_assoc; reflexivity).
    reflexivity.
Qed.

Lemma docLines_split (d : str) (ls1 : list str) (t : str) (ls2 : list str) :
  splitOn NEWLINE d = ls1 ++ t :: ls2 ->
  docLines d
  = linesFrom ls1 0 1 ++ lineAfter ls1 t
    :: linesFrom ls2 (span (ls1 ++ [t])) (1 + Z.of_nat (length (ls1 ++ [t]))).
Proof.
  intros H. unfold docLines. rewrite H. apply (linesFrom_split []).
Qed.

(** A line ends before the next one starts, and the last one ends with the
    document. *)
Lemma split_bounds (d : str) (ls1 : list str) (t : str) (ls2 : list str) :
  splitOn NEWLINE d = ls1 ++ t :: ls2 ->
  0 <= span ls1 /\ span ls1 + len t + span ls2 = len d.
Proof.
  intros H. pose proof (span_splitOn d) as Hs. rewrite H, span_app in Hs.
  simpl in Hs. pose proof (span_nonneg ls1). lia.
Qed.

Lemma filter_none {A} (P : A -> Prop) `{forall x, Decision (P x)} (l : list A) :
  Forall (fun x => ~ P x) l -> filter P l = [].
Proof.
  induction 1 as [| x l Hx Hl IH]; [reflexivity |].
  rewrite filter_cons_False by exact Hx. exact IH.
Qed.

Lemma find_app_skip {A} (f : A -> bool) (l1 l2 : list A) :
  Forall (fun x => f x = false) l1 -> find f (l1 ++ l2) = find f l2.
Proof.
  induction 1 as [| x l1 Hx Hl IH]; [reflexivity |]. simpl. rewrite Hx. exact IH.
Qed.

Lemma linesFrom_earlier (before ls : list str) :
  Forall (fun l => lto l < span (before ++ ls))
         (linesFrom ls (span before) (1 + Z.of_nat (length before))).
Proof.
  apply Forall_forall. intros l H.
  apply linesFrom_elem in H as (ls1 & t & ls2 & -> & ->).
  simpl. rewrite !span_app. simpl. pose proof (span_nonneg ls2). lia.
Qed.

(** [lineAt] finds the line whose extent holds the position. *)
Lemma lineAt_split (d : str) (ls1 : list str) (t : str) (ls2 : list str)
    (pos : Z) :
  splitOn NEWLINE d = ls1 ++ t :: ls2 ->
  span ls1 <= pos -> pos <= span ls1 + len t ->
  lineAt d pos = Some (lineAfter ls1 t).
Proof.
  intros H Hlo Hhi. destruct (split_bounds d ls1 t ls2 H) as (H0 & Hlen).
  pose proof (span_nonneg ls2).
  unfold lineAt.
  destruct ((pos <? 0) || (pos >? len d)) eqn:E;
    [apply orb_true_iff in E as [E | E]; lia |].
  rewrite (docLines_split d ls1 t ls2 H), find_app_skip.
  - simpl. destruct (pos <=? span ls1 + len t) eqn:E2; [reflexivity | lia].
  - eapply Forall_impl; [apply (linesFrom_earlier [] ls1) |].
    simpl. intros l Hl. lia.
Qed.

Lemma find_linesFrom (ls before : list str) (pos : Z) (l : Line) :
  span before <= pos ->
  find (fun l => pos <=? lto l)
       (linesFrom ls (span before) (1 + Z.of_nat (length before))) = Some l ->
  exists ls1 t ls2,
    before ++ ls = ls1 ++ t :: ls2 /\ l = lineAfter ls1 t
    /\ span ls1 <= pos /\ pos <= span ls1 + len t.
Proof.
  revert before. induction ls as [| t ls IH]; intros before Hpos Hfind.
  - discriminate.
  - rewrite linesFrom_cons in Hfind. simpl in Hfind.
    destruct (pos <=? span before + len t) eqn:E3.
    + injection Hfind as <-. exists before, t, ls.
      repeat split; [exact Hpos | lia].
    + destruct (IH (before ++ [t])) as (ls1 & t' & ls2 & Heq & Hl & Hb);
        [rewrite span_app; simpl; lia | exact Hfind |].
      exists ls1, t', ls2. rewrite <- app_assoc in Heq. auto.
Qed.

Lemma lineAt_inv (d : str) (pos : Z) (l : Line) :
  lineAt d pos = Some l ->
  exists ls1 t ls2,
    splitOn NEWLINE d = ls1 ++ t :: ls2 /\ l = lineAfter ls1 t
    /\ span ls1 <= pos /\ pos <= span ls1 + len t.
Proof.
  unfold lineAt.
  destruct ((pos <? 0) || (pos >? len d)) eqn:E; [discriminate |].
  apply orb_false_iff in E as (E1 & E2). intros H.
  apply (find_linesFrom (splitOn NEWLINE d) [] pos l); [simpl; lia | exact H].
Qed.

(** ** The text of a line *)

Lemma flat_cons (t : str) (ls : list str) :
  flat (t :: ls) = t ++ [NEWLINE] ++ flat ls.
Proof. unfold flat. simpl. rewrite <- app_assoc. reflexivity. Qed.

Lemma len_flat (ls : list str) : len (flat ls) = span ls.
Proof.
  induction ls as [| t ls IH]; [reflexivity |].
  rewrite flat_cons, !len_app, IH. change (len [NEWLINE]) with 1.
  simpl span. lia.
Qed.

Lemma flat_app (a b : list str) : flat (a ++ b) = flat a ++ flat b.
Proof. unfold flat. rewrite fmap_app, concat_app. reflexivity. Qed.

Lemma flat_splitOn (d : str) : flat (splitOn NEWLINE d) = d ++ [NEWLINE].
Proof.
  induction d as [| c d IH]; [reflexivity |].
  simpl splitOn. destruct (c =? NEWLINE)%N eqn:E.
  - apply N.eqb_eq in E. subst c. rewrite flat_cons, IH. reflexivity.
  - pose proof (splitOn_nonempty NEWLINE d) as Hne.
    destruct (splitOn NEWLINE d) as [| h t]; [simpl in Hne; lia |].
    rewrite flat_cons in IH |- *. simpl. rewrite <- IH. reflexivity.
Qed.

Lemma doc_split (d : str) (ls1 : list str) (t : str) (ls2 : list str) :
  splitOn NEWLINE d = ls1 ++ t :: ls2 ->
  d ++ [NEWLINE] = flat ls1 ++ t ++ [NEWLINE] ++ flat ls2.
Proof.
  intros H. rewrite <- flat_splitOn, H, flat_app, flat_cons. reflexivity.
Qed.

Lemma slice_app_l (s x : str) (a b : Z) :
  0 <= a -> a <= b -> b <= len s -> slice (s ++ x) a b = slice s a b.
Proof.
  intros Ha Hab Hb. pose proof (len_nonneg x).
  rewrite !slice_take_drop by (rewrite ?len_app; lia).
  unfold len in *. rewrite drop_app_le by lia.
  rewrite take_app_le by (rewrite length_drop; lia). reflexivity.
Qed.

Lemma charAt_app_end (s x : str) (i : Z) :
  i < len s -> charAt (s ++ x) i = charAt s i.
Proof. apply charAt_app_l. Qed.

(** The text of a line is the document between its ends. *)
Lemma line_text (d : str) (ls1 : list str) (t : str) (ls2 : list str) :
  splitOn NEWLINE d = ls1 ++ t :: ls2 ->
  slice d (span ls1) (span ls1 + len t) = t.
Proof.
  intros H. destruct (split_bounds d ls1 t ls2 H) as (H0 & Hlen).
  pose proof (span_nonneg ls2). pose proof (len_nonneg t).
  rewrite <- (slice_app_l d [NEWLINE]) by lia.
  rewrite (doc_split d ls1 t ls2 H), <- len_flat. apply slice_mid.
Qed.

(** A line ends at the end of the document or at a line feed. *)
Lemma line_end (d : str) (ls1 : list str) (t : str) (ls2 : list str) :
  splitOn NEWLINE d = ls1 ++ t :: ls2 ->
  span ls1 + len t = len d \/ charAt d (span ls1 + len t) = Some NEWLINE.
Proof.
  intros H. destruct (split_bounds d ls1 t ls2 H) as (H0 & Hlen).
  pose proof (span_nonneg ls2) as Hs2. pose proof (len_nonneg t).
  destruct (Z.eq_dec (span ls2) 0) as [E | E]; [left; lia | right].
  rewrite <- (charAt_app_l d [NEWLINE]) by lia.
  rewrite (doc_split d ls1 t ls2 H), <- len_flat.
  rewrite (app_assoc (flat ls1) t), <- len_app.
  rewrite <- (Z.add_0_r (len (flat ls1 ++ t))), charAt_suffix by lia.
  reflexivity.
Qed.

(** A line starts at the start of the document or after a line feed. *)
Lemma line_start (d : str) (ls1 : list str) (t : str) (ls2 : list str) :
  splitOn NEWLINE d = ls1 ++ t :: ls2 ->
  span ls1 = 0 \/ charAt d (span ls1 - 1) = Some NEWLINE.
Proof.
  intros H. destruct (split_bounds d ls1 t ls2 H) as (H0 & Hlen).
  pose proof (span_nonneg ls2) as Hs2. pose proof (len_nonneg t).
  destruct ls1 as [| t0 ls1 _] using rev_ind; [left; reflexivity | right].
  rewrite span_app in *. simpl span in *. pose proof (len_nonneg t0).
  pose proof (span_nonneg ls1).
  rewrite <- (charAt_app_l d [NEWLINE]) by lia.
  rewrite (doc_split d _ t ls2 H), flat_app, flat_cons.
  change (flat []) with (@nil char). rewrite app_nil_r, <- !app_assoc.
  rewrite (app_assoc (flat ls1) t0), <- len_flat.
  replace (len (flat ls1) + (len t0 + 1 + 0) - 1)
    with (len (flat ls1 ++ t0) + 0) by (rewrite len_app; lia).
  rewrite charAt_suffix by lia. reflexivity.
Qed.

(** ** The lines a block visits *)

Lemma blockLinesLoop_split (d : str) (ls2 ls1 : list str) (t : str)
    (pos stop : Z) (fuel : nat) :
  splitOn NEWLINE d = ls1 ++ t :: ls2 ->
  span ls1 <= pos -> pos <= span ls1 + len t ->
  pos <= stop -> stop <= len d ->
  (length ls2 < fuel)%nat ->
  blockLinesLoop d fuel pos stop
  = Done (lineAfter ls1 t
          :: filter (fun l => lfrom l <= stop)
               (linesFrom ls2 (span (ls1 ++ [t]))
                  (1 + Z.of_nat (length (ls1 ++ [t]))))).
Proof.
  revert ls1 t pos fuel.
  induction ls2 as [| t' ls2 IH]; intros ls1 t pos fuel H Hlo Hhi Hstop Hdoc Hfuel.
  - destruct fuel as [| fuel]; [simpl in Hfuel; lia |]. simpl blockLinesLoop.
    destruct (pos <=? stop) eqn:E; [| lia].
    rewrite (lineAt_split d ls1 t [] pos H Hlo Hhi).
    destruct (split_bounds d ls1 t [] H) as (_ & Hlen). simpl in Hlen.
    simpl lto.
    destruct (Z.geb_spec (span ls1 + len t) stop) as [E2 | E2]; [| lia].
    reflexivity.
  - destruct fuel as [| fuel]; [simpl in Hfuel; lia |]. simpl blockLinesLoop.
    destruct (pos <=? stop) eqn:E; [| lia].
    rewrite (lineAt_split d ls1 t (t' :: ls2) pos H Hlo Hhi).
    simpl lto. simpl number.
    rewrite linesFrom_cons.
    destruct (span ls1 + len t >=? stop) eqn:E2.
    + apply Z.geb_le in E2. simpl orb. cbv iota.
      rewrite filter_cons_False
        by (simpl; rewrite span_app; simpl; lia).
      f_equal. f_equal. symmetry. apply filter_none.
      eapply Forall_impl; [apply linesFrom_later |].
      simpl. intros l (Hl & _). rewrite !span_app in Hl. simpl in Hl.
      pose proof (len_nonneg t'). lia.
    + assert (Hlt : span ls1 + len t < stop).
      { destruct (Z.geb_spec (span ls1 + len t) stop); [discriminate | lia]. }
      rewrite lineCount_splitOn, H, length_app. simpl length.
      match goal with
      | |- context [?a >=? ?b] =>
          destruct (Z.geb_spec a b) as [E3 | E3]; [lia |]
      end.
      simpl orb. cbv iota.
      rewrite (IH (ls1 ++ [t]) t' (span ls1 + len t + 1) fuel).
      * rewrite filter_cons_True
          by (simpl; rewrite span_app; simpl; lia).
        reflexivity.
      * rewrite <- app_assoc. exact H.
      * rewrite span_app. simpl. lia.
      * rewrite span_app. simpl. pose proof (len_nonneg t'). lia.
      * lia.
      * exact Hdoc.
      * simpl in Hfuel. lia.
Qed.

Lemma filter_equiv {A} (P Q : A -> Prop) `{forall x, Decision (P x)}
    `{forall x, Decision (Q x)} (l : list A) :
  Forall (fun x => P x <-> Q x) l -> filter P l = filter Q l.
Proof.
  induction 1 as [| x l Hx Hl IH]; [reflexivity |].
  destruct (decide (P x)) as [Hp | Hp].
  - rewrite !filter_cons_True by tauto. rewrite IH. reflexivity.
  - rewrite !filter_cons_False by tauto. exact IH.
Qed.

(** A line that starts at a position is the line [lineAt] gives there. *)
Lemma lineAt_lfrom (d : str) (l : Line) :
  l ∈ docLines d -> lineAt d (lfrom l) = Some l.
Proof.
  intros H. apply docLines_elem in H as (ls1 & t & ls2 & Hsplit & ->).
  apply (lineAt_split d ls1 t ls2); [exact Hsplit | simpl; lia |].
  simpl. pose proof (len_nonneg t). lia.
Qed.

Lemma blockEnd_cases (d : str) (nodeFrom nodeTo : Z) :
  0 <= nodeFrom -> nodeFrom <= nodeTo -> nodeTo <= len d ->
  exists stop,
    blockEnd d nodeFrom nodeTo = Some stop
    /\ nodeFrom <= stop /\ nodeTo - 1 <= stop /\ stop <= nodeTo
    /\ (nodeFrom < nodeTo ->
        forall l, l ∈ docLines d -> lfrom l <= stop -> lfrom l < nodeTo).
Proof.
  intros H0 H1 H2. unfold blockEnd.
  replace (Z.min nodeTo (len d)) with nodeTo by lia.
  destruct (nodeTo >? nodeFrom) eqn:E.
  - destruct (lineAt_Some d nodeTo) as (line & Hline); [lia | lia |].
    rewrite Hline. destruct (lfrom line =? nodeTo) eqn:E2.
    + eexists. split; [reflexivity |]. repeat split; try lia.
    + eexists. split; [reflexivity |]. repeat split; try lia.
      intros _ l Hl Hle.
      destruct (Z.eq_dec (lfrom l) nodeTo) as [Heq | Hne]; [| lia].
      apply lineAt_lfrom in Hl. rewrite Heq, Hline in Hl.
      injection Hl as ->. lia.
  - eexists. split; [reflexivity |]. repeat split; try lia.
Qed.

Lemma forEachBlockLine_filter (d : str) (nodeFrom nodeTo stop : Z) :
  0 <= nodeFrom -> nodeFrom <= stop -> stop <= len d ->
  blockEnd d nodeFrom nodeTo = Some stop ->
  forEachBlockLine d nodeFrom nodeTo
  = Done (filter (fun l => nodeFrom <= lto l /\ lfrom l <= stop) (docLines d))
  /\ lineAt d nodeFrom
     = head (filter (fun l => nodeFrom <= lto l /\ lfrom l <= stop) (docLines d)).
Proof.
  intros H0 Hs0 Hs2 Hstop.
  destruct (lineAt_Some d nodeFrom) as (l & Hl); [lia | lia |].
  destruct (lineAt_inv d nodeFrom l Hl) as (ls1 & t & ls2 & Hsplit & -> & Hlo & Hhi).
  assert (Hvisited :
    filter (fun l => nodeFrom <= lto l /\ lfrom l <= stop) (docLines d)
    = lineAfter ls1 t
      :: filter (fun l => lfrom l <= stop)
           (linesFrom ls2 (span (ls1 ++ [t]))
              (1 + Z.of_nat (length (ls1 ++ [t]))))).
  { rewrite (docLines_split d ls1 t ls2 Hsplit), filter_app.
    rewrite filter_none.
    - simpl app. rewrite filter_cons_True by (simpl; lia). f_equal.
      apply filter_equiv.
      eapply Forall_impl; [apply linesFrom_later |].
      simpl. intros l (Hl1 & Hl2). rewrite span_app in Hl1. simpl in Hl1. lia.
    - eapply Forall_impl; [apply (linesFrom_earlier [] ls1) |].
      simpl. intros l Hl'. lia. }
  rewrite Hvisited. split; [| exact Hl].
  unfold forEachBlockLine. rewrite Hstop.
  apply (blockLinesLoop_split d ls2 ls1 t); try assumption; try lia.
  unfold docLines. rewrite length_linesFrom, Hsplit, length_app. simpl. lia.
Qed.

(** X15: on a node that lies in the document, [forEachBlockLine] completes,
    and calls back exactly on the lines of the document that meet the span
    from the node's start to its block end, each once and in document order,
    the first being the line of the node's start; no visited line starts at
    or after the end of a non-empty node. *)
Theorem forEachBlockLine_visits (d : str) (nodeFrom nodeTo : Z) :
  0 <= nodeFrom -> nodeFrom <= nodeTo -> nodeTo <= len d ->
  exists stop visited,
    blockEnd d nodeFrom nodeTo = Some stop
    /\ forEachBlockLine d nodeFrom nodeTo = Done visited
    /\ visited = filter (fun l => nodeFrom <= lto l /\ lfrom l <= stop)
                        (docLines d)
    /\ lineAt d nodeFrom = head visited
    /\ (nodeFrom < nodeTo -> Forall (fun l => lfrom l < nodeTo) visited).
Proof.
  intros H0 H1 H2.
  destruct (blockEnd_cases d nodeFrom nodeTo H0 H1 H2)
    as (stop & Hstop & Hs0 & Hs1 & Hs2 & Hleak).
  destruct (forEachBlockLine_filter d nodeFrom nodeTo stop) as (Hrun & Hhead);
    [lia | lia | lia | exact Hstop |].
  exists stop. eexists.
  split; [exact Hstop |]. split; [exact Hrun |]. split; [reflexivity |].
  split; [exact Hhead |].
  intros Hlt. apply Forall_forall. intros l Hin.
  apply list_elem_of_filter in Hin as ((_ & Hle) & Hin).
  exact (Hleak Hlt l Hin Hle).
Qed.

Lemma forEachBlockLine_visits_witness :
  let d := lit "> a" ++ [NEWLINE] ++ lit "> b" ++ [NEWLINE] ++ lit "c" in
  exists visited,
    forEachBlockLine d 0 8 = Done visited
    /\ number <$> visited = [1; 2]
    /\ Forall (fun l => lfrom l < 8) visited.
Proof.
  intros d.
  destruct (forEachBlockLine_visits d 0 8) as (stop & visited & _ & Hrun & Hv & _ & Hleak).
  - lia.
  - lia.
  - vm_compute. discriminate.
  - exists visited. split; [exact Hrun |]. split; [| apply Hleak; lia].
    vm_compute in Hrun. injection Hrun as <-. reflexivity.
Defined.


(** ** Lines as the builder sees them *)

Lemma docLine_facts (d : str) (l : Line) :
  l ∈ docLines d ->
  0 <= lfrom l /\ lto l = lfrom l + len (ltext l) /\ lto l <= len d
  /\ ltext l = slice d (lfrom l) (lto l)
  /\ (lfrom l = 0 \/ charAt d (lfrom l - 1) = Some NEWLINE)
  /\ (lto l = len d \/ charAt d (lto l) = Some NEWLINE)
  /\ 1 <= number l <= lineCount d.
Proof.
  intros H. apply docLines_elem in H as (ls1 & t & ls2 & Hsplit & ->).
  destruct (split_bounds d ls1 t ls2 Hsplit) as (H0 & Hlen).
  pose proof (span_nonneg ls2). simpl.
  split; [exact H0 |]. split; [reflexivity |]. split; [lia |].
  split; [symmetry; apply (line_text d ls1 t ls2 Hsplit) |].
  split; [apply (line_start d ls1 t ls2 Hsplit) |].
  split; [apply (line_end d ls1 t ls2 Hsplit) |].
  rewrite lineCount_splitOn, Hsplit, length_app. simpl. lia.
Qed.

Lemma lineAt_elem (d : str) (pos : Z) (l : Line) :
  lineAt d pos = Some l -> l ∈ docLines d /\ lfrom l <= pos /\ pos <= lto l.
Proof.
  intros H. apply lineAt_inv in H as (ls1 & t & ls2 & Hsplit & -> & Hlo & Hhi).
  split; [| simpl; lia].
  rewrite (docLines_split d ls1 t ls2 Hsplit).
  apply elem_of_app. right. left.
Qed.

Lemma sliceString_slice (d : str) (a b : Z) :
  0 <= a -> a <= b -> b <= len d -> sliceString d a b = slice d a b.
Proof.
  intros Ha Hab Hb. unfold sliceString.
  replace (Z.max 0 (Z.min (len d) a)) with a by lia.
  replace (Z.max a (Z.min (len d) b)) with b by lia. reflexivity.
Qed.

(** X16: the block widget of a table replaces whole lines: its range starts
    at the start of the line of the node's start, ends at the end of a line
    that starts before the node's end, and covers the node up to its block
    end; the widget holds the table parsed from exactly the replaced text. *)
Theorem enterTable_replaces_whole_lines (d : str) (sel : list TextSelection)
    (fmEnd nodeFrom nodeTo : Z) (deco : TableDecoration) :
  0 <= nodeFrom -> nodeFrom < nodeTo -> nodeTo <= len d ->
  enterTable d sel fmEnd nodeFrom nodeTo = BlockWidget deco ->
  (exists firstLine lastLine,
     firstLine ∈ docLines d /\ lastLine ∈ docLines d
     /\ docFrom deco = lfrom firstLine /\ docTo deco = lto lastLine
     /\ lfrom lastLine < nodeTo)
  /\ 0 <= docFrom deco /\ docFrom deco <= nodeFrom
  /\ nodeTo - 1 <= docTo deco /\ docTo deco <= len d
  /\ (docFrom deco = 0 \/ charAt d (docFrom deco - 1) = Some NEWLINE)
  /\ (docTo deco = len d \/ charAt d (docTo deco) = Some NEWLINE)
  /\ parseTableText (slice d (docFrom deco) (docTo deco)) = Some (widget deco).
Proof.
  intros H0 H1 H2. unfold enterTable.
  destruct ((fmEnd >? 0) && (nodeTo <=? fmEnd)); [discriminate |].
  destruct (negb (isRangeSelected sel nodeFrom nodeTo)); [| discriminate].
  destruct (blockEnd_cases d nodeFrom nodeTo H0 ltac:(lia) H2)
    as (stop & -> & Hs0 & Hs1 & Hs2 & Hleak).
  destruct (lineAt d nodeFrom) as [firstLine |] eqn:Hfirst; [| discriminate].
  destruct (lineAt d stop) as [lastLine |] eqn:Hlast; [| discriminate].
  apply lineAt_elem in Hfirst as (Hin1 & Hf1 & Hf2).
  apply lineAt_elem in Hlast as (Hin2 & Hl1 & Hl2).
  destruct (docLine_facts d firstLine Hin1) as (Ha & Hb & Hc & _ & Hstart & _).
  destruct (docLine_facts d lastLine Hin2) as (Ha' & Hb' & Hc' & _ & _ & Hend & _).
  rewrite sliceString_slice by lia.
  destruct (parseTableText _) as [parsed |] eqn:Hparsed; [| discriminate].
  intros [= <-]. simpl.
  split.
  { exists firstLine, lastLine. repeat split; try assumption.
    apply (Hleak H1 lastLine Hin2). lia. }
  repeat split; try assumption; lia.
Qed.

Lemma enterTable_replaces_whole_lines_witness :
  let d := lit "x" ++ [NEWLINE] ++ lit "|a|" ++ [NEWLINE] ++ lit "|-|"
           ++ [NEWLINE] ++ lit "y" in
  exists deco,
    enterTable d [] 0 2 10 = BlockWidget deco
    /\ docFrom deco = 2 /\ docTo deco = 9
    /\ charAt d (docFrom deco - 1) = Some NEWLINE
    /\ charAt d (docTo deco) = Some NEWLINE.
Proof.
  intros d.
  destruct (enterTable d [] 0 2 10) as [| | deco] eqn:E; try discriminate E.
  exists deco.
  destruct (enterTable_replaces_whole_lines d [] 0 2 10 deco) as (_ & _ & H);
    [lia | lia | vm_compute; discriminate | exact E |].
  vm_compute in E. injection E as <-.
  repeat split; reflexivity.
Defined.

(** ** Frontmatter *)

Lemma length_trimStart (s : str) : (length (trimStart s) <= length s)%nat.
Proof.
  induction s as [| c s IH]; simpl; [lia |]. destruct (isTrimmed c); simpl; lia.
Qed.

Lemma len_trim_le (s : str) : len (trim s) <= len s.
Proof.
  unfold trim, len. rewrite length_rev.
  pose proof (length_trimStart (rev (trimStart s))) as H1.
  rewrite length_rev in H1. pose proof (length_trimStart s). lia.
Qed.

Lemma find_linesFrom_first (f : Line -> bool) (ls before : list str)
    (found : Line) :
  find f (linesFrom ls (span before) (1 + Z.of_nat (length before))) = Some found ->
  exists ls1 t ls2,
    ls = ls1 ++ t :: ls2 /\ found = lineAfter (before ++ ls1) t
    /\ f found = true
    /\ Forall (fun l => f l = false)
              (linesFrom ls1 (span before) (1 + Z.of_nat (length before))).
Proof.
  revert before. induction ls as [| t ls IH]; intros before Hfind.
  - discriminate.
  - rewrite linesFrom_cons in Hfind. simpl in Hfind.
    destruct (f (lineAfter before t)) eqn:E.
    + injection Hfind as <-. exists [], t, ls. rewrite app_nil_r.
      repeat split; [exact E | constructor].
    + destruct (IH (before ++ [t]) Hfind) as (ls1 & t' & ls2 & -> & -> & Hf & Hall).
      exists (t :: ls1), t', ls2. rewrite <- app_assoc in *.
      repeat split; [exact Hf |].
      rewrite linesFrom_cons. constructor; assumption.
Qed.

Lemma first_line (d : str) (l : Line) :
  l ∈ docLines d -> number l = 1 -> head (docLines d) = Some l.
Proof.
  intros H Hn. apply docLines_elem in H as (ls1 & t & ls2 & Hsplit & ->).
  simpl in Hn. destruct ls1 as [| t1 ls1]; [| simpl in Hn; lia].
  rewrite (docLines_split d [] t ls2 Hsplit). reflexivity.
Qed.

Lemma detectFrontmatter_unfold (d t0 : str) (rest : list str) :
  splitOn NEWLINE d = t0 :: rest ->
  let others := linesFrom rest (span [t0]) (1 + Z.of_nat (length [t0])) in
  detectFrontmatter d
  = if lineCount d <? 2 then (0, 0)
    else if negb (streq (trim t0) DASHES) then (0, 0)
         else match closingLine others with
              | Some closing => (lto closing, countProps others closing)
              | None => (0, 0)
              end.
Proof.
  intros Hsplit others. unfold detectFrontmatter.
  rewrite (docLines_split d [] t0 rest Hsplit). reflexivity.
Qed.

(** X17: [detectFrontmatter] reports an end above zero exactly when the
    first line and some later line are fences (their trimmed text is three
    dashes); without that both results are zero; with it the end is the end
    of the earliest later fence, at least 7 and inside the document, and the
    property count is at most the number of lines between the fences. *)
Theorem detectFrontmatter_flag (d : str) :
  let fmEnd := fst (detectFrontmatter d) in
  let propCount := snd (detectFrontmatter d) in
  (0 < fmEnd <->
   exists opening closing,
     opening ∈ docLines d /\ closing ∈ docLines d
     /\ number opening = 1 /\ 2 <= number closing
     /\ trim (ltext opening) = DASHES /\ trim (ltext closing) = DASHES)
  /\ (fmEnd = 0 -> propCount = 0)
  /\ (0 < fmEnd ->
      7 <= fmEnd /\ fmEnd <= len d
      /\ exists closing,
           closing ∈ docLines d /\ fmEnd = lto closing
           /\ 2 <= number closing /\ trim (ltext closing) = DASHES
           /\ (forall l, l ∈ docLines d -> 2 <= number l < number closing ->
                         trim (ltext l) <> DASHES)
           /\ 0 <= propCount <= number closing - 2).
Proof.
  intros fmEnd propCount. subst fmEnd propCount.
  pose proof (splitOn_nonempty NEWLINE d) as Hne.
  destruct (splitOn NEWLINE d) as [| t0 rest] eqn:Hsplit; [simpl in Hne; lia |].
  assert (Hlines : docLines d
                   = lineAfter [] t0
                     :: linesFrom rest (span [t0])
                          (1 + Z.of_nat (length [t0]))).
  { apply (docLines_split d [] t0 rest Hsplit). }
  assert (Hopening : forall opening, opening ∈ docLines d -> number opening = 1 ->
                     opening = lineAfter [] t0).
  { intros o Ho Hn. apply first_line in Ho; [| exact Hn].
    rewrite Hlines in Ho. simpl in Ho. congruence. }
  assert (Hlater : forall l, l ∈ docLines d -> 2 <= number l ->
                   l ∈ linesFrom rest (span [t0]) (1 + Z.of_nat (length [t0]))).
  { intros l Hl Hn. rewrite Hlines in Hl.
    apply elem_of_cons in Hl as [-> | Hl]; [simpl in Hn; lia | exact Hl]. }
  set (others := linesFrom rest (span [t0]) (1 + Z.of_nat (length [t0]))) in *.
  rewrite (detectFrontmatter_unfold d t0 rest Hsplit). fold others.
  destruct (lineCount d <? 2) eqn:Ecount.
  { simpl. split; [| split; [reflexivity | lia]].
    split; [lia |]. intros (o & c & _ & Hc & _ & Hn & _).
    apply docLine_facts in Hc. lia. }
  destruct (negb (streq (trim t0) DASHES)) eqn:Efirst.
  { simpl. split; [| split; [reflexivity | lia]].
    split; [lia |]. intros (o & c & Ho & _ & Hn & _ & Hod & _).
    rewrite (Hopening o Ho Hn) in Hod.
    apply negb_true_iff, bool_decide_eq_false in Efirst. contradiction. }
  apply negb_false_iff, bool_decide_eq_true in Efirst.
  unfold closingLine.
  destruct (find _ _) as [closing |] eqn:Hfind.
  - destruct (find_linesFrom_first _ rest [t0] closing Hfind)
      as (ls1 & t & ls2 & Hrest & Hc & Hfence & Hbefore).
    apply bool_decide_eq_true in Hfence.
    assert (Hin : closing ∈ docLines d).
    { rewrite Hlines. right. subst others. rewrite Hrest, linesFrom_split.
      apply elem_of_app. right. rewrite Hc. left. }
    assert (Hnum : number closing = 2 + Z.of_nat (length ls1)).
    { rewrite Hc. simpl. lia. }
    assert (Hend : 7 <= lto closing).
    { pose proof (len_trim_le t0) as H1. rewrite Efirst in H1.
      pose proof (len_trim_le (ltext closing)) as H2. rewrite Hfence in H2.
      rewrite Hc in H2 |- *. simpl in H2 |- *. change (len DASHES) with 3 in *.
      pose proof (span_nonneg ls1). lia. }
    simpl fst. simpl snd.
    split; [| split; [lia |]].
    { split; [| lia]. intros _. exists (lineAfter [] t0), closing.
      repeat split; try assumption; [rewrite Hlines; left | lia]. }
    intros _. split; [exact Hend |].
    split; [apply (docLine_facts d closing Hin) |].
    exists closing. repeat split; try assumption; try lia.
    + intros l Hl (Hn1 & Hn2) Hd.
      apply Hlater in Hl; [| exact Hn1]. subst others.
      rewrite Hrest, linesFrom_split in Hl.
      apply elem_of_app in Hl as [Hl | Hl].
      * rewrite Forall_forall in Hbefore. specialize (Hbefore l Hl).
        apply bool_decide_eq_false in Hbefore. contradiction.
      * apply elem_of_cons in Hl as [-> | Hl]; [rewrite <- Hc in Hn2; lia |].
        apply linesFrom_elem in Hl as (a & u & b & _ & ->).
        simpl in Hn2. rewrite !length_app in Hn2. simpl in Hn2. lia.
    + unfold countProps. lia.
    + unfold countProps. subst others. rewrite Hrest, linesFrom_split, filter_app.
      rewrite (filter_none _ (_ :: _)).
      * rewrite app_nil_r.
        pose proof (length_filter
          (fun l => number l < number closing /\ 0 < len (trim (ltext l))
                    /\ COLON ∈ trim (ltext l))
          (linesFrom ls1 (span [t0]) (1 + Z.of_nat (length [t0])))) as Hle.
        rewrite length_linesFrom in Hle. lia.
      * constructor.
        -- rewrite <- Hc. lia.
        -- apply Forall_forall. intros l Hl.
           apply linesFrom_elem in Hl as (a & u & b & _ & ->).
           simpl. rewrite !length_app. simpl. lia.
  - simpl. split; [| split; [reflexivity | lia]].
    split; [lia |]. intros (o & c & _ & Hc & _ & Hn & _ & Hcd).
    apply Hlater in Hc; [| exact Hn].
    apply list_elem_of_In in Hc.
    pose proof (find_none _ _ Hfind c Hc) as Hf. simpl in Hf.
    apply bool_decide_eq_false in Hf. contradiction.
Qed.

(** ** Entering a node *)

Lemma quoteLine_selected (line : Line) :
  Forall (fun x => conceals x = false) (quoteLine true line).
Proof. unfold quoteLine. simpl. repeat constructor. Qed.

(** X18: when a selection range overlaps a node, entering it pushes no
    hidden range and no widget: only marks and line classes, so the source
    text of the node stays on screen. *)
Theorem enter_selected_conceals_nothing (fmEnd : Z) (name : NodeName)
    (d : str) (sel : list TextSelection) (nodeFrom nodeTo : Z) (e : Entered) :
  isRangeSelected sel nodeFrom nodeTo = true ->
  enter fmEnd name d sel nodeFrom nodeTo = Done e ->
  Forall (fun x => conceals x = false) (pushed e).
Proof.
  intros Hsel. unfold enter.
  destruct ((fmEnd >? 0) && (nodeTo <=? fmEnd)) eqn:Egate.
  { intros [= <-]. constructor. }
  destruct name; simpl headingLineDecos; cbv iota;
    unfold enterTable, enterImage, enterHorizontalRule, enterFencedCode,
      enterHeading, enterStrongEmphasis, enterEmphasis, enterStrikethrough,
      enterInlineCode, enterLink, enterTaskMarker, enterEscape,
      enterBlockquote;
    rewrite ?Egate, ?Hsel; simpl negb; cbv iota;
    try (intros [= <-]; simpl; repeat constructor; fail).
  - destruct (forEachBlockLine d nodeFrom nodeTo) as [| | visited];
      try discriminate.
    intros [= <-]. simpl. apply Forall_fmap, Forall_forall.
    intros line _. reflexivity.
  - destruct (lineAt d nodeFrom); [| discriminate].
    intros [= <-]. repeat constructor.
  - destruct (lineAt d nodeFrom); [| discriminate].
    intros [= <-]. repeat constructor.
  - destruct (lineAt d nodeFrom); [| discriminate].
    intros [= <-]. repeat constructor.
  - destruct (lineAt d nodeFrom); [| discriminate].
    intros [= <-]. repeat constructor.
  - destruct (lineAt d nodeFrom); [| discriminate].
    intros [= <-]. repeat constructor.
  - destruct (lineAt d nodeFrom); [| discriminate].
    intros [= <-]. repeat constructor.
  - destruct (_ >=? _); intros [= <-]; simpl; [constructor |].
    destruct (_ =? 3); repeat constructor.
  - destruct (_ >=? _); intros [= <-]; simpl; [constructor |].
    destruct (startsWith _ _); repeat constructor.
  - destruct (_ >=? _); intros [= <-]; simpl; repeat constructor.
  - destruct (_ >=? _); intros [= <-]; simpl; repeat constructor.
  - destruct (indexOf _ _ _ >? 0); intros [= <-]; simpl; repeat constructor.
  - destruct (forEachBlockLine d nodeFrom nodeTo) as [| | visited];
      try discriminate.
    intros [= <-]. simpl. apply Forall_concat, Forall_fmap, Forall_forall.
    intros line _. apply quoteLine_selected.
Qed.

Lemma enter_selected_conceals_nothing_witness :
  let d := lit "**ab**" in
  exists e,
    enter 0 StrongEmphasis d [{| from := 3; to := 3 |}] 0 6 = Done e
    /\ pushed e = [markRange strongMark 2 4]
    /\ Forall (fun x => conceals x = false) (pushed e).
Proof.
  intros d. eexists. split; [reflexivity |]. split; [reflexivity |].
  apply (enter_selected_conceals_nothing 0 StrongEmphasis d
           [{| from := 3; to := 3 |}] 0 6); reflexivity.
Defined.

Lemma openLen_pos (text : str) : 1 <= openLen text.
Proof.
  unfold openLen. pose proof (len_nonneg (spanWhile isBacktick text)).
  destruct (_ =? 0) eqn:E; lia.
Qed.

Lemma closeLen_pos (text : str) : 1 <= closeLen text.
Proof.
  unfold closeLen. pose proof (len_nonneg (spanWhile isBacktick (rev text))).
  destruct (_ =? 0) eqn:E; lia.
Qed.

(** X19: for a strong, emphasis, strikethrough or inline code node that gets
    any decoration, the two delimiter runs lie strictly inside the node and
    leave a non-empty middle; every mark is on that middle; the concealing
    ranges are none when the node is selected, and otherwise the opening
    run and the closing run, so that the three ranges split the node. *)
Theorem enter_delimited_splits_node (fmEnd : Z) (name : NodeName) (d : str)
    (sel : list TextSelection) (nodeFrom nodeTo : Z) (e : Entered) :
  name ∈ [StrongEmphasis; Emphasis; Strikethrough; InlineCode] ->
  enter fmEnd name d sel nodeFrom nodeTo = Done e ->
  pushed e <> [] ->
  exists cFrom cTo,
    nodeFrom < cFrom /\ cFrom < cTo /\ cTo < nodeTo
    /\ (exists cls, head (pushed e) = Some (markRange cls cFrom cTo))
    /\ Forall (fun x => extent x = (cFrom, cTo))
              (filter (fun x => conceals x = false) (pushed e))
    /\ filter (fun x => conceals x = true) (pushed e)
       = if isRangeSelected sel nodeFrom nodeTo then []
         else [hiddenReplace nodeFrom cFrom; hiddenReplace cTo nodeTo].
Proof.
  intros Hname. unfold enter.
  destruct ((fmEnd >? 0) && (nodeTo <=? fmEnd)) eqn:Egate.
  { intros [= <-] Hne. contradiction. }
  repeat (apply elem_of_cons in Hname as [-> | Hname]);
    [| | | | inversion Hname]; cbv iota.
  - unfold enterStrongEmphasis.
    set (markerLen := if startsWith _ TRIPLE then 3 else 2).
    assert (Hm : 1 <= markerLen) by (subst markerLen; destruct (startsWith _ _); lia).
    destruct (Z.geb_spec (nodeFrom + markerLen) (nodeTo - markerLen)) as [E | E];
      intros [= <-] Hne; [contradiction |].
    exists (nodeFrom + markerLen), (nodeTo - markerLen).
    repeat split; try lia; [eexists; reflexivity | |];
      destruct (markerLen =? 3), (isRangeSelected sel nodeFrom nodeTo);
      simpl; repeat constructor.
  - unfold enterEmphasis.
    set (markerLen := if startsWith _ TRIPLE then 3 else 1).
    assert (Hm : 1 <= markerLen) by (subst markerLen; destruct (startsWith _ _); lia).
    destruct (Z.geb_spec (nodeFrom + markerLen) (nodeTo - markerLen)) as [E | E];
      intros [= <-] Hne; [contradiction |].
    exists (nodeFrom + markerLen), (nodeTo - markerLen).
    repeat split; try lia; [eexists; reflexivity | |];
      destruct (startsWith _ _), (isRangeSelected sel nodeFrom nodeTo);
      simpl; repeat constructor.
  - unfold enterStrikethrough.
    destruct (Z.geb_spec (nodeFrom + 2) (nodeTo - 2)) as [E | E];
      intros [= <-] Hne; [contradiction |].
    exists (nodeFrom + 2), (nodeTo - 2).
    repeat split; try lia; [eexists; reflexivity | |];
      destruct (isRangeSelected sel nodeFrom nodeTo);
      simpl; repeat constructor.
  - unfold enterInlineCode.
    pose proof (openLen_pos (sliceString d nodeFrom nodeTo)) as Ho.
    pose proof (closeLen_pos (sliceString d nodeFrom nodeTo)) as Hc.
    destruct (Z.geb_spec (nodeFrom + openLen (sliceString d nodeFrom nodeTo))
                         (nodeTo - closeLen (sliceString d nodeFrom nodeTo)))
      as [E | E]; intros [= <-] Hne; [contradiction |].
    exists (nodeFrom + openLen (sliceString d nodeFrom nodeTo)),
           (nodeTo - closeLen (sliceString d nodeFrom nodeTo)).
    repeat split; try lia; [eexists; reflexivity | |];
      destruct (isRangeSelected sel nodeFrom nodeTo);
      simpl; repeat constructor.
Qed.

Lemma enter_delimited_splits_node_witness :
  let d := lit "a ~~bc~~" in
  exists e cFrom cTo,
    enter 0 Strikethrough d [{| from := 0; to := 0 |}] 2 8 = Done e
    /\ pushed e = [markRange strikeMark 4 6; hiddenReplace 2 4; hiddenReplace 6 8]
    /\ 2 < cFrom /\ cFrom < cTo /\ cTo < 8.
Proof.
  intros d.
  destruct (enter_delimited_splits_node 0 Strikethrough d
              [{| from := 0; to := 0 |}] 2 8
              {| pushed := [markRange strikeMark 4 6; hiddenReplace 2 4;
                            hiddenReplace 6 8];
                 descend := false |})
    as (cFrom & cTo & H1 & H2 & H3 & _).
  - apply list_elem_of_In. simpl. tauto.
  - reflexivity.
  - discriminate.
  - eexists. exists cFrom, cTo.
    split; [reflexivity |]. split; [reflexivity |]. auto.
Defined.

(** ** Inline code and links *)

Lemma sliceString_mid (p s q : str) :
  sliceString (p ++ s ++ q) (len p) (len p + len s) = s.
Proof.
  pose proof (len_nonneg p). pose proof (len_nonneg s). pose proof (len_nonneg q).
  rewrite sliceString_slice by (rewrite ?len_app; lia). apply slice_mid.
Qed.

Lemma Forall_backtick (run : str) :
  Forall (fun c => c = BACKTICK) run ->
  Forall (fun c => isBacktick c = true) run.
Proof.
  intros H. eapply Forall_impl; [exact H |]. intros c ->. reflexivity.
Qed.

Lemma isBacktick_false (c : char) : c <> BACKTICK -> isBacktick c = false.
Proof. intros H. unfold isBacktick. apply N.eqb_neq. exact H. Qed.

(** X20: for an inline code node written as a run of backticks, a body that
    neither starts nor ends with a backtick, and a closing run of backticks,
    the code mark is pushed first and covers exactly the body, whatever the
    lengths of the two runs. *)
Theorem enterInlineCode_marks_body (sel : list TextSelection)
    (before opening body closing after : str) :
  opening <> [] -> closing <> [] ->
  Forall (fun c => c = BACKTICK) opening ->
  Forall (fun c => c = BACKTICK) closing ->
  body <> [] -> head body <> Some BACKTICK -> last body <> Some BACKTICK ->
  let d := before ++ (opening ++ body ++ closing) ++ after in
  let nodeFrom := len before in
  let nodeTo := nodeFrom + len (opening ++ body ++ closing) in
  head (pushed (enterInlineCode d sel nodeFrom nodeTo))
  = Some (markRange codeMark (nodeFrom + len opening) (nodeTo - len closing))
  /\ sliceString d (nodeFrom + len opening) (nodeTo - len closing) = body.
Proof.
  intros Ho Hc Hopen Hclose Hbody Hhead Hlast d nodeFrom nodeTo.
  assert (Hlo : 0 < len opening) by (destruct opening; [contradiction | rewrite len_cons; pose proof (len_nonneg opening); lia]).
  assert (Hlc : 0 < len closing) by (destruct closing; [contradiction | rewrite len_cons; pose proof (len_nonneg closing); lia]).
  assert (Hlb : 0 < len body) by (destruct body; [contradiction | rewrite len_cons; pose proof (len_nonneg body); lia]).
  assert (Htext : sliceString d nodeFrom nodeTo = opening ++ body ++ closing).
  { subst d nodeFrom nodeTo. apply sliceString_mid. }
  assert (Hopen' : openLen (opening ++ body ++ closing) = len opening).
  { unfold openLen. destruct body as [| c rest]; [contradiction |].
    simpl app. rewrite spanWhile_stop.
    - destruct (len opening =? 0) eqn:E; [lia | reflexivity].
    - apply Forall_backtick, Hopen.
    - apply isBacktick_false. intros ->. apply Hhead. reflexivity. }
  assert (Hclose' : closeLen (opening ++ body ++ closing) = len closing).
  { unfold closeLen.
    destruct body as [| z init _] using rev_ind; [contradiction |].
    replace (rev (opening ++ (init ++ [z]) ++ closing))
      with (rev closing ++ z :: (rev init ++ rev opening))
      by (rewrite !rev_app_distr; simpl; rewrite <- !app_assoc; reflexivity).
    rewrite spanWhile_stop.
    - replace (len (rev closing)) with (len closing)
        by (unfold len; rewrite length_rev; reflexivity).
      destruct (len closing =? 0) eqn:E; [lia | reflexivity].
    - apply Forall_backtick, Forall_rev, Hclose.
    - apply isBacktick_false. intros ->. apply Hlast.
      rewrite last_snoc. reflexivity. }
  split.
  - unfold enterInlineCode. rewrite Htext, Hopen', Hclose'.
    subst nodeTo. rewrite !len_app.
    destruct (Z.geb_spec (nodeFrom + len opening)
                (nodeFrom + (len opening + (len body + len closing)) - len closing))
      as [E | E]; [lia | reflexivity].
  - subst d nodeFrom nodeTo.
    replace (before ++ (opening ++ body ++ closing) ++ after)
      with ((before ++ opening) ++ body ++ (closing ++ after))
      by (rewrite <- !app_assoc; reflexivity).
    replace (len before + len opening) with (len (before ++ opening))
      by apply len_app.
    replace (len before + len (opening ++ body ++ closing) - len closing)
      with (len (before ++ opening) + len body) by (rewrite !len_app; lia).
    apply sliceString_mid.
Qed.

Lemma enterInlineCode_marks_body_witness :
  let d := lit "a ``b`c`` d" in
  head (pushed (enterInlineCode d [] 2 9)) = Some (markRange codeMark 4 7)
  /\ sliceString d 4 7 = lit "b`c".
Proof.
  intros d.
  apply (enterInlineCode_marks_body [] (lit "a ") (lit "``") (lit "b`c")
           (lit "``") (lit " d")); try discriminate; repeat constructor.
Defined.






(** ** The task checkbox *)

Lemma checkboxClick_middle (b : bool) (before : str) (a c z : char) (after : str) :
  checkboxClick b (len before) (before ++ [a; c; z] ++ after)
  = Some (before ++ [a; if b then SPACE else LOWER_X; z] ++ after).
Proof.
  unfold checkboxClick, dispatchChange, validChange. cbn [cfrom cto insert].
  pose proof (len_nonneg before). pose proof (len_nonneg after).
  assert (Hlen : len (before ++ [a; c; z] ++ after) = len before + 3 + len after).
  { rewrite !len_app. change (len [a; c; z]) with 3. lia. }
  destruct (negb _) eqn:E.
  - f_equal.
    replace (before ++ [a; c; z] ++ after)
      with ((before ++ [a]) ++ [c] ++ ([z] ++ after))
      by (rewrite <- !app_assoc; reflexivity).
    replace (len before + 1) with (len (before ++ [a]))
      by (rewrite len_app; reflexivity).
    replace (len before + 2) with (len (before ++ [a]) + len [c])
      by (rewrite len_app; change (len [a]) with 1; change (len [c]) with 1; lia).
    rewrite replaceRange_split. rewrite <- !app_assoc.
    destruct b; reflexivity.
  - apply negb_false_iff in E. rewrite Hlen in E.
    repeat (apply orb_true_iff in E as [E | E]); lia.
Qed.

(** X22: for a task marker of three characters whose outer two are not "x",
    not selected, the checkbox shows checked exactly when the middle
    character is "x"; the edit its click dispatches is accepted and rewrites
    only that character, after it the marker is decorated with the opposite
    state, and for a marker that held "x" or a space a second click gives the
    original document back. *)
Theorem checkboxClick_flips_marker (sel : list TextSelection)
    (before : str) (a c z : char) (after : str) :
  a <> LOWER_X -> z <> LOWER_X ->
  let d := before ++ [a; c; z] ++ after in
  let nodeFrom := len before in
  let nodeTo := nodeFrom + 3 in
  isRangeSelected sel nodeFrom nodeTo = false ->
  let isChecked := bool_decide (c = LOWER_X) in
  pushed (enterTaskMarker d sel nodeFrom nodeTo)
  = [checkboxWidget isChecked nodeFrom nodeFrom nodeTo]
  /\ exists d',
      checkboxClick isChecked nodeFrom d = Some d'
      /\ d' = before ++ [a; if isChecked then SPACE else LOWER_X; z] ++ after
      /\ pushed (enterTaskMarker d' sel nodeFrom nodeTo)
         = [checkboxWidget (negb isChecked) nodeFrom nodeFrom nodeTo]
      /\ (c = LOWER_X \/ c = SPACE ->
          checkboxClick (negb isChecked) nodeFrom d' = Some d).
Proof.
  intros Ha Hz d nodeFrom nodeTo Hsel isChecked.
  assert (Hmarker : forall m : char,
            pushed (enterTaskMarker (before ++ [a; m; z] ++ after) sel
                      nodeFrom nodeTo)
            = [checkboxWidget (bool_decide (m = LOWER_X)) nodeFrom nodeFrom nodeTo]).
  { intros m. unfold enterTaskMarker. rewrite Hsel. simpl negb. cbv iota.
    subst nodeTo nodeFrom.
    change 3 with (len [a; m; z]). rewrite sliceString_mid. simpl.
    f_equal. f_equal. apply bool_decide_ext.
    rewrite !elem_of_cons, elem_of_nil. split.
    - intros [H | [H | [H | []]]]; congruence.
    - intros ->. right. left. reflexivity. }
  split; [apply Hmarker |].
  eexists. split; [apply checkboxClick_middle |]. split; [reflexivity |].
  split.
  - rewrite Hmarker. f_equal. f_equal. subst isChecked.
    destruct (bool_decide (c = LOWER_X)); reflexivity.
  - intros Hc. subst nodeFrom d. rewrite checkboxClick_middle. f_equal.
    subst isChecked. destruct Hc as [-> | ->]; reflexivity.
Qed.

Lemma checkboxClick_flips_marker_witness :
  let d := lit "- [ ] buy" in
  pushed (enterTaskMarker d [] 2 5) = [checkboxWidget false 2 2 5]
  /\ checkboxClick false 2 d = Some (lit "- [x] buy")
  /\ checkboxClick true 2 (lit "- [x] buy") = Some d.
Proof.
  intros d.
  destruct (checkboxClick_flips_marker [] (lit "- ") LBRACKET SPACE RBRACKET
              (lit " buy")) as (H1 & d' & H2 & -> & _ & H4);
    [discriminate | discriminate | reflexivity |].
  split; [exact H1 |]. split; [exact H2 |].
  apply H4. right. reflexivity.
Defined.

(** ** Headings and block quotes *)

Lemma spanWhile_Forall (p : char -> bool) (s : str) :
  Forall (fun c => p c = true) (spanWhile p s).
Proof.
  induction s as [| c s IH]; simpl; [constructor |].
  destruct (p c) eqn:E; constructor; assumption.
Qed.

Lemma spanWhile_split (p : char -> bool) (s : str) :
  s = spanWhile p s ++ drop (length (spanWhile p s)) s.
Proof.
  induction s as [| c s IH]; simpl; [reflexivity |].
  destruct (p c); simpl; [f_equal; exact IH | reflexivity].
Qed.

Lemma Forall_replicate_eq (c : char) (s : str) :
  Forall (fun x => (x =? c)%N = true) s -> s = replicate (length s) c.
Proof.
  induction 1 as [| x s Hx Hs IH]; [reflexivity |].
  apply N.eqb_eq in Hx. subst x. simpl. f_equal. exact IH.
Qed.

(** What [hashMatch] accepts: one to six hashes and a white space
    character at the start of the text. *)
Lemma hashMatch_Some (lineText : str) (matched : Z) :
  hashMatch lineText = Some matched ->
  exists (k : nat) (c : char) (rest : str),
    (1 <= k <= 6)%nat /\ matched = Z.of_nat k + 1 /\ isTrimmed c = true
    /\ lineText = replicate k HASH ++ c :: rest.
Proof.
  unfold hashMatch.
  set (hashes := spanWhile (fun c => (c =? HASH)%N) lineText).
  pose proof (spanWhile_split (fun c => (c =? HASH)%N) lineText) as Hsplit.
  pose proof (spanWhile_Forall (fun c => (c =? HASH)%N) lineText) as Hall.
  fold hashes in Hsplit, Hall.
  destruct ((1 <=? len hashes) && (len hashes <=? 6)) eqn:E; [| discriminate].
  apply andb_true_iff in E as (E1 & E2).
  destruct (drop (length hashes) lineText) as [| c rest] eqn:Hdrop;
    [discriminate |].
  destruct (isTrimmed c) eqn:Ec; [| discriminate].
  intros [= <-]. exists (length hashes), c, rest.
  unfold len in *. repeat split; try lia; [exact Ec |].
  rewrite <- (Forall_replicate_eq HASH hashes Hall). exact Hsplit.
Qed.

Lemma slice_of_line (d : str) (a n c : Z) :
  0 <= a -> 0 <= n -> a + n <= c -> c <= len d ->
  slice d a (a + n) = take (Z.to_nat n) (slice d a c).
Proof.
  intros Ha Hn Hc Hd.
  rewrite (slice_split d a (a + n) c) by lia.
  rewrite take_app_length'; [reflexivity |].
  pose proof (len_slice d a (a + n) Ha ltac:(lia) ltac:(lia)) as H.
  unfold len in H. lia.
Qed.

(** X23: entering a heading whose start lies in the document always gives
    the line of that start its heading class, and goes on into the children;
    a hidden range is pushed only when the node is not selected, starts at
    the start of that line, stays inside the line, and holds one to six
    hashes followed by one white space character. *)
Theorem enterHeading_hides_marker (level : Z) (d : str)
    (sel : list TextSelection) (nodeFrom nodeTo : Z) :
  0 <= nodeFrom -> nodeFrom <= len d ->
  exists line e,
    lineAt d nodeFrom = Some line
    /\ enterHeading level d sel nodeFrom nodeTo = Done e
    /\ descend e = true
    /\ head (pushed e) = Some (lineRange (headingLine level) (lfrom line))
    /\ forall x, x ∈ tail (pushed e) ->
         isRangeSelected sel nodeFrom nodeTo = false
         /\ exists (k : nat) (c : char),
              (1 <= k <= 6)%nat /\ isTrimmed c = true
              /\ x = hiddenReplace (lfrom line) (lfrom line + Z.of_nat k + 1)
              /\ lfrom line + Z.of_nat k + 1 <= lto line
              /\ sliceString d (lfrom line) (lfrom line + Z.of_nat k + 1)
                 = replicate k HASH ++ [c].
Proof.
  intros H0 H1.
  destruct (lineAt_Some d nodeFrom H0 H1) as (line & Hline).
  unfold enterHeading. rewrite Hline.
  exists line. eexists. split; [reflexivity |]. split; [reflexivity |].
  split; [reflexivity |]. split; [reflexivity |].
  simpl. intros x Hx.
  destruct (isRangeSelected sel nodeFrom nodeTo); simpl in Hx;
    [inversion Hx |].
  split; [reflexivity |].
  destruct (hashMatch (ltext line)) as [matched |] eqn:Hm; [| inversion Hx].
  apply list_elem_of_singleton in Hx. subst x.
  apply hashMatch_Some in Hm as (k & c & rest & Hk & -> & Hc & Htext).
  apply lineAt_elem in Hline as (Hin & _).
  destruct (docLine_facts d line Hin) as (Ha & Hb & Hc' & Hslice & _).
  assert (Hlen : Z.of_nat k + 1 <= len (ltext line)).
  { rewrite Htext, len_app, len_cons. unfold len. rewrite length_replicate.
    lia. }
  exists k, c. split; [exact Hk |]. split; [exact Hc |].
  split; [f_equal; lia |]. split; [lia |].
  rewrite sliceString_slice by lia.
  rewrite <- Z.add_assoc.
  rewrite (slice_of_line d (lfrom line) (Z.of_nat k + 1) (lto line)) by lia.
  rewrite <- Hslice, Htext.
  replace (replicate k HASH ++ c :: rest)
    with ((replicate k HASH ++ [c]) ++ rest) by (rewrite <- app_assoc; reflexivity).
  apply take_app_length'. rewrite length_app, length_replicate. simpl. lia.
Qed.

Lemma enterHeading_hides_marker_witness :
  let d := lit "ab" ++ [NEWLINE] ++ lit "## Title" in
  exists e,
    enterHeading 2 d [] 3 11 = Done e
    /\ pushed e = [lineRange (headingLine 2) 3; hiddenReplace 3 6].
Proof.
  intros d.
  destruct (enterHeading_hides_marker 2 d [] 3 11) as (line & e & _ & He & _);
    [lia | vm_compute; discriminate |].
  exists e. split; [exact He |].
  vm_compute in He. injection He as <-. reflexivity.
Defined.

Lemma quoteMatch_Some (lineText : str) (matched : Z) :
  quoteMatch lineText = Some matched ->
  1 <= matched <= 2 /\ matched <= len lineText
  /\ head lineText = Some QUOTE_MARK.
Proof.
  unfold quoteMatch. destruct lineText as [| c rest]; [discriminate |].
  destruct (c =? QUOTE_MARK)%N eqn:E; [| discriminate].
  apply N.eqb_eq in E. subst c. rewrite len_cons.
  destruct rest as [| c2 rest].
  - intros [= <-]. rewrite len_nil. repeat split; lia.
  - rewrite len_cons. pose proof (len_nonneg rest).
    destruct (isTrimmed c2); intros [= <-]; repeat split; lia.
Qed.

Lemma charAt_slice_head (d : str) (a b : Z) (c : char) (rest : str) :
  0 <= a -> a <= b -> b <= len d ->
  slice d a b = c :: rest -> charAt d a = Some c.
Proof.
  intros Ha Hab Hb H. rewrite slice_take_drop in H by lia.
  unfold charAt. destruct (a <? 0) eqn:E; [lia |].
  apply (f_equal head) in H. simpl in H.
  destruct (Z.to_nat (b - a)) as [| n]; [discriminate |].
  destruct (drop (Z.to_nat a) d) as [| x xs] eqn:Hdrop; [discriminate |].
  simpl in H. injection H as ->.
  rewrite <- (Nat.add_0_r (Z.to_nat a)), <- lookup_drop, Hdrop. reflexivity.
Qed.

Lemma elem_of_concat {A} (x : A) (ls : list (list A)) :
  x ∈ concat ls -> exists l, x ∈ l /\ l ∈ ls.
Proof.
  intros H. apply list_elem_of_In, in_concat in H as (l & Hl & Hx).
  exists l. split; apply list_elem_of_In; assumption.
Qed.

Lemma quoteLine_classes (selected : bool) (visited : list Line) :
  filter (fun x => conceals x = false) (concat (quoteLine selected <$> visited))
  = (fun l => lineRange blockquoteLine (lfrom l)) <$> visited.
Proof.
  induction visited as [| l visited IH]; [reflexivity |].
  change (concat (quoteLine selected <$> l :: visited))
    with (quoteLine selected l ++ concat (quoteLine selected <$> visited)).
  rewrite filter_app, IH.
  change ((fun l => lineRange blockquoteLine (lfrom l)) <$> l :: visited)
    with ([lineRange blockquoteLine (lfrom l)]
          ++ ((fun l => lineRange blockquoteLine (lfrom l)) <$> visited)).
  f_equal.
  unfold quoteLine. destruct (negb selected); [| reflexivity].
  destruct (quoteMatch (ltext l)); reflexivity.
Qed.

Lemma quoteLine_elem (selected : bool) (l : Line) (x : Deco) :
  x ∈ quoteLine selected l ->
  fst (extent x) = lfrom l
  /\ (conceals x = true ->
      selected = false
      /\ exists matched, quoteMatch (ltext l) = Some matched
                         /\ x = hiddenReplace (lfrom l) (lfrom l + matched)).
Proof.
  unfold quoteLine. intros H. apply elem_of_cons in H as [-> | H].
  - split; [reflexivity | discriminate].
  - destruct selected; simpl in H; [inversion H |].
    destruct (quoteMatch (ltext l)) as [matched |]; [| inversion H].
    apply list_elem_of_singleton in H. subst x.
    split; [reflexivity |]. intros _. split; [reflexivity |].
    exists matched. split; reflexivity.
Qed.

(** X24: entering a block quote that lies in the document completes, gives
    the block quote class to exactly the lines that [forEachBlockLine]
    visits, in order, and goes on into the children. Every concealing range
    is pushed only when the node is not selected, starts at the start of a
    visited line whose first character is the quote mark, is one or two
    characters long and stays inside that line. No pushed range starts at or
    after the end of a non-empty node. *)
Theorem enterBlockquote_marks_lines (d : str) (sel : list TextSelection)
    (nodeFrom nodeTo : Z) :
  0 <= nodeFrom -> nodeFrom <= nodeTo -> nodeTo <= len d ->
  exists visited e,
    forEachBlockLine d nodeFrom nodeTo = Done visited
    /\ enterBlockquote d sel nodeFrom nodeTo = Done e
    /\ descend e = true
    /\ filter (fun x => conceals x = false) (pushed e)
       = (fun l => lineRange blockquoteLine (lfrom l)) <$> visited
    /\ (forall x, x ∈ pushed e -> conceals x = true ->
          isRangeSelected sel nodeFrom nodeTo = false
          /\ exists l b,
               l ∈ visited /\ x = hiddenReplace (lfrom l) b
               /\ lfrom l < b /\ b <= lfrom l + 2 /\ b <= lto l
               /\ charAt d (lfrom l) = Some QUOTE_MARK)
    /\ (nodeFrom < nodeTo ->
        Forall (fun x => fst (extent x) < nodeTo) (pushed e)).
Proof.
  intros H0 H1 H2.
  destruct (blockEnd_cases d nodeFrom nodeTo H0 H1 H2)
    as (stop & Hstop & Hs0 & Hs1 & Hs2 & Hleak).
  destruct (forEachBlockLine_filter d nodeFrom nodeTo stop) as (Hrun & _);
    [lia | lia | lia | exact Hstop |].
  set (visited := filter (fun l => nodeFrom <= lto l /\ lfrom l <= stop)
                         (docLines d)) in *.
  assert (Hvisited : forall l, l ∈ visited -> l ∈ docLines d /\ lfrom l <= stop).
  { intros l Hl. apply list_elem_of_filter in Hl as ((_ & Hle) & Hin). auto. }
  exists visited. eexists. split; [exact Hrun |].
  unfold enterBlockquote. rewrite Hrun.
  split; [reflexivity |]. split; [reflexivity |].
  split; [apply quoteLine_classes |]. simpl pushed. split.
  - intros x Hx Hconceal.
    apply elem_of_concat in Hx as (xs & Hx & Hxs).
    apply list_elem_of_fmap in Hxs as (l & -> & Hl).
    apply quoteLine_elem in Hx as (_ & Hx).
    destruct (Hx Hconceal) as (Hsel & matched & Hm & ->).
    split; [exact Hsel |].
    apply quoteMatch_Some in Hm as (Hm1 & Hm2 & Hhead).
    destruct (Hvisited l Hl) as (Hin & _).
    destruct (docLine_facts d l Hin) as (Ha & Hb & Hc & Hslice & _).
    exists l, (lfrom l + matched).
    split; [exact Hl |]. split; [reflexivity |].
    split; [lia |]. split; [lia |]. split; [lia |].
    destruct (ltext l) as [| c rest] eqn:Htext; [discriminate |].
    injection Hhead as ->.
    apply (charAt_slice_head d (lfrom l) (lto l) QUOTE_MARK rest);
      try lia. symmetry. exact Hslice.
  - intros Hlt. apply Forall_forall. intros x Hx.
    apply elem_of_concat in Hx as (xs & Hx & Hxs).
    apply list_elem_of_fmap in Hxs as (l & -> & Hl).
    apply quoteLine_elem in Hx as (-> & _).
    destruct (Hvisited l Hl) as (Hin & Hle).
    exact (Hleak Hlt l Hin Hle).
Qed.

Lemma enterBlockquote_marks_lines_witness :
  let d := lit "> a" ++ [NEWLINE] ++ lit ">b" ++ [NEWLINE] ++ lit "c" in
  exists e,
    enterBlockquote d [{| from := 8; to := 8 |}] 0 7 = Done e
    /\ pushed e = [lineRange blockquoteLine 0; hiddenReplace 0 2;
                   lineRange blockquoteLine 4; hiddenReplace 4 5]
    /\ Forall (fun x => fst (extent x) < 7) (pushed e).
Proof.
  intros d.
  destruct (enterBlockquote_marks_lines d [{| from := 8; to := 8 |}] 0 7)
    as (visited & e & _ & He & _ & _ & _ & Hleak);
    [lia | lia | vm_compute; discriminate |].
  exists e. split; [exact He |]. split; [| apply Hleak; lia].
  vm_compute in He. injection He as <-. reflexivity.
Defined.

(** ** Fenced code *)

Lemma split_prefix_cases {A} (a a' : list A) (x x' : A) (b b' : list A) :
  a ++ x :: b = a' ++ x' :: b' ->
  (a = a' /\ x = x' /\ b = b')
  \/ (exists m, a' = a ++ x :: m /\ b = m ++ x' :: b')
  \/ (exists m, a = a' ++ x' :: m /\ b' = m ++ x :: b).
Proof.
  revert a'. induction a as [| y a IH]; intros a' H.
  - destruct a' as [| y' a']; simpl in H; injection H as Hx Hb; subst.
    + left. auto.
    + right. left. exists a'. auto.
  - destruct a' as [| y' a']; simpl in H; injection H as Hx Hb; subst.
    + right. right. exists a. auto.
    + destruct (IH a' Hb) as [(-> & -> & ->) | [(m & -> & ->) | (m & -> & ->)]].
      * left. auto.
      * right. left. exists m. auto.
      * right. right. exists m. auto.
Qed.

(** Two positions in order lie on the same line or on two lines in order. *)
Lemma lineAt_ordered (d : str) (p q : Z) (l1 l2 : Line) :
  p <= q -> lineAt d p = Some l1 -> lineAt d q = Some l2 ->
  l1 = l2
  \/ exists ls1 t1 mid t2 ls2,
       splitOn NEWLINE d = ls1 ++ t1 :: mid ++ t2 :: ls2
       /\ l1 = lineAfter ls1 t1 /\ l2 = lineAfter ((ls1 ++ [t1]) ++ mid) t2.
Proof.
  intros Hpq H1 H2.
  apply lineAt_inv in H1 as (a & x & b & Hs1 & -> & Hlo1 & Hhi1).
  apply lineAt_inv in H2 as (a' & x' & b' & Hs2 & -> & Hlo2 & Hhi2).
  rewrite Hs1 in Hs2.
  destruct (split_prefix_cases a a' x x' b b' Hs2)
    as [(-> & -> & ->) | [(m & -> & ->) | (m & -> & ->)]].
  - left. reflexivity.
  - right. exists a, x, m, x', b'. rewrite <- !app_assoc. auto.
  - exfalso. rewrite span_app in Hlo1. simpl in Hlo1.
    pose proof (span_nonneg m). pose proof (len_nonneg x). lia.
Qed.

Lemma flat_join (ls : list str) :
  ls <> [] -> flat ls = join [NEWLINE] ls ++ [NEWLINE].
Proof.
  induction ls as [| t ls IH]; [contradiction |]. intros _.
  rewrite flat_cons. destruct ls as [| t' ls].
  - reflexivity.
  - rewrite IH by discriminate.
    change (join [NEWLINE] (t :: t' :: ls))
      with (t ++ [NEWLINE] ++ join [NEWLINE] (t' :: ls)).
    rewrite <- !app_assoc. reflexivity.
Qed.

Lemma ltext_linesFrom (ls : list str) (start n : Z) :
  ltext <$> linesFrom ls start n = ls.
Proof.
  revert start n. induction ls as [| t ls IH]; intros; simpl; [reflexivity |].
  rewrite IH. reflexivity.
Qed.

Lemma linesFrom_numbers (before ls : list str) :
  Forall (fun l => 1 + Z.of_nat (length before) <= number l
                   /\ number l <= Z.of_nat (length before + length ls))
         (linesFrom ls (span before) (1 + Z.of_nat (length before))).
Proof.
  apply Forall_forall. intros l H.
  apply linesFrom_elem in H as (ls1 & t & ls2 & -> & ->).
  simpl. rewrite !length_app. simpl. lia.
Qed.

(** The lines strictly between two lines of a document. *)
Lemma lines_between (d : str) (ls1 : list str) (t1 : str) (mid : list str)
    (t2 : str) (ls2 : list str) :
  splitOn NEWLINE d = ls1 ++ t1 :: mid ++ t2 :: ls2 ->
  ltext <$> filter (fun l => number (lineAfter ls1 t1) < number l
                             /\ number l
                                < number (lineAfter ((ls1 ++ [t1]) ++ mid) t2))
                   (docLines d)
  = mid.
Proof.
  intros H. rewrite (docLines_split d ls1 t1 _ H), linesFrom_split.
  pose proof (linesFrom_numbers [] ls1) as Hbefore.
  pose proof (linesFrom_numbers (ls1 ++ [t1]) mid) as Hmid.
  pose proof (linesFrom_numbers (((ls1 ++ [t1]) ++ mid) ++ [t2]) ls2) as Hafter.
  simpl number.
  rewrite filter_app, filter_cons_False by (simpl; lia).
  rewrite filter_app, filter_cons_False by (simpl; lia).
  rewrite filter_none.
  2: { eapply Forall_impl; [exact Hbefore |]. simpl. intros l Hl. lia. }
  rewrite filter_all.
  2: { eapply Forall_impl; [exact Hmid |]. simpl. intros l Hl.
       rewrite !length_app in *. simpl in *. lia. }
  rewrite filter_none.
  2: { eapply Forall_impl; [exact Hafter |]. simpl. intros l Hl.
       rewrite !length_app in *. simpl in *. lia. }
  rewrite app_nil_r. simpl app. apply ltext_linesFrom.
Qed.

(** The text between the end of one line and the start of a later one. *)
Lemma code_between (d : str) (ls1 : list str) (t1 : str) (mid : list str)
    (t2 : str) (ls2 : list str) :
  splitOn NEWLINE d = ls1 ++ t1 :: mid ++ t2 :: ls2 ->
  let codeStart := lto (lineAfter ls1 t1) + 1 in
  let codeEnd := lfrom (lineAfter ((ls1 ++ [t1]) ++ mid) t2) - 1 in
  0 < lfrom (lineAfter ((ls1 ++ [t1]) ++ mid) t2)
  /\ (if codeStart <=? codeEnd then sliceString d codeStart codeEnd else [])
     = join [NEWLINE] mid.
Proof.
  intros H codeStart codeEnd. subst codeStart codeEnd. simpl lto. simpl lfrom.
  assert (H' : splitOn NEWLINE d = ((ls1 ++ [t1]) ++ mid) ++ t2 :: ls2)
    by (rewrite H, <- !app_assoc; reflexivity).
  destruct (split_bounds d _ t2 ls2 H') as (_ & Hlen).
  pose proof (span_nonneg ls1). pose proof (span_nonneg mid).
  pose proof (span_nonneg ls2). pose proof (len_nonneg t1).
  pose proof (len_nonneg t2).
  rewrite !span_app in *. simpl span in *.
  split; [lia |].
  destruct mid as [| m0 mid].
  - simpl span. destruct (Z.leb_spec (span ls1 + len t1 + 1)
                            (span ls1 + (len t1 + 1 + 0) + 0 - 1)); [lia |].
    reflexivity.
  - pose proof (flat_join (m0 :: mid) ltac:(discriminate)) as Hjoin.
    assert (Hspan : span (m0 :: mid) = len (join [NEWLINE] (m0 :: mid)) + 1).
    { rewrite <- len_flat, Hjoin, len_app. reflexivity. }
    pose proof (len_nonneg (join [NEWLINE] (m0 :: mid))).
    destruct (Z.leb_spec (span ls1 + len t1 + 1)
                (span ls1 + (len t1 + 1 + 0) + span (m0 :: mid) - 1)); [| lia].
    rewrite sliceString_slice by lia.
    rewrite <- (slice_app_l d [NEWLINE]) by lia.
    rewrite (doc_split d _ t2 ls2 H'), !flat_app, Hjoin, <- !app_assoc.
    rewrite (app_assoc (flat ls1)), <- flat_app.
    replace (span ls1 + len t1 + 1) with (len (flat (ls1 ++ [t1])))
      by (rewrite len_flat, span_app; change (span [t1]) with (len t1 + 1 + 0);
          lia).
    replace (span ls1 + (len t1 + 1 + 0) + span (m0 :: mid) - 1)
      with (len (flat (ls1 ++ [t1])) + len (join [NEWLINE] (m0 :: mid)))
      by (rewrite len_flat, span_app; change (span [t1]) with (len t1 + 1 + 0);
          lia).
    apply slice_mid.
Qed.

(** X25: entering a fenced code node that lies in the document and is not
    selected completes. It pushes nothing when the line of the block end is
    not a closing fence; otherwise it pushes one block widget that replaces
    the lines from the line of the node's start to the line of the block
    end, and whose code is exactly the lines strictly between those two,
    joined by line feeds. *)
Theorem enterFencedCode_shows_inner_lines (d : str) (sel : list TextSelection)
    (nodeFrom nodeTo : Z) :
  0 <= nodeFrom -> nodeFrom <= nodeTo -> nodeTo <= len d ->
  isRangeSelected sel nodeFrom nodeTo = false ->
  exists stop firstLine lastLine,
    blockEnd d nodeFrom nodeTo = Some stop
    /\ lineAt d nodeFrom = Some firstLine /\ lineAt d stop = Some lastLine
    /\ enterFencedCode d sel nodeFrom nodeTo
       = Done (if closesFence (ltext lastLine) then
                 {| pushed :=
                      [codeBlockWidget
                         (join [NEWLINE]
                            (ltext <$> filter (fun l => number firstLine < number l
                                                        /\ number l < number lastLine)
                                              (docLines d)))
                         (fenceLanguage (ltext firstLine))
                         (lfrom firstLine) (lto lastLine)];
                    descend := false |}
               else skipNode).
Proof.
  intros H0 H1 H2 Hsel.
  destruct (blockEnd_cases d nodeFrom nodeTo H0 H1 H2)
    as (stop & Hstop & Hs0 & Hs1 & Hs2 & _).
  destruct (lineAt_Some d nodeFrom) as (firstLine & Hfirst); [lia | lia |].
  destruct (lineAt_Some d stop) as (lastLine & Hlast); [lia | lia |].
  exists stop, firstLine, lastLine.
  split; [exact Hstop |]. split; [exact Hfirst |]. split; [exact Hlast |].
  unfold enterFencedCode. rewrite Hsel, Hstop, Hfirst, Hlast. simpl negb. cbv iota.
  destruct (closesFence (ltext lastLine)); [| reflexivity].
  simpl negb. cbv iota. do 4 f_equal.
  destruct (lineAt_ordered d nodeFrom stop firstLine lastLine Hs0 Hfirst Hlast)
    as [<- | (ls1 & t1 & mid & t2 & ls2 & Hsplit & -> & ->)].
  - apply lineAt_elem in Hfirst as (Hin & _).
    destruct (docLine_facts d firstLine Hin) as (Ha & Hb & _).
    pose proof (len_nonneg (ltext firstLine)).
    rewrite filter_none by (apply Forall_forall; intros l _; lia).
    destruct (lfrom firstLine >? 0);
      match goal with
      | |- (if ?a <=? ?b then _ else _) = _ =>
          destruct (Z.leb_spec a b); [lia | reflexivity]
      end.
  - destruct (code_between d ls1 t1 mid t2 ls2 Hsplit) as (Hpos & Hcode).
    rewrite (lines_between d ls1 t1 mid t2 ls2 Hsplit).
    destruct (lfrom (lineAfter ((ls1 ++ [t1]) ++ mid) t2) >? 0) eqn:E; [| lia].
    exact Hcode.
Qed.

Lemma enterFencedCode_shows_inner_lines_witness :
  let d := lit "```js" ++ [NEWLINE] ++ lit "a" ++ [NEWLINE] ++ lit "b"
           ++ [NEWLINE] ++ lit "```" ++ [NEWLINE] ++ lit "z" in
  enterFencedCode d [{| from := 15; to := 15 |}] 0 14
  = Done {| pushed := [codeBlockWidget (lit "a" ++ [NEWLINE] ++ lit "b")
                         (lit "js") 0 13];
            descend := false |}.
Proof.
  intros d.
  destruct (enterFencedCode_shows_inner_lines d [{| from := 15; to := 15 |}] 0 14)
    as (stop & firstLine & lastLine & Hstop & Hfirst & Hlast & H);
    [lia | lia | vm_compute; discriminate | reflexivity |].
  vm_compute in Hstop. injection Hstop as <-.
  vm_compute in Hfirst. injection Hfirst as <-.
  vm_compute in Hlast. injection Hlast as <-.
  rewrite H. reflexivity.
Defined.

(** ** The frontmatter block *)

Lemma lineNo_lookup (d : str) (pre : list Line) (l : Line) (post : list Line) :
  docLines d = pre ++ l :: post ->
  lineNo d (1 + Z.of_nat (length pre)) = Some l.
Proof.
  intros H. unfold lineNo, lineCount. rewrite H, length_app. simpl length.
  match goal with
  | |- (if ?c then _ else _) = _ => destruct c eqn:E
  end.
  - exfalso. apply orb_true_iff in E as [E | E];
      [apply Z.ltb_lt in E | apply Z.gtb_lt in E]; lia.
  - replace (Z.to_nat (1 + Z.of_nat (length pre) - 1)) with (length pre) by lia.
    rewrite lookup_app_r by lia. rewrite Nat.sub_diag. reflexivity.
Qed.

Lemma frontmatterLines_take (d : str) (count : nat) (pre post : list Line) :
  docLines d = pre ++ post -> (count <= length post)%nat ->
  frontmatterLines d count (1 + Z.of_nat (length pre))
  = Done ((fun l => lineRange frontmatterLine (lfrom l)) <$> take count post).
Proof.
  revert pre post. induction count as [| count IH]; intros pre post H Hc.
  - reflexivity.
  - destruct post as [| l post]; [simpl in Hc; lia |].
    simpl frontmatterLines. rewrite (lineNo_lookup d pre l post H).
    replace (1 + Z.of_nat (length pre) + 1)
      with (1 + Z.of_nat (length (pre ++ [l])))
      by (rewrite length_app; simpl; lia).
    rewrite (IH (pre ++ [l]) post).
    + reflexivity.
    + rewrite <- app_assoc. exact H.
    + simpl in Hc. lia.
Qed.

Lemma detectFrontmatter_closing (d : str) :
  0 < fst (detectFrontmatter d) ->
  exists ls1 t ls2,
    splitOn NEWLINE d = ls1 ++ t :: ls2 /\ ls1 <> []
    /\ fst (detectFrontmatter d) = lto (lineAfter ls1 t).
Proof.
  pose proof (splitOn_nonempty NEWLINE d) as Hne.
  destruct (splitOn NEWLINE d) as [| t0 rest] eqn:Hsplit; [simpl in Hne; lia |].
  rewrite (detectFrontmatter_unfold d t0 rest Hsplit).
  destruct (lineCount d <? 2); [simpl; lia |].
  destruct (negb _); [simpl; lia |].
  unfold closingLine.
  destruct (find _ _) as [closing |] eqn:Hfind; [| simpl; lia].
  destruct (find_linesFrom_first _ rest [t0] closing Hfind)
    as (ls1 & t & ls2 & -> & -> & _ & _).
  intros _. exists ([t0] ++ ls1), t, ls2.
  split; [reflexivity |]. split; [discriminate | reflexivity].
Qed.

(** X26: the frontmatter step never throws. Without frontmatter it pushes
    nothing; with frontmatter that no selection range overlaps it pushes one
    widget from the start of the document to the end of the closing fence;
    with a selection range on it, it pushes the frontmatter line class for
    each line up to the closing fence, in order, and nothing that conceals
    text. *)
Theorem frontmatterRanges_cases (d : str) (sel : list TextSelection) :
  let fmEnd := fst (detectFrontmatter d) in
  let propCount := snd (detectFrontmatter d) in
  frontmatterRanges d sel
  = Done (if fmEnd >? 0 then
            if isRangeSelected sel 0 fmEnd
            then (fun l => lineRange frontmatterLine (lfrom l))
                 <$> filter (fun l => lto l <= fmEnd) (docLines d)
            else [frontmatterWidget propCount 0 fmEnd]
          else []).
Proof.
  intros fmEnd propCount. unfold frontmatterRanges. fold fmEnd propCount.
  destruct (fmEnd >? 0) eqn:Eend; [| reflexivity].
  destruct (detectFrontmatter_closing d) as (ls1 & t & ls2 & Hsplit & Hne & Hend);
    [fold fmEnd; lia |].
  fold fmEnd in Hend.
  pose proof (docLines_split d ls1 t ls2 Hsplit) as Hlines.
  assert (Hfirst : exists line1, lineNo d 1 = Some line1 /\ lfrom line1 = 0).
  { pose proof (splitOn_nonempty NEWLINE d) as Hn.
    destruct (splitOn NEWLINE d) as [| t0 rest] eqn:Hs; [simpl in Hn; lia |].
    exists (lineAfter [] t0). split; [| reflexivity].
    apply (lineNo_lookup d [] (lineAfter [] t0)
             (linesFrom rest (span ([] ++ [t0]))
                (1 + Z.of_nat (length ([] ++ [t0]))))).
    apply (docLines_split d [] t0 rest Hs). }
  destruct Hfirst as (line1 & -> & ->).
  destruct (isRangeSelected sel 0 fmEnd); [| reflexivity].
  simpl negb. cbv iota.
  assert (Hat : lineAt d fmEnd = Some (lineAfter ls1 t)).
  { apply (lineAt_split d ls1 t ls2); [exact Hsplit | |]; rewrite Hend; simpl;
      pose proof (len_nonneg t); lia. }
  rewrite Hat. simpl number.
  rewrite (frontmatterLines_take d _ [] (docLines d) eq_refl).
  2: { rewrite Hlines, length_app, length_linesFrom. simpl. lia. }
  f_equal. f_equal. rewrite Hlines.
  replace (Z.to_nat (1 + Z.of_nat (length ls1)))
    with (length (linesFrom ls1 0 1) + 1)%nat
    by (rewrite length_linesFrom; lia).
  rewrite take_app_add. simpl take.
  pose proof (span_nonneg ls1). pose proof (len_nonneg t).
  rewrite filter_app, filter_all.
  2: { eapply Forall_impl; [apply (linesFrom_earlier [] ls1) |].
       simpl. intros l Hl. rewrite Hend. simpl. lia. }
  rewrite filter_cons_True by (rewrite Hend; lia).
  rewrite filter_none; [reflexivity |].
  eapply Forall_impl; [apply linesFrom_later |].
  simpl. intros l (Hl1 & Hl2). rewrite span_app in Hl1. simpl in Hl1.
  rewrite Hend. simpl. lia.
Qed.

(** ** Wiki links *)

Lemma spanWhile_not_elem (c : char) (p : char -> bool) (s : str) :
  p c = false -> c ∉ spanWhile p s.
Proof.
  intros Hc Hin. pose proof (spanWhile_Forall p s) as Hall.
  rewrite Forall_forall in Hall. specialize (Hall c Hin). congruence.
Qed.

Lemma len_wikiText (target : str) (alias : option str) :
  len (wikiText target alias)
  = match alias with
    | Some a => 2 + len target + 1 + len a + 2
    | None => 2 + len target + 2
    end.
Proof.
  unfold wikiText. destruct alias as [a |]; rewrite !len_app, ?len_cons;
    change (len [LBRACKET; LBRACKET]) with 2;
    change (len [RBRACKET; RBRACKET]) with 2; rewrite ?len_nil; lia.
Qed.

(** What [wikiMatchAt] accepts. *)
Lemma wikiMatchAt_Some (s target : str) (alias : option str) (n : Z) :
  wikiMatchAt s = Some (target, alias, n) ->
  (exists rest, s = wikiText target alias ++ rest)
  /\ n = len (wikiText target alias)
  /\ target <> [] /\ (RBRACKET ∉ target) /\ (PIPE ∉ target)
  /\ (forall a, alias = Some a -> a <> [] /\ (RBRACKET ∉ a)).
Proof.
  unfold wikiMatchAt.
  destruct s as [| b1 [| b2 rest]]; try discriminate.
  destruct ((b1 =? LBRACKET)%N && (b2 =? LBRACKET)%N) eqn:Eb; [| discriminate].
  apply andb_true_iff in Eb as (Eb1 & Eb2).
  apply N.eqb_eq in Eb1, Eb2. subst b1 b2.
  set (inTarget := fun c : char => negb (c =? RBRACKET)%N && negb (c =? PIPE)%N).
  cbv zeta.
  pose proof (spanWhile_split inTarget rest) as Hrest.
  destruct (length (spanWhile inTarget rest) =? 0)%nat eqn:Et; [discriminate |].
  apply Nat.eqb_neq in Et.
  destruct (drop (length (spanWhile inTarget rest)) rest) as [| c1 after] eqn:Hdrop;
    [discriminate |].
  assert (Htarget : spanWhile inTarget rest <> []
                    /\ (RBRACKET ∉ spanWhile inTarget rest)
                    /\ (PIPE ∉ spanWhile inTarget rest)).
  { split; [intros H; rewrite H in Et; contradiction |].
    split; apply spanWhile_not_elem; reflexivity. }
  destruct (c1 =? PIPE)%N eqn:Ec1.
  - apply N.eqb_eq in Ec1. subst c1.
    set (inAlias := fun c : char => negb (c =? RBRACKET)%N).
    cbv zeta.
    pose proof (spanWhile_split inAlias after) as Hafter.
    destruct (length (spanWhile inAlias after) =? 0)%nat eqn:Ea; [discriminate |].
    apply Nat.eqb_neq in Ea.
    destruct (drop (length (spanWhile inAlias after)) after)
      as [| r1 [| r2 tail]] eqn:Hdrop2; try discriminate.
    destruct ((r1 =? RBRACKET)%N && (r2 =? RBRACKET)%N) eqn:Er; [| discriminate].
    apply andb_true_iff in Er as (Er1 & Er2).
    apply N.eqb_eq in Er1, Er2. subst r1 r2.
    intros [= <- <- <-].
    split; [| split; [symmetry; apply len_wikiText | split; [apply Htarget |]]].
    + exists tail. unfold wikiText. rewrite Hrest at 1. rewrite Hafter at 1.
      rewrite <- !app_assoc. reflexivity.
    + split; [apply Htarget |]. split; [apply Htarget |].
      intros a [= <-]. split; [intros H; rewrite H in Ea; contradiction |].
      apply spanWhile_not_elem. reflexivity.
  - destruct after as [| r2 tail]; [discriminate |].
    destruct ((c1 =? RBRACKET)%N && (r2 =? RBRACKET)%N) eqn:Er; [| discriminate].
    apply andb_true_iff in Er as (Er1 & Er2).
    apply N.eqb_eq in Er1, Er2. subst c1 r2.
    intros [= <- <- <-].
    split; [| split; [symmetry; apply len_wikiText | split; [apply Htarget |]]].
    + exists tail. unfold wikiText. rewrite Hrest at 1.
      rewrite <- !app_assoc. reflexivity.
    + split; [apply Htarget |]. split; [apply Htarget |]. discriminate.
Qed.

Lemma wikiScan_cons (c : char) (s : str) (skip : nat) (pos : Z) :
  wikiScan skip (c :: s) pos
  = match skip with
    | S skip' => wikiScan skip' s (pos + 1)
    | O =>
        match wikiMatchAt (c :: s) with
        | Some (target, alias, n) =>
            {| windex := pos; wtarget := target; walias := alias; wlength := n |}
            :: wikiScan (Z.to_nat n - 1) s (pos + 1)
        | None => wikiScan O s (pos + 1)
        end
    end.
Proof. reflexivity. Qed.

Lemma wikiScan_sound (s : str) (skip : nat) (pos : Z) (pre : str) (m : WikiMatch) :
  m ∈ wikiScan skip s pos -> pos = len pre ->
  pos + Z.of_nat skip <= windex m
  /\ wlength m = len (wikiText (wtarget m) (walias m))
  /\ (exists after,
        pre ++ s = take (Z.to_nat (windex m)) (pre ++ s)
                   ++ wikiText (wtarget m) (walias m) ++ after)
  /\ windex m + wlength m <= len (pre ++ s)
  /\ wtarget m <> [] /\ (RBRACKET ∉ wtarget m) /\ (PIPE ∉ wtarget m)
  /\ (forall a, walias m = Some a -> a <> [] /\ (RBRACKET ∉ a)).
Proof.
  revert skip pos pre. induction s as [| c s IH]; intros skip pos pre Hin Hpos.
  - inversion Hin.
  - assert (Hnext : forall k, m ∈ wikiScan k s (pos + 1) ->
              pos + 1 + Z.of_nat k <= windex m
              /\ wlength m = len (wikiText (wtarget m) (walias m))
              /\ (exists after,
                    pre ++ c :: s = take (Z.to_nat (windex m)) (pre ++ c :: s)
                                    ++ wikiText (wtarget m) (walias m) ++ after)
              /\ windex m + wlength m <= len (pre ++ c :: s)
              /\ wtarget m <> [] /\ (RBRACKET ∉ wtarget m) /\ (PIPE ∉ wtarget m)
              /\ (forall a, walias m = Some a -> a <> [] /\ (RBRACKET ∉ a))).
    { intros k Hk.
      replace (pre ++ c :: s) with ((pre ++ [c]) ++ s)
        by (rewrite <- app_assoc; reflexivity).
      apply (IH k (pos + 1) (pre ++ [c]) Hk).
      rewrite len_app, Hpos. reflexivity. }
    rewrite wikiScan_cons in Hin. destruct skip as [| skip].
    + destruct (wikiMatchAt (c :: s)) as [[[target alias] n] |] eqn:Hm.
      * apply elem_of_cons in Hin as [-> | Hin].
        -- apply wikiMatchAt_Some in Hm as ((rest & Hs) & Hn & Ht).
           simpl. split; [lia |]. split; [exact Hn |].
           split; [| split; [| exact Ht]].
           ++ exists rest. rewrite Hpos. unfold len. rewrite Nat2Z.id.
              rewrite take_app_length. rewrite Hs. reflexivity.
           ++ rewrite Hs, Hn, Hpos, !len_app.
              pose proof (len_nonneg rest). lia.
        -- destruct (Hnext _ Hin) as (H1 & H2). split; [lia | exact H2].
      * destruct (Hnext _ Hin) as (H1 & H2). split; [lia | exact H2].
    + destruct (Hnext _ Hin) as (H1 & H2). split; [lia | exact H2].
Qed.

Lemma wikiScan_sorted (s : str) (skip : nat) (pos : Z) (pre : str) :
  pos = len pre ->
  StronglySorted (fun m1 m2 => windex m1 + wlength m1 <= windex m2)
                 (wikiScan skip s pos).
Proof.
  revert skip pos pre. induction s as [| c s IH]; intros skip pos pre Hpos.
  - constructor.
  - assert (Hpos' : pos + 1 = len (pre ++ [c]))
      by (rewrite len_app, Hpos; reflexivity).
    rewrite wikiScan_cons. destruct skip as [| skip]; [| apply (IH _ _ _ Hpos')].
    destruct (wikiMatchAt (c :: s)) as [[[target alias] n] |] eqn:Hm;
      [| apply (IH _ _ _ Hpos')].
    constructor; [apply (IH _ _ _ Hpos') |].
    apply Forall_forall. intros m Hin. simpl.
    apply wikiMatchAt_Some in Hm as (_ & Hn & _).
    pose proof (len_wikiText target alias) as Hlen.
    pose proof (len_nonneg target).
    assert (4 <= n).
    { rewrite Hn, Hlen. destruct alias as [a |]; [pose proof (len_nonneg a) |];
        lia. }
    destruct (wikiScan_sound s _ (pos + 1) (pre ++ [c]) m Hin Hpos') as (Hle & _).
    lia.
Qed.

(** X27: the matches of the wiki link scan come from left to right without
    overlap, and each one lies in the document and is the text of a wiki
    link: two opening brackets, a non-empty target without closing bracket
    or pipe, optionally a pipe and a non-empty alias without closing
    bracket, and two closing brackets. *)
Theorem wikiScan_finds_links (d : str) :
  StronglySorted (fun m1 m2 => windex m1 + wlength m1 <= windex m2)
                 (wikiScan 0 d 0)
  /\ Forall (fun m =>
               0 <= windex m /\ windex m + wlength m <= len d
               /\ sliceString d (windex m) (windex m + wlength m)
                  = wikiText (wtarget m) (walias m)
               /\ wtarget m <> [] /\ (RBRACKET ∉ wtarget m) /\ (PIPE ∉ wtarget m)
               /\ (forall a, walias m = Some a -> a <> [] /\ (RBRACKET ∉ a)))
            (wikiScan 0 d 0).
Proof.
  split; [apply (wikiScan_sorted d 0 0 []); reflexivity |].
  apply Forall_forall. intros m Hin.
  destruct (wikiScan_sound d 0 0 [] m Hin eq_refl)
    as (H0 & Hlen & (after & Hd) & Hend & Hrest).
  change ([] ++ d) with d in *.
  split; [lia |]. split; [exact Hend |]. split; [| exact Hrest].
  assert (Htake : len (take (Z.to_nat (windex m)) d) = windex m).
  { pose proof (len_nonneg (wikiText (wtarget m) (walias m))).
    unfold len in *. rewrite length_take. lia. }
  set (p := take (Z.to_nat (windex m)) d) in *.
  rewrite Hlen. replace (windex m) with (len p) by exact Htake.
  rewrite Hd. apply sliceString_mid.
Qed.

Lemma wikiMatchAt_other (c : char) (s : str) :
  c <> LBRACKET -> wikiMatchAt (c :: s) = None.
Proof.
  intros H. unfold wikiMatchAt. destruct s as [| b2 rest]; [reflexivity |].
  destruct (c =? LBRACKET)%N eqn:E; [apply N.eqb_eq in E; contradiction |].
  reflexivity.
Qed.

Lemma wikiScan_pass (pre s : str) (pos : Z) :
  LBRACKET ∉ pre -> wikiScan 0 (pre ++ s) pos = wikiScan 0 s (pos + len pre).
Proof.
  revert pos. induction pre as [| c pre IH]; intros pos H.
  - rewrite len_nil, Z.add_0_r. reflexivity.
  - apply not_elem_of_cons in H as (Hc & H).
    change ((c :: pre) ++ s) with (c :: (pre ++ s)).
    rewrite wikiScan_cons, wikiMatchAt_other by congruence.
    rewrite IH by exact H. rewrite len_cons. f_equal. lia.
Qed.

Lemma wikiMatchAt_wikiText (target : str) (alias : option str) (post : str) :
  target <> [] -> (RBRACKET ∉ target) -> (PIPE ∉ target) ->
  (forall a, alias = Some a -> a <> [] /\ (RBRACKET ∉ a)) ->
  wikiMatchAt (wikiText target alias ++ post)
  = Some (target, alias, len (wikiText target alias)).
Proof.
  intros Hne Hr Hp Halias. rewrite len_wikiText.
  assert (Hclass : Forall (fun c : char =>
                     negb (c =? RBRACKET)%N && negb (c =? PIPE)%N = true) target).
  { apply Forall_forall. intros c Hc. apply andb_true_iff.
    split; apply negb_true_iff, N.eqb_neq; intros ->; contradiction. }
  assert (Hlen : (length target =? 0)%nat = false).
  { apply Nat.eqb_neq. destruct target; [contradiction | discriminate]. }
  assert (Htext : wikiText target alias ++ post
                  = LBRACKET :: LBRACKET
                    :: (target
                        ++ match alias with
                           | Some a => PIPE :: (a ++ RBRACKET :: RBRACKET :: post)
                           | None => RBRACKET :: RBRACKET :: post
                           end)).
  { unfold wikiText. destruct alias; rewrite <- !app_assoc; reflexivity. }
  rewrite Htext. unfold wikiMatchAt.
  rewrite !N.eqb_refl. simpl andb. cbv iota zeta.
  destruct alias as [a |].
  - destruct (Halias a eq_refl) as (Ha & Hra).
    rewrite spanWhile_stop by (exact Hclass || reflexivity).
    rewrite Hlen, drop_app_length. rewrite N.eqb_refl.
    rewrite spanWhile_stop.
    + assert (Hla : (length a =? 0)%nat = false)
        by (apply Nat.eqb_neq; destruct a; [contradiction | discriminate]).
      rewrite Hla, drop_app_length. reflexivity.
    + apply Forall_forall. intros c Hc. apply negb_true_iff, N.eqb_neq.
      intros ->. contradiction.
    + reflexivity.
  - rewrite spanWhile_stop by (exact Hclass || reflexivity).
    rewrite Hlen, drop_app_length. reflexivity.
Qed.

(** X28: a wiki link with no opening bracket before it in the document is
    the first match of the scan. Inside the frontmatter it gets no
    decoration; elsewhere its mark carries the target and covers exactly the
    label (the alias, or the target when there is none), which is not empty,
    and the two hidden ranges, pushed only when no selection range overlaps
    the link, are what comes before and after the label. *)
Theorem wikiLink_first_match (pre target : str) (alias : option str)
    (post : str) (fmEnd : Z) (sel : list TextSelection) :
  (LBRACKET ∉ pre) ->
  target <> [] -> (RBRACKET ∉ target) -> (PIPE ∉ target) ->
  (forall a, alias = Some a -> a <> [] /\ (RBRACKET ∉ a)) ->
  let d := pre ++ wikiText target alias ++ post in
  let m := {| windex := len pre; wtarget := target; walias := alias;
              wlength := len (wikiText target alias) |} in
  let absTo := len pre + len (wikiText target alias) in
  let labelFrom := absTo - 2 - len (wikiLabel m) in
  head (wikiScan 0 d 0) = Some m
  /\ wikiRanges fmEnd sel m
     = (if (fmEnd >? 0) && (len pre <? fmEnd) then []
        else wikiMark target labelFrom (absTo - 2)
             :: (if isRangeSelected sel (len pre) absTo then []
                 else [hiddenReplace (len pre) labelFrom;
                       hiddenReplace (absTo - 2) absTo]))
  /\ sliceString d labelFrom (absTo - 2) = wikiLabel m
  /\ len pre < labelFrom /\ labelFrom < absTo - 2.
Proof.
  intros Hpre Hne Hr Hp Halias d m absTo labelFrom.
  pose proof (len_nonneg pre). pose proof (len_nonneg target) as Ht.
  assert (Htpos : 0 < len target)
    by (destruct target; [contradiction | rewrite len_cons; pose proof (len_nonneg target); lia]).
  pose proof (len_wikiText target alias) as Hlen.
  split; [| split; [| split]].
  - subst d. rewrite wikiScan_pass by exact Hpre.
    destruct (wikiText target alias ++ post) as [| c s] eqn:Hs.
    { unfold wikiText in Hs. discriminate. }
    rewrite wikiScan_cons, <- Hs, wikiMatchAt_wikiText by assumption.
    reflexivity.
  - unfold wikiRanges. subst m. cbn [windex wtarget walias wlength]. fold absTo.
    destruct ((fmEnd >? 0) && (len pre <? fmEnd)); [reflexivity |].
    subst labelFrom. unfold wikiLabel. cbn [walias wtarget].
    destruct alias as [a |].
    + replace (absTo - 2 - len a) with (len pre + 2 + len target + 1)
        by (subst absTo; lia).
      destruct (isRangeSelected sel (len pre) absTo); reflexivity.
    + replace (absTo - 2 - len target) with (len pre + 2)
        by (subst absTo; lia).
      destruct (isRangeSelected sel (len pre) absTo); reflexivity.
  - subst d labelFrom absTo m. unfold wikiLabel, wikiText in *. cbn [walias wtarget].
    destruct alias as [a |].
    + replace (pre ++ ([LBRACKET; LBRACKET] ++ target ++ (PIPE :: a)
                       ++ [RBRACKET; RBRACKET]) ++ post)
        with ((pre ++ [LBRACKET; LBRACKET] ++ target ++ [PIPE]) ++ a
              ++ ([RBRACKET; RBRACKET] ++ post))
        by (rewrite <- !app_assoc; reflexivity).
      replace (len pre + len ([LBRACKET; LBRACKET] ++ target ++ (PIPE :: a)
                              ++ [RBRACKET; RBRACKET]) - 2 - len a)
        with (len (pre ++ [LBRACKET; LBRACKET] ++ target ++ [PIPE]))
        by (rewrite Hlen, !len_app; change (len [LBRACKET; LBRACKET]) with 2;
            change (len [PIPE]) with 1; lia).
      replace (len pre + len ([LBRACKET; LBRACKET] ++ target ++ (PIPE :: a)
                              ++ [RBRACKET; RBRACKET]) - 2)
        with (len (pre ++ [LBRACKET; LBRACKET] ++ target ++ [PIPE]) + len a)
        by (rewrite Hlen, !len_app; change (len [LBRACKET; LBRACKET]) with 2;
            change (len [PIPE]) with 1; lia).
      apply sliceString_mid.
    + replace (pre ++ ([LBRACKET; LBRACKET] ++ target ++ []
                       ++ [RBRACKET; RBRACKET]) ++ post)
        with ((pre ++ [LBRACKET; LBRACKET]) ++ target
              ++ ([RBRACKET; RBRACKET] ++ post))
        by (rewrite <- !app_assoc; reflexivity).
      replace (len pre + len ([LBRACKET; LBRACKET] ++ target ++ []
                              ++ [RBRACKET; RBRACKET]) - 2 - len target)
        with (len (pre ++ [LBRACKET; LBRACKET]))
        by (rewrite Hlen, !len_app; change (len [LBRACKET; LBRACKET]) with 2; lia).
      replace (len pre + len ([LBRACKET; LBRACKET] ++ target ++ []
                              ++ [RBRACKET; RBRACKET]) - 2)
        with (len (pre ++ [LBRACKET; LBRACKET]) + len target)
        by (rewrite Hlen, !len_app; change (len [LBRACKET; LBRACKET]) with 2; lia).
      apply sliceString_mid.
  - subst labelFrom absTo m. unfold wikiLabel. cbn [walias wtarget].
    rewrite Hlen. destruct alias as [a |].
    + destruct (Halias a eq_refl) as (Ha & _).
      assert (0 < len a)
        by (destruct a; [contradiction | rewrite len_cons; pose proof (len_nonneg a); lia]).
      lia.
    + lia.
Qed.

Lemma wikiLink_first_match_witness :
  let d := lit "see [[Page|the page]] now" in
  head (wikiScan 0 d 0)
  = Some {| windex := 4; wtarget := lit "Page"; walias := Some (lit "the page");
            wlength := 17 |}
  /\ wikiLinkRanges 0 d []
     = [wikiMark (lit "Page") 11 19; hiddenReplace 4 11; hiddenReplace 19 21]
  /\ sliceString d 11 19 = lit "the page".
Proof.
  intros d.
  destruct (wikiLink_first_match (lit "see ") (lit "Page") (Some (lit "the page"))
              (lit " now") 0 []) as (H1 & _ & H3 & _).
  - vm_compute. intros H. apply list_elem_of_In in H. simpl in H.
    repeat (destruct H as [H | H]; [discriminate H |]). exact H.
  - discriminate.
  - intros H. apply list_elem_of_In in H. vm_compute in H.
    repeat (destruct H as [H | H]; [discriminate H |]). exact H.
  - intros H. apply list_elem_of_In in H. vm_compute in H.
    repeat (destruct H as [H | H]; [discriminate H |]). exact H.
  - intros a [= <-]. split; [discriminate |].
    intros H. apply list_elem_of_In in H. vm_compute in H.
    repeat (destruct H as [H | H]; [discriminate H |]). exact H.
  - split; [exact H1 |]. split; [reflexivity | exact H3].
Defined.

(** ** Images *)

Lemma trimStart_nil (s : str) :
  trimStart s = [] <-> Forall (fun c => isTrimmed c = true) s.
Proof.
  induction s as [| c s IH]; simpl.
  - split; [constructor | reflexivity].
  - destruct (isTrimmed c) eqn:E.
    + rewrite IH. split; [constructor; assumption | intros H; inversion H; assumption].
    + split; [discriminate | intros H; inversion H; congruence].
Qed.

Lemma trimStart_head (s : str) (c : char) (rest : str) :
  trimStart s = c :: rest -> isTrimmed c = false.
Proof.
  induction s as [| x s IH]; simpl; [discriminate |].
  destruct (isTrimmed x) eqn:E; [exact IH | intros [= <- _]; exact E].
Qed.

Lemma trim_nil (s : str) :
  trim s = [] <-> Forall (fun c => isTrimmed c = true) s.
Proof.
  unfold trim. split.
  - intros H. apply (f_equal (@rev char)) in H. rewrite rev_involutive in H.
    simpl in H. apply trimStart_nil, Forall_rev in H. rewrite rev_involutive in H.
    destruct (trimStart s) as [| c rest] eqn:E; [apply trimStart_nil, E |].
    apply trimStart_head in E. inversion H; congruence.
  - intros H. apply trimStart_nil in H. rewrite H. reflexivity.
Qed.

Lemma imageMatch_text (alt src : str) :
  (RBRACKET ∉ alt) -> (RPAREN ∉ src) -> src <> [] ->
  imageMatch ([BANG; LBRACKET] ++ alt ++ [RBRACKET; LPAREN] ++ src ++ [RPAREN])
  = Some (alt, src).
Proof.
  intros Halt Hsrc Hne.
  change ([BANG; LBRACKET] ++ alt ++ [RBRACKET; LPAREN] ++ src ++ [RPAREN])
    with (BANG :: LBRACKET :: (alt ++ RBRACKET :: LPAREN :: (src ++ [RPAREN]))).
  unfold imageMatch. rewrite !N.eqb_refl. simpl andb. cbv iota zeta.
  rewrite spanWhile_stop.
  2: { apply Forall_forall. intros c Hc. apply negb_true_iff, N.eqb_neq.
       intros ->. contradiction. }
  2: reflexivity.
  rewrite drop_app_length, !N.eqb_refl. simpl andb. cbv iota.
  rewrite spanWhile_stop.
  2: { apply Forall_forall. intros c Hc. apply negb_true_iff, N.eqb_neq.
       intros ->. contradiction. }
  2: reflexivity.
  rewrite drop_app_length, N.eqb_refl.
  destruct src; [contradiction | reflexivity].
Qed.

(** X29: for an image node that lies in the document, is not selected, and
    whose text is an exclamation mark, an alt text in brackets and a source
    in parentheses, entering it completes; it pushes one widget with that
    source and alt text over the whole line of the node's start when only
    white space comes before the image on that line, and nothing when
    anything else comes before it. *)
Theorem enterImage_alone_on_line (d : str) (sel : list TextSelection)
    (nodeFrom nodeTo : Z) (alt src : str) :
  0 <= nodeFrom -> nodeFrom <= nodeTo -> nodeTo <= len d ->
  isRangeSelected sel nodeFrom nodeTo = false ->
  sliceString d nodeFrom nodeTo
  = [BANG; LBRACKET] ++ alt ++ [RBRACKET; LPAREN] ++ src ++ [RPAREN] ->
  (RBRACKET ∉ alt) -> (RPAREN ∉ src) -> src <> [] ->
  exists line,
    lineAt d nodeFrom = Some line /\ lfrom line <= nodeFrom
    /\ enterImage d sel nodeFrom nodeTo
       = Done (if forallb isTrimmed (slice d (lfrom line) nodeFrom)
               then {| pushed := [imageWidget src alt (lfrom line) (lto line)];
                       descend := false |}
               else skipNode).
Proof.
  intros H0 H1 H2 Hsel Htext Halt Hsrc Hne.
  destruct (lineAt_Some d nodeFrom) as (line & Hline); [lia | lia |].
  exists line. split; [exact Hline |].
  pose proof (lineAt_elem d nodeFrom line Hline) as (Hin & Hlo & Hhi).
  destruct (docLine_facts d line Hin) as (Ha & _).
  split; [exact Hlo |].
  unfold enterImage. rewrite Hsel, Htext, imageMatch_text by assumption.
  simpl negb. cbv iota. rewrite Hline.
  rewrite sliceString_slice by lia.
  destruct (forallb isTrimmed (slice d (lfrom line) nodeFrom)) eqn:Eall.
  - pose proof (proj1 (forallb_forall _ _) Eall) as Hall.
    assert (Htrim : streq (trim (slice d (lfrom line) nodeFrom)) [] = true).
    { apply bool_decide_eq_true, trim_nil, Forall_forall.
      intros c Hc. apply Hall, list_elem_of_In, Hc. }
    rewrite Htrim, orb_true_r. reflexivity.
  - assert (Htrim : streq (trim (slice d (lfrom line) nodeFrom)) [] = false).
    { apply bool_decide_eq_false. intros Hnil. apply trim_nil in Hnil.
      assert (forallb isTrimmed (slice d (lfrom line) nodeFrom) = true);
        [| congruence].
      apply (proj2 (forallb_forall _ _)). intros c Hc.
      rewrite Forall_forall in Hnil. apply Hnil, list_elem_of_In, Hc. }
    rewrite Htrim, orb_false_r.
    destruct (lfrom line =? nodeFrom) eqn:E; [| reflexivity].
    apply Z.eqb_eq in E. rewrite E in Eall.
    rewrite slice_take_drop in Eall by lia.
    rewrite Z.sub_diag in Eall. simpl in Eall. discriminate.
Qed.

Lemma enterImage_alone_on_line_witness :
  let d := lit "text" ++ [NEWLINE] ++ lit "  ![a](u.png)" in
  enterImage d [] 7 18
  = Done {| pushed := [imageWidget (lit "u.png") (lit "a") 5 18];
            descend := false |}.
Proof.
  intros d.
  destruct (enterImage_alone_on_line d [] 7 18 (lit "a") (lit "u.png"))
    as (line & Hline & _ & H).
  - lia.
  - lia.
  - vm_compute. discriminate.
  - reflexivity.
  - reflexivity.
  - intros H. apply list_elem_of_In in H. vm_compute in H.
    repeat (destruct H as [H | H]; [discriminate H |]). exact H.
  - intros H. apply list_elem_of_In in H. vm_compute in H.
    repeat (destruct H as [H | H]; [discriminate H |]). exact H.
  - discriminate.
  - vm_compute in Hline. injection Hline as <-. rewrite H. reflexivity.
Defined.

